(** * Royalbird backend: counters, trends, tag cloud, slugs and lockout

    A shallow embedding of the counter and analytics code of the
    Royalbird REST backend, with the properties its specification states.
    The first part holds the program, one module per component, with the
    notions the properties are stated with; the second part holds the
    properties of the specification, the third part further properties
    of the code.

    Conventions.
    - A mongoose document is a record; an instance method that mutates
      [this] and returns a value is a function from the document to the
      pair of the new document and the returned value.
    - [await doc.save()] and the store's update primitives are assumed to
      succeed; the store effects of a save (the schema's post-save hook)
      are modelled in [Counters].
    - Arrays are [list]s.  Identifiers, messages and the other strings
      that the code only compares are [string]s; the strings that it takes
      apart (titles, names, content) are lists of UTF-16 code units
      ([JSString.t]), and [String.prototype.toLowerCase] is a parameter
      of which only two properties are used ([JSString.lowercases]).
    - The casts that mongoose applies to a filter and to a new document
      ([lowercase], [trim], the cast to an ObjectId) are parameters of
      the handlers that depend on them.
    - Integer valued Numbers (counters, timestamps in milliseconds) are
      [Z]; they stay far below 2^53, where double arithmetic on integers
      is exact.
    - Numbers that come out of a division are rationals that are doubles:
      every arithmetic operation is the exact operation followed by
      [Number.binary64], the IEEE 754 rounding to the nearest double. *)

From Stdlib Require Import ZArith QArith Qround Qabs Qpower Lia Lqa List Ascii String.
From stdpp Require Import base decidable option list strings pretty gmap sorting.

Local Open Scope Z_scope.

(** * Part 1: the program *)

(** ** JavaScript Numbers *)

Module Number.

Local Open Scope Q_scope.

(** [floor (log2 q)] for a positive rational. *)
Definition ilog2 (q : Q) : Z :=
  let l := (Z.log2 (Qnum q) - Z.log2 (Zpos (Qden q)))%Z in
  if Qle_bool (2 ^ l) q then l else (l - 1)%Z.

(** Rounding to the nearest integer, ties to even. *)
Definition rne (q : Q) : Z :=
  let f := Qfloor q in
  match Qcompare (q - inject_Z f) (1 # 2) with
  | Lt => f
  | Gt => (f + 1)%Z
  | Eq => if Z.even f then f else (f + 1)%Z
  end.

(** The double nearest to a positive rational: 53 significant bits, the
    exponent [expo q] of the last place at least -1074 (subnormal
    numbers).  Overflow to Infinity (from 2^1024 on) is outside the
    model. *)
Definition expo (q : Q) : Z := Z.max (ilog2 q - 52) (-1074).

Definition round_pos (q : Q) : Q :=
  inject_Z (rne (q / 2 ^ expo q)) * 2 ^ expo q.

(** Round to nearest, ties to even, symmetric in the sign. *)
Definition binary64 (q : Q) : Q :=
  match Qcompare q 0 with
  | Eq => 0
  | Gt => round_pos q
  | Lt => - round_pos (- q)
  end.

(** The arithmetic operators on Numbers.  Division by zero gives Infinity
    or NaN in JavaScript; every caller below guards its divisor. *)
Definition add (a b : Q) : Q := binary64 (a + b).
Definition sub (a b : Q) : Q := binary64 (a - b).
Definition mul (a b : Q) : Q := binary64 (a * b).
Definition div (a b : Q) : Q := binary64 (a / b).

(** Half a unit in the last place of a normal double, relative to it:
    2^-53. *)
Definition u : Q := 1 # 9007199254740992.

(** [a > b] and [a >= b] on Numbers. *)
Definition gtb (a b : Q) : bool := negb (Qle_bool a b).
Definition geb (a b : Q) : bool := Qle_bool b a.

(** [Math.round]: the nearest integer, ties towards +Infinity. *)
Definition Math_round (x : Q) : Z := Qfloor (x + (1 # 2)).

(** The tenths [n] that [x.toFixed(1)] prints for a non-negative [x]:
    the integer with [n / 10] nearest to [x], the larger one on a tie. *)
Definition tenths (x : Q) : Z := Qfloor (x * 10 + (1 # 2)).

(** [parseFloat(x.toFixed(1))].  [toFixed] prints the sign and then the
    tenths of the absolute value; from 10^21 on it prints like [String(x)],
    which [parseFloat] reads back as [x]. *)
Definition toFixed1 (x : Q) : Q :=
  if geb (Qabs x) (inject_Z (10 ^ 21)) then x
  else
    let n := tenths (Qabs x) in
    binary64 ((if geb x 0 then 1 else -1) * (inject_Z n / 10)).

End Number.

(** ** Errors of the HTTP layer (routing-controllers) *)

Inductive HttpError :=
| BadRequestError (message : string)
| NotFoundError (message : string)
| ForbiddenError (message : string).

Definition httpCode (e : HttpError) : Z :=
  match e with
  | BadRequestError _ => 400
  | NotFoundError _ => 404
  | ForbiddenError _ => 403
  end.

(** What a handler does: it returns a body or throws. *)
Inductive response (A : Type) :=
| Return (body : A)
| Throw (e : HttpError).
Arguments Return {A} body.
Arguments Throw {A} e.

(** ** Comic documents: the like / unlike tracker
    (src/models/comic.model.ts) *)

Module Comic.

(** The fields of [IComic] that the counter code reads or writes.
    [genres] and [tags] hold the ObjectIds of the referenced documents. *)
Record t := mk {
  id : string;
  slug : string;
  status : string;
  views : Z;
  likes : Z;
  likedBy : list string;
  genres : list string;
  tags : list string;
  deletedAt : option Z
}.

Definition set_likes (c : t) (n : Z) (l : list string) : t :=
  {| id := id c; slug := slug c; status := status c; views := views c;
     likes := n; likedBy := l;
     genres := genres c; tags := tags c; deletedAt := deletedAt c |}.

Definition set_deletedAt (c : t) (d : option Z) : t :=
  {| id := id c; slug := slug c; status := status c; views := views c;
     likes := likes c; likedBy := likedBy c;
     genres := genres c; tags := tags c; deletedAt := d |}.

(** [Array.prototype.includes] on an array of strings. *)
Definition includes (l : list string) (u : string) : bool :=
  bool_decide (u ∈ l).

(** [Array.prototype.indexOf]: the first index holding [u], or -1. *)
Fixpoint indexOf_from (k : Z) (l : list string) (u : string) : Z :=
  match l with
  | [] => -1
  | x :: r => if decide (x = u) then k else indexOf_from (k + 1) r u
  end.

Definition indexOf (l : list string) (u : string) : Z := indexOf_from 0 l u.

(** [l.splice(index, 1)] for an index inside the array. *)
Definition splice1 (l : list string) (index : Z) : list string :=
  take (Z.to_nat index) l ++ drop (S (Z.to_nat index)) l.

(** [ComicSchema.methods.like]. The boolean is the returned promise's
    value; the document is saved exactly when it is [true]. *)
Definition like (userId : string) (c : t) : t * bool :=
  if negb (includes (likedBy c) userId)
  then (set_likes c (likes c + 1) (likedBy c ++ [userId]), true)
  else (c, false).

(** [ComicSchema.methods.unlike]. *)
Definition unlike (userId : string) (c : t) : t * bool :=
  let index := indexOf (likedBy c) userId in
  if index >? -1
  then (set_likes c (likes c - 1) (splice1 (likedBy c) index), true)
  else (c, false).

(** [ComicSchema.methods.hasLiked]. *)
Definition hasLiked (userId : string) (c : t) : bool :=
  includes (likedBy c) userId.

(** A call of one of the two mutating methods. *)
Inductive call := Like (userId : string) | Unlike (userId : string).

Definition step (c : t) (k : call) : t :=
  match k with
  | Like u => fst (like u c)
  | Unlike u => fst (unlike u c)
  end.

(** The document after a finite sequence of calls, first call first. *)
Definition run (ks : list call) (c : t) : t := fold_left step ks c.

(** The valid states of the specification. *)
Definition valid (c : t) : Prop :=
  likes c = Z.of_nat (length (likedBy c)) ∧ NoDup (likedBy c).

End Comic.


(** ** Genre and Tag counters maintained by the Comic hooks
    (src/models/comic.model.ts, tag.model.ts, genre.model.ts,
    src/controllers/comic.controller.ts) *)

Module Counters.

(** The three collections.  [genreCount] and [tagCount] hold the
    [comicCount] field of the Genre and Tag documents, by ObjectId. *)
Record store := mkStore {
  comics : list Comic.t;
  genreCount : gmap string Z;
  tagCount : gmap string Z
}.

(** [statics.incrementCount] / [decrementCount] of Genre and Tag:
    [findByIdAndUpdate(id, { $inc: { comicCount: 1 } })], which changes
    nothing when no document has that id. *)
Definition incrementCount (id : string) (m : gmap string Z) : gmap string Z :=
  alter (λ n, n + 1) id m.

Definition decrementCount (id : string) (m : gmap string Z) : gmap string Z :=
  alter (λ n, n - 1) id m.

(** [ComicSchema.post('save')]: one increment per genre and per tag of the
    saved document. *)
Definition post_save (doc : Comic.t) (st : store) : store :=
  {| comics := comics st;
     genreCount := foldl (λ m g, incrementCount g m) (genreCount st) (Comic.genres doc);
     tagCount :=
       if (0 <? length (Comic.tags doc))%nat
       then foldl (λ m g, incrementCount g m) (tagCount st) (Comic.tags doc)
       else tagCount st |}.

(** Writing a document: it replaces the stored document of the same [_id],
    or is inserted when there is none. *)
Definition persist (doc : Comic.t) (cs : list Comic.t) : list Comic.t :=
  if bool_decide (Comic.id doc ∈ map Comic.id cs)
  then map (λ c, if bool_decide (Comic.id c = Comic.id doc) then doc else c) cs
  else cs ++ [doc].

(** [doc.save()]: the write, then the post-save hook. *)
Definition save (doc : Comic.t) (st : store) : store :=
  post_save doc
    {| comics := persist doc (comics st);
       genreCount := genreCount st; tagCount := tagCount st |}.

(** [Comic.findById(id)] for an [id] that is an ObjectId, and
    [Comic.findOne({ slug })] for a slug in the form the schema casts it
    to; [ComicRoutes] has the two casts. *)
Definition findById (id : string) (st : store) : option Comic.t :=
  find (λ c, bool_decide (Comic.id c = id)) (comics st).

Definition findOneBySlug (slug : string) (st : store) : option Comic.t :=
  find (λ c, bool_decide (Comic.slug c = slug)) (comics st).

(** [Comic.findOneAndDelete({ _id: id })] with its pre hook: the hook
    decrements once per genre and tag of the document found, then the
    document is removed.  The hook is taken to reach its end, which needs
    the [next] it calls to be passed to it; where mongoose passes none,
    the call throws after the decrements and the document stays. *)
Definition findOneAndDelete (id : string) (st : store) : store :=
  match findById id st with
  | Some doc =>
      {| comics := filter (λ c, Comic.id c ≠ id) (comics st);
         genreCount := foldl (λ m g, decrementCount g m) (genreCount st) (Comic.genres doc);
         tagCount := foldl (λ m g, decrementCount g m) (tagCount st) (Comic.tags doc) |}
  | None => st
  end.

(** [ComicController.createComic]; the body carries the new document, with
    the ObjectId that [new Comic] gives it. *)
Definition createComic (comicData : Comic.t) (st : store) : response Comic.t * store :=
  match findOneBySlug (Comic.slug comicData) st with
  | Some _ => (Throw (BadRequestError "Slug already in use"), st)
  | None => (Return comicData, save comicData st)
  end.

(** [ComicController.likeComic]. *)
Definition likeComic (id userId : string) (st : store) : response (Z * bool) * store :=
  if bool_decide (userId = "") then
    (Throw (BadRequestError "User identifier is required"), st)
  else
    match findById id st with
    | None => (Throw (NotFoundError "comic not found"), st)
    | Some comic =>
        if bool_decide (Comic.status comic ≠ "published") then
          (Throw (ForbiddenError "Cannot like unpublished comic"), st)
        else
          let '(comic', liked) := Comic.like userId comic in
          (Return (Comic.likes comic', liked),
           if liked then save comic' st else st)
    end.

(** [ComicController.unlikeComic]. *)
Definition unlikeComic (id userId : string) (st : store) : response (Z * bool) * store :=
  if bool_decide (userId = "") then
    (Throw (BadRequestError "User identifier is required"), st)
  else
    match findById id st with
    | None => (Throw (NotFoundError "Comic not found"), st)
    | Some comic =>
        let '(comic', unliked) := Comic.unlike userId comic in
        (Return (Comic.likes comic', unliked),
         if unliked then save comic' st else st)
    end.

(** [ComicController.deleteComic]: the soft delete of the schema,
    [this.deletedAt = new Date(); await this.save()]. *)
Definition deleteComic (id : string) (now : Z) (st : store) : response unit * store :=
  match findById id st with
  | None => (Throw (NotFoundError "Comic not found"), st)
  | Some comic => (Return (), save (Comic.set_deletedAt comic (Some now)) st)
  end.

(** The number of stored comics, not soft-deleted, that reference a genre
    (respectively a tag). *)
Definition referencing (field : Comic.t → list string) (g : string) (st : store) : Z :=
  Z.of_nat (length (filter (λ c, Comic.deletedAt c = None ∧ g ∈ field c) (comics st))).

Definition comicCount (m : gmap string Z) (g : string) : Z := default 0 (m !! g).

(** The number of times [g] occurs in a list of references. *)
Definition occurrences (g : string) (gs : list string) : Z :=
  Z.of_nat (length (filter (λ h, h = g) gs)).

(** *** A scenario *)

(** One genre and one tag, no comic yet. *)
Definition empty_store : store :=
  {| comics := []; genreCount := {["g1" := 0]}; tagCount := {["t1" := 0]} |}.

Definition first_comic : Comic.t :=
  Comic.mk "c1" "first" "published" 0 0 [] ["g1"] ["t1"] None.

(** The store after the comic is created, after a reader then likes it,
    and after it is then soft-deleted. *)
Definition created : store := snd (createComic first_comic empty_store).
Definition liked : store := snd (likeComic "c1" "ann" created).
Definition deleted : store := snd (deleteComic "c1" 1700000000000 liked).

End Counters.

(** ** The analytics aggregator (AdminStatsController) *)

Module AdminStats.

(** What the period counts read of a Comic, BlogPost or EmailSubscriber
    document. *)
Record doc := mkDoc {
  createdAt : Z;
  status : string
}.

(** [model.countDocuments(filter)]. *)
Definition countDocuments (P : doc → bool) (docs : list doc) : Z :=
  Z.of_nat (length (filter (λ d, P d = true) docs)).

(** [(current - previous) / previous * 100], as the double arithmetic
    computes it. *)
Definition raw (current previous : Q) : Q :=
  Number.mul (Number.div (Number.sub current previous) previous) 100.

(** The expression bound to [trend] in [getComparativeStats] and in
    [getSubscriberGrowthStats]:
    [previous > 0
       ? parseFloat(((current - previous) / previous * 100).toFixed(1))
       : (current > 0 ? 100 : 0)]. *)
Definition trend (current previous : Q) : Q :=
  if Number.gtb previous 0
  then Number.toFixed1 (raw current previous)
  else if Number.gtb current 0 then 100%Q else 0%Q.

(** [getComparativeStats(model, currentStart, prevStart)], returning
    [{ total, trend }]. *)
Definition getComparativeStats (model : list doc) (currentStart prevStart : Z) : Z * Q :=
  let published d := bool_decide (status d = "published") in
  let total := countDocuments published model in
  let current :=
    countDocuments (λ d, (currentStart <=? createdAt d) && published d) model in
  let previous :=
    countDocuments
      (λ d, (prevStart <=? createdAt d) && (createdAt d <? currentStart) && published d)
      model in
  (total, trend (inject_Z current) (inject_Z previous)).

(** [new Date(x)] keeps the integer part of a time value. *)
Definition Date_of (x : Q) : Z :=
  if Number.geb x 0 then Qfloor x else Qceiling x.

(** [now.getTime() - days * 24 * 60 * 60 * 1000] as a Date. *)
Definition windowStart (now : Z) (days : Q) : Z :=
  Date_of
    (Number.sub (inject_Z now)
       (Number.mul (Number.mul (Number.mul (Number.mul days 24) 60) 60) 1000)).

(** [getSubscriberGrowthStats(days)], returning [{ total, trend, current }]. *)
Definition getSubscriberGrowthStats (subscribers : list doc) (now : Z) (days : Q) : Z * Q * Z :=
  let currentStart := windowStart now days in
  let prevStart := windowStart now (Number.mul days 2) in
  let total := countDocuments (λ _, true) subscribers in
  let currentPeriod := countDocuments (λ d, currentStart <=? createdAt d) subscribers in
  let prevPeriod :=
    countDocuments
      (λ d, (prevStart <=? createdAt d) && (createdAt d <? currentStart)) subscribers in
  (total, trend (inject_Z currentPeriod) (inject_Z prevPeriod), currentPeriod).

(** The formula of the specification, in exact arithmetic. *)
Definition trend_spec (current previous : Q) : Q :=
  if Number.gtb previous 0
  then ((current - previous) / previous * 100)%Q
  else if Number.gtb current 0 then 100%Q else 0%Q.

(** A store query, by the collection it reads. *)
Inductive query :=
| CountDocuments (collection : string)
| Aggregate (collection : string)
| Find (collection : string).

Section Overview.

Context {Data : Type}.

(** Everything [getOverview] does after its guard, from the window in days
    and the clock: the store queries it issues and the body it builds. *)
Variable statistics : Q → Z → list query * Data.

(** [getOverview(@QueryParam('days') days: number = 30)].  The argument is
    [None] when the request has no [days] parameter.  The result pairs the
    store queries issued with the handler's outcome. *)
Definition getOverview (days : option Q) (now : Z) : list query * response Data :=
  let days := default 30%Q days in
  if Number.gtb days 365 then
    ([], Throw (BadRequestError "Date range cannot exceed 365 days"))
  else
    let '(queries, body) := statistics days now in
    (queries, Return body).

End Overview.

End AdminStats.

(** ** The tag cloud (TagController.getTagCloud) *)

Module TagController.

Record Tag := mkTag {
  name : string;
  slug : string;
  comicCount : Z;
  type : string
}.

(** The two query parameters after [parseInt]; [None] stands for NaN (the
    parameter is absent or does not start with a number). *)
Record TagQueryParams := mkQuery {
  minCount : option Z;
  limit : option Z
}.

(** [parseInt(s) || d]: NaN and 0 are falsy. *)
Definition or_default (v : option Z) (d : Z) : Z :=
  match v with
  | Some n => if n =? 0 then d else n
  | None => d
  end.

(** The order of [.sort('-comicCount')]. *)
Definition by_count_desc (a b : Tag) : Prop := comicCount b ≤ comicCount a.

#[global] Instance by_count_desc_dec a b : Decision (by_count_desc a b).
Proof. unfold by_count_desc. apply _. Defined.

(** [Tag.find({ comicCount: { $gte: minCount } }).sort('-comicCount')
      .limit(limit)].  The server reads a negative limit as its absolute
    value.  Tags of equal count come in the order the sort leaves them. *)
Definition find_cloud (tags : list Tag) (minCount limit : Z) : list Tag :=
  take (Z.to_nat (Z.abs limit))
    (merge_sort by_count_desc (filter (λ t, minCount ≤ comicCount t) tags)).

Definition minFontSize : Z := 12.
Definition maxFontSize : Z := 32.

(** [tags[0]?.comicCount || 1]. *)
Definition maxCount_of (tags : list Tag) : Z :=
  match tags with
  | t :: _ => if comicCount t =? 0 then 1 else comicCount t
  | [] => 1
  end.

(** [maxCount - minCount > 0 ? (maxCount - minCount) : 1]. *)
Definition divisor (minCount maxCount : Z) : Z :=
  if maxCount - minCount >? 0 then maxCount - minCount else 1.

(** The local [fontSize] of the map callback. *)
Definition fontSize_raw (minCount maxCount count : Z) : Q :=
  Number.add (inject_Z minFontSize)
    (Number.mul
       (Number.div (inject_Z (count - minCount)) (inject_Z (divisor minCount maxCount)))
       (inject_Z (maxFontSize - minFontSize))).

(** The [fontSize] field of an entry of the cloud: [Math.round(fontSize)]. *)
Definition fontSize (minCount maxCount count : Z) : Z :=
  Number.Math_round (fontSize_raw minCount maxCount count).

(** [getTagCloud]: each tag of the result set with its [fontSize]. *)
Definition getTagCloud (store : list Tag) (query : TagQueryParams) : list (Tag * Z) :=
  let minCount := or_default (minCount query) 1 in
  let limit := or_default (limit query) 50 in
  let tags := find_cloud store minCount limit in
  let maxCount := maxCount_of tags in
  map (λ tag, (tag, fontSize minCount maxCount (comicCount tag))) tags.


(** *** Two small collections *)



End TagController.

(** ** JavaScript strings *)

Module JSString.

(** A string is the sequence of its UTF-16 code units, numbers below
    2^16.  The regular expressions of the code have no [u] flag and work
    on code units. *)
Definition t := list N.

(** The string of a literal, for literals of code units below 256. *)
Definition of_string (s : string) : t := map N_of_ascii (list_ascii_of_string s).

Definition in_range (lo hi c : N) : bool := ((lo <=? c) && (c <=? hi))%N.

(** [\w]: the letters A to Z and a to z, the digits and the underscore. *)
Definition is_word (c : N) : bool :=
  in_range 48 57 c || in_range 65 90 c || (c =? 95)%N || in_range 97 122 c.

(** [\s], also the white space of [trim]: the WhiteSpace and LineTerminator
    code points of the language, which are TAB, LF, VT, FF, CR, the space,
    the no-break space, U+1680, U+2000 to U+200A, U+2028, U+2029, U+202F,
    U+205F, U+3000 and U+FEFF. *)
Definition is_space (c : N) : bool :=
  in_range 9 13 c || (c =? 32)%N || (c =? 160)%N || (c =? 5760)%N
  || in_range 8192 8202 c || (c =? 8232)%N || (c =? 8233)%N || (c =? 8239)%N
  || (c =? 8287)%N || (c =? 12288)%N || (c =? 65279)%N.

Definition hyphen : N := 45.

Definition is_hyphen (c : N) : bool := (c =? 45)%N.

(** The letters A to Z. *)
Definition is_capital (c : N) : bool := in_range 65 90 c.

Definition is_ascii (c : N) : bool := (c <? 128)%N.

(** What the properties use of [String.prototype.toLowerCase], which
    follows the case mappings of Unicode and is not written out here: its
    result holds none of the letters A to Z, and a string of ASCII code
    units without these letters is left as it is. *)
Definition lowercases (toLowerCase : t → t) : Prop :=
  (∀ s c, c ∈ toLowerCase s → is_capital c = false)
  ∧ (∀ s, Forall (λ c, is_ascii c = true ∧ is_capital c = false) s → toLowerCase s = s).

(** [toLowerCase] as it acts on strings of ASCII code units: the letters
    A to Z become a to z.  On other strings it is not [toLowerCase]; it is
    one function with the two properties of [lowercases], and the
    examples apply it to ASCII strings. *)
Definition lower_ascii (s : t) : t :=
  map (λ c, if is_capital c then (c + 32)%N else c) s.

End JSString.

(** ** Slugs of blog posts (generateUniqueSlug, blog controller) *)

Module Blog.

Import JSString.

(** [.replace(/[^\w\s-]/g, '')]. *)
Fixpoint strip (s : t) : t :=
  match s with
  | [] => []
  | c :: r =>
      if is_word c || is_space c || is_hyphen c
      then c :: strip r else strip r
  end.

(** [.replace(/\s+/g, '-')]: every maximal run of white space becomes one
    hyphen.  [inside] tells that the previous code unit was white space. *)
Fixpoint spaces_to_hyphen (inside : bool) (s : t) : t :=
  match s with
  | [] => []
  | c :: r =>
      if is_space c
      then if inside then spaces_to_hyphen true r else hyphen :: spaces_to_hyphen true r
      else c :: spaces_to_hyphen false r
  end.

(** [.replace(/--+/g, '-')]: a run of two or more hyphens becomes one, a
    single hyphen stays.  [inside] tells that the previous code unit was
    a hyphen. *)
Fixpoint collapse_hyphens (inside : bool) (s : t) : t :=
  match s with
  | [] => []
  | c :: r =>
      if is_hyphen c
      then if inside then collapse_hyphens true r else hyphen :: collapse_hyphens true r
      else c :: collapse_hyphens false r
  end.

Fixpoint trimStart (s : t) : t :=
  match s with
  | [] => []
  | c :: r => if is_space c then trimStart r else s
  end.

Definition trimEnd (s : t) : t := reverse (trimStart (reverse s)).

Definition trim (s : t) : t := trimEnd (trimStart s).

Record BlogPost := mkPost {
  slug : t;
  title : t
}.

(** The template [`${baseSlug}-${counter}`]. *)
Definition candidate (base : t) (counter : N) : t :=
  base ++ hyphen :: of_string (pretty counter).

(** The slugs the loop tries, in order: the base slug, then the base slug
    with the suffixes -1, -2, ... *)
Definition nth_candidate (base : t) (k : nat) : t :=
  match k with
  | O => base
  | S _ => candidate base (N.of_nat k)
  end.

Section ToLowerCase.

(** [String.prototype.toLowerCase]. *)
Variable toLowerCase : t → t.

(** The [baseSlug] of a title. *)
Definition baseSlug (title : t) : t :=
  trim (collapse_hyphens false (spaces_to_hyphen false (strip (toLowerCase title)))).

(** [BlogPost.findOne({ slug })].  The schema path has [lowercase: true]:
    mongoose casts the slug of the filter with it, as it casts the slug of
    a document that is stored. *)
Definition findOne (posts : list BlogPost) (s : t) : option BlogPost :=
  find (λ p, bool_decide (slug p = toLowerCase s)) posts.

(** The [while] loop; [fuel] bounds the number of times its body runs, and
    [None] tells that the bound was reached. *)
Fixpoint probe (fuel : nat) (posts : list BlogPost) (base slug : t) (counter : N)
  : option t :=
  match findOne posts slug with
  | None => Some slug
  | Some _ =>
      match fuel with
      | O => None
      | S fuel => probe fuel posts base (candidate base counter) (counter + 1)%N
      end
  end.

Definition generateUniqueSlug (fuel : nat) (posts : list BlogPost) (title : t)
  : option t :=
  probe fuel posts (baseSlug title) (baseSlug title) 1%N.

(** No stored post carries the slug. *)
Definition free (posts : list BlogPost) (s : t) : Prop := findOne posts s = None.

End ToLowerCase.

(** *** The notions the properties of a slug are stated with *)

(** The code units a slug is made of: digits, the letters a to z, the
    underscore and the hyphen. *)
Definition slug_unit (c : N) : bool :=
  in_range 48 57 c || in_range 97 122 c || (c =? 95)%N || is_hyphen c.

(** No two hyphens in a row. *)
Fixpoint single_hyphens (s : t) : bool :=
  match s with
  | c :: ((d :: _) as r) => negb (is_hyphen c && is_hyphen d) && single_hyphens r
  | _ => true
  end.

(** Every maximal run of white space and hyphens becomes one hyphen, in
    one pass.  [inside] tells that the previous code unit was white space
    or a hyphen. *)
Fixpoint join_runs (inside : bool) (s : t) : t :=
  match s with
  | [] => []
  | c :: r =>
      if is_space c || is_hyphen c
      then if inside then join_runs true r else hyphen :: join_runs true r
      else c :: join_runs false r
  end.

End Blog.

(** ** Login and lockout (user.model.ts, user.controller.ts) *)

Module User.

Record t := mk {
  email : string;
  password : string;
  emailVerified : bool;
  loginAttempts : Z;
  lockUntil : option Z
}.

Definition set_lock (u : t) (attempts : Z) (lock : option Z) : t :=
  {| email := email u; password := password u; emailVerified := emailVerified u;
     loginAttempts := attempts; lockUntil := lock |}.

(** The readings of the system clock during one [login], in the order the
    code takes them: [new Date()] in [isLocked], [new Date()] in
    [incrementLoginAttempts], and [Date.now()] for the new lock. *)
Record clock := mkClock {
  at_isLocked : Z;
  at_expiry : Z;
  at_lock : Z
}.

(** The threshold and the duration that [incrementLoginAttempts] writes
    out: five attempts, fifteen minutes. *)
Definition lockThreshold : Z := 5.
Definition lockDuration : Z := 15 * 60 * 1000.

(** [methods.isLocked]: [!!(this.lockUntil && this.lockUntil > new Date())]. *)
Definition isLocked (u : t) (now : Z) : bool :=
  match lockUntil u with
  | Some until => until >? now
  | None => false
  end.

(** [methods.resetLoginAttempts]. *)
Definition resetLoginAttempts (u : t) : t := set_lock u 0 None.

(** [methods.incrementLoginAttempts]. *)
Definition incrementLoginAttempts (u : t) (clk : clock) : t :=
  if match lockUntil u with
     | Some until => until <? at_expiry clk
     | None => false
     end
  then resetLoginAttempts u
  else
    set_lock u (loginAttempts u + 1)
      (if loginAttempts u + 1 >=? 5
       then Some (at_lock clk + 15 * 60 * 1000)
       else lockUntil u).

Section Login.

(** [bcrypt.compare(candidate, hash)]. *)
Variable compare : string → string → bool.

(** [UserController.login] from the user found on; the stored user after
    the request comes with the outcome. *)
Definition login_user (u : t) (candidate : string) (clk : clock) : response string * t :=
  if isLocked u (at_isLocked clk) then
    (Throw (ForbiddenError "Account is temporarily locked. Try again later."), u)
  else if negb (compare candidate (password u)) then
    (Throw (BadRequestError "Invalid credentials"), incrementLoginAttempts u clk)
  else if negb (emailVerified u) then
    (Throw (ForbiddenError "Please verify your email before logging in"), u)
  else
    (Return "Login successful", resetLoginAttempts u).

(** The cast that mongoose applies to the [email] of a filter before the
    query runs: the setters of the schema path, [lowercase: true] and
    [trim: true]. *)
Variable castEmail : string → string.

(** [UserController.login] on the collection, keyed by the stored email:
    [User.findOne({ email })] looks for the address after the cast. *)
Definition login (users : gmap string t) (mail candidate : string) (clk : clock)
  : response string * gmap string t :=
  match users !! castEmail mail with
  | None => (Throw (BadRequestError "Invalid credentials"), users)
  | Some u =>
      let '(r, u') := login_user u candidate clk in
      (r, <[castEmail mail := u']> users)
  end.

(** Consecutive requests for one user, each with its candidate password
    and clock readings; the outcomes come first request first. *)
Fixpoint logins (u : t) (reqs : list (string * clock)) : list (response string) * t :=
  match reqs with
  | [] => ([], u)
  | (candidate, clk) :: reqs =>
      let '(r, u') := login_user u candidate clk in
      let '(rs, u'') := logins u' reqs in
      (r :: rs, u'')
  end.

(** Every request of the list carries a wrong password for [u]. *)
Definition all_wrong (u : t) (reqs : list (string * clock)) : Prop :=
  Forall (λ r, compare r.1 (password u) = false) reqs.

End Login.

(** The two outcomes of a refused login. *)
Definition invalid : response string := Throw (BadRequestError "Invalid credentials").

Definition locked_out : response string :=
  Throw (ForbiddenError "Account is temporarily locked. Try again later.").

End User.

(** ** Ratings of a comic (ComicSchema.methods.updateRating) *)

Module Rating.

(** The two fields of [IComic] that [updateRating] reads and writes. *)
Record t := mk {
  averageRating : Q;
  ratingCount : Z
}.

(** [updateRating(newRating)]:
    [totalRating = averageRating * ratingCount; ratingCount += 1;
     averageRating = (totalRating + newRating) / ratingCount]. *)
Definition updateRating (newRating : Q) (c : t) : t :=
  let totalRating := Number.mul (averageRating c) (inject_Z (ratingCount c)) in
  let count := ratingCount c + 1 in
  {| averageRating := Number.div (Number.add totalRating newRating) (inject_Z count);
     ratingCount := count |}.

(** Successive ratings, first rating first. *)
Definition rate_all (ratings : list Q) (c : t) : t :=
  fold_left (λ c r, updateRating r c) ratings c.

(** A rating, or an average, on the scale of the schema (min 0, max 5). *)
Definition on_scale (r : Q) : Prop := (0 <= r)%Q ∧ (r <= 5)%Q.

End Rating.

(** ** More of the analytics aggregator *)

Module AdminTrends.

(** The [growth] field of [getComicStats] and [getBlogStats]:
    [growth = prevPeriod > 0
        ? ((currentPeriod - prevPeriod) / prevPeriod * 100)
        : (currentPeriod > 0 ? 100 : 0)]
    and then [parseFloat(growth.toFixed(1))]. *)
Definition growth (currentPeriod prevPeriod : Q) : Q :=
  let growth :=
    if Number.gtb prevPeriod 0
    then Number.mul (Number.div (Number.sub currentPeriod prevPeriod) prevPeriod) 100
    else if Number.gtb currentPeriod 0 then 100%Q else 0%Q in
  Number.toFixed1 growth.

(** A relative index of [Array.prototype.slice]: negative indices count
    from the end, and the result is clamped to the array. *)
Definition relative_index (len i : Z) : Z :=
  if i <? 0 then Z.max (len + i) 0 else Z.min i len.

(** [l.slice(start, end)]; [end] is [None] when the argument is left out. *)
Definition slice {A : Type} (l : list A) (start : Z) (end_ : option Z) : list A :=
  let len := Z.of_nat (length l) in
  let k := relative_index len start in
  let final :=
    match end_ with
    | Some e => relative_index len e
    | None => len
    end in
  take (Z.to_nat (final - k)) (drop (Z.to_nat k) l).

(** [period.reduce((sum, day) => sum + day.value, 0)]. *)
Definition total (period : list (string * Z)) : Z :=
  foldl (λ sum day, sum + day.2) 0 period.

(** [total / period.length]; [None] stands for NaN, the value of [0 / 0]
    for an empty period. *)
Definition average (period : list (string * Z)) : option Q :=
  match period with
  | [] => None
  | _ => Some (Number.div (inject_Z (total period)) (inject_Z (Z.of_nat (length period))))
  end.

(** [calculateTrendFromDailyData(dailyData)], on entries [{ date, value }].
    The result is [None] for NaN.  A comparison with NaN is false. *)
Definition calculateTrendFromDailyData (dailyData : list (string * Z)) : option Q :=
  if (length dailyData <? 2)%nat then Some 0%Q
  else
    let recentPeriod := slice dailyData (-7) None in
    let previousPeriod := slice dailyData (-14) (Some (-7)) in
    let recentAvg := average recentPeriod in
    let previousAvg := average previousPeriod in
    let recent_positive :=
      match recentAvg with
      | Some r => Number.gtb r 0
      | None => false
      end in
    match previousAvg with
    | Some p =>
        if Number.gtb p 0 then
          match recentAvg with
          | Some r => Some (Number.toFixed1 (Number.mul (Number.div (Number.sub r p) p) 100))
          | None => None
          end
        else Some (if recent_positive then 100%Q else 0%Q)
    | None => Some (if recent_positive then 100%Q else 0%Q)
    end.

(** [peakHour % 12 || 12] and the label of [calculatePeakEngagementHour],
    [`${displayHour}:00 ${ampm}`], for the hours 0 to 23 that [$hour]
    gives. *)
Definition displayHour (peakHour : Z) : Z :=
  if peakHour mod 12 =? 0 then 12 else peakHour mod 12.

Definition label (peakHour : Z) : string :=
  pretty (displayHour peakHour) +:+ ":00 " +:+ (if peakHour >=? 12 then "PM" else "AM").

(** The part of [calculatePeakEngagementHour] after the two aggregations.
    Each argument is the first row of an aggregation's result, the hour
    [_id] with its [totalEngagement], or [None] for an empty result.  The
    outcome is [{ hour, label, activity }], or [None] for [null]. *)
Definition peak (comicResult blogResult : option (Z * Z)) : option (Z * string * Z) :=
  let '(peakHour, maxEngagement) :=
    match comicResult with
    | Some (hour, engagement) => if engagement >? 0 then (hour, engagement) else (0, 0)
    | None => (0, 0)
    end in
  let '(peakHour, maxEngagement) :=
    match blogResult with
    | Some (hour, engagement) =>
        if engagement >? maxEngagement then (hour, engagement) else (peakHour, maxEngagement)
    | None => (peakHour, maxEngagement)
    end in
  if maxEngagement =? 0 then None
  else Some (peakHour, label peakHour, maxEngagement).

(** The values [$hour] can take. *)
Definition hours : list Z := map Z.of_nat (seq 0 24).

End AdminTrends.

(** ** Reading time and pages of blog posts
    (blogPost.model.ts, BlogController.getBlogPosts) *)

Module BlogPages.

(** [Math.ceil]. *)
Definition Math_ceil (x : Q) : Z := Qceiling x.

(** [content.split(/\s+/).filter(Boolean).length]: the number of maximal
    runs of code units that are not white space.  [inside] tells that the
    previous code unit was in such a run. *)
Fixpoint count_words (inside : bool) (s : JSString.t) : Z :=
  match s with
  | [] => 0
  | c :: r =>
      if JSString.is_space c then count_words false r
      else (if inside then 0 else 1) + count_words true r
  end.

Definition words (content : JSString.t) : Z := count_words false content.

(** The pre-save hook: [readingTime = Math.ceil(words / 200)]. *)
Definition readingTime (content : JSString.t) : Z :=
  Math_ceil (Number.div (inject_Z (words content)) 200).

(** [find(query).sort(sort).skip((pageNum - 1) * limitNum).limit(limitNum)]
    on the sorted list of the matching posts, for [pageNum] and [limitNum]
    of at least 1. *)
Definition page_of {A : Type} (matching : list A) (pageNum limitNum : Z) : list A :=
  take (Z.to_nat limitNum) (drop (Z.to_nat ((pageNum - 1) * limitNum)) matching).

(** [pagination.pages = Math.ceil(total / limitNum)]. *)
Definition pages (total limitNum : Z) : Z :=
  Math_ceil (Number.div (inject_Z total) (inject_Z limitNum)).

(** [content.split(/\s+/).length] in [getBlogStats]: one piece more than
    there are maximal runs of white space; no piece is dropped, the empty
    ones at the two ends count.  [in_space] tells that the previous code
    unit was white space. *)
Fixpoint space_runs (in_space : bool) (s : JSString.t) : Z :=
  match s with
  | [] => 0
  | c :: r =>
      if JSString.is_space c then (if in_space then 0 else 1) + space_runs true r
      else space_runs false r
  end.

Definition wordCount (content : JSString.t) : Z := 1 + space_runs false content.

(** [estimatedReadTime = Math.ceil(wordCount / 200)]. *)
Definition estimatedReadTime (content : JSString.t) : Z :=
  Math_ceil (Number.div (inject_Z (wordCount content)) 200).

(** The last code unit is white space; [prev] for the empty string. *)
Fixpoint ends_space (prev : bool) (s : JSString.t) : bool :=
  match s with
  | [] => prev
  | c :: r => ends_space (JSString.is_space c) r
  end.

Definition starts_space (s : JSString.t) : bool :=
  match s with
  | [] => false
  | c :: _ => JSString.is_space c
  end.

End BlogPages.

(** ** Slugs of tags and genres (the pre-save hooks of tag.model.ts and
    genre.model.ts) *)

Module TagSlug.

Import JSString.

(** [name.toLowerCase().replace(/[^\w\s-]/g, '').replace(/\s+/g, '-')
       .replace(/--+/g, '-')], the value the hook assigns to [this.slug]. *)
Definition slug_of (toLowerCase : t → t) (name : t) : t :=
  Blog.collapse_hyphens false (Blog.spaces_to_hyphen false (Blog.strip (toLowerCase name))).

End TagSlug.

(** ** Bookmarks, likes and reading history of a user (user.model.ts) *)

Module Shelf.

Record HistoryItem := mkItem {
  contentId : string;
  contentType : string;
  progress : Q;
  lastPage : option Z;
  lastReadAt : Z
}.

(** The list fields of a user that the methods below update. *)
Record t := mk {
  bookmarkedComics : list string;
  bookmarkedBlogs : list string;
  likedComics : list string;
  likedBlogs : list string;
  readingHistory : list HistoryItem
}.

(** [{ $pull: { [field]: contentId } }]: every occurrence goes. *)
Definition pull (contentId : string) (field : list string) : list string :=
  filter (λ x, x ≠ contentId) field.

(** [{ $addToSet: { [field]: contentId } }]. *)
Definition addToSet (contentId : string) (field : list string) : list string :=
  if bool_decide (contentId ∈ field) then field else field ++ [contentId].

(** The two methods that toggle, and the field each one picks:
    [contentType === 'comic' ? 'bookmarkedComics' : 'bookmarkedBlogs'], and
    the same with [likedComics] and [likedBlogs]. *)
Inductive method := ToggleBookmark | ToggleLike.

Definition field (m : method) (contentType : string) (u : t) : list string :=
  match m with
  | ToggleBookmark =>
      if bool_decide (contentType = "comic") then bookmarkedComics u else bookmarkedBlogs u
  | ToggleLike =>
      if bool_decide (contentType = "comic") then likedComics u else likedBlogs u
  end.

Definition set_field (m : method) (contentType : string) (l : list string) (u : t) : t :=
  match m with
  | ToggleBookmark =>
      if bool_decide (contentType = "comic")
      then {| bookmarkedComics := l; bookmarkedBlogs := bookmarkedBlogs u;
              likedComics := likedComics u; likedBlogs := likedBlogs u;
              readingHistory := readingHistory u |}
      else {| bookmarkedComics := bookmarkedComics u; bookmarkedBlogs := l;
              likedComics := likedComics u; likedBlogs := likedBlogs u;
              readingHistory := readingHistory u |}
  | ToggleLike =>
      if bool_decide (contentType = "comic")
      then {| bookmarkedComics := bookmarkedComics u; bookmarkedBlogs := bookmarkedBlogs u;
              likedComics := l; likedBlogs := likedBlogs u;
              readingHistory := readingHistory u |}
      else {| bookmarkedComics := bookmarkedComics u; bookmarkedBlogs := bookmarkedBlogs u;
              likedComics := likedComics u; likedBlogs := l;
              readingHistory := readingHistory u |}
  end.

(** The body of [toggleBookmark] and of [toggleLike].  [this] is the
    document the method is called on and [stored] the user in the
    collection: [includes] reads the array of the document, and
    [this.updateOne] writes to the collection and leaves the document as
    it was loaded.  The result is the user in the collection after the
    call, with the returned boolean. *)
Definition toggle (m : method) (contentId contentType : string) (this stored : t) : t * bool :=
  if Comic.includes (field m contentType this) contentId
  then (set_field m contentType (pull contentId (field m contentType stored)) stored, false)
  else (set_field m contentType (addToSet contentId (field m contentType stored)) stored, true).

(** [methods.toggleBookmark]. *)
Definition toggleBookmark (contentId contentType : string) (this stored : t) : t * bool :=
  toggle ToggleBookmark contentId contentType this stored.

(** [methods.toggleLike]. *)
Definition toggleLike (contentId contentType : string) (this stored : t) : t * bool :=
  toggle ToggleLike contentId contentType this stored.

(** An entry of the history is about the given content. *)
Definition about (contentId contentType : string) (h : HistoryItem) : Prop :=
  Shelf.contentId h = contentId ∧ Shelf.contentType h = contentType.

(** The two updates of [methods.addToReadingHistory] on the stored array:
    [$pull] of the entries about the content, then [$push] of the new item
    with [$position: 0] and [$slice: 50]. *)
Definition push_history (item : HistoryItem) (history : list HistoryItem) : list HistoryItem :=
  take 50 (item :: filter (λ h, ¬ about (contentId item) (contentType item) h) history).

(** [methods.addToReadingHistory(contentId, contentType, progress, lastPage)]
    at the clock reading [now]; [progress] is [None] when the argument is
    left out, and defaults to 0. *)
Definition addToReadingHistory (contentId contentType : string) (progress : option Q)
    (lastPage : option Z) (now : Z) (u : t) : t :=
  let historyItem :=
    {| contentId := contentId; contentType := contentType;
       progress := default 0%Q progress; lastPage := lastPage; lastReadAt := now |} in
  {| bookmarkedComics := bookmarkedComics u; bookmarkedBlogs := bookmarkedBlogs u;
     likedComics := likedComics u; likedBlogs := likedBlogs u;
     readingHistory := push_history historyItem (readingHistory u) |}.

(** The contents of a history, entry by entry. *)
Definition keys (history : list HistoryItem) : list (string * string) :=
  map (λ h, (contentId h, contentType h)) history.

End Shelf.

(** ** Daily engagement and retention (AdminStatsController) *)

Module DailyEngagement.

(** A row of the aggregation: the day [_id] with its sums. *)
Record Row := mkRow {
  row_id : string;
  row_likes : Z;
  row_views : Z
}.

(** An entry of [dailyMap]. *)
Record Day := mkDay {
  date : string;
  likes : Z;
  views : Z
}.

(** An entry of the result. *)
Record Trend := mkTrend {
  trend_date : string;
  trend_likes : Z;
  trend_views : Z;
  shares : Z;
  saves : Z
}.

(** The body of the [forEach] in [mergeData].  [dailyMap] is an object
    with the days as keys: its entries are kept in the order the keys were
    added, one entry per key.  The sums of a row are numbers, so
    [item.likes || 0] is [item.likes]. *)
Definition merge_item (dailyMap : list Day) (item : Row) : list Day :=
  let dailyMap :=
    if bool_decide (row_id item ∈ map date dailyMap) then dailyMap
    else dailyMap ++ [mkDay (row_id item) 0 0] in
  map (λ d, if bool_decide (date d = row_id item)
            then mkDay (date d) (likes d + row_likes item) (views d + row_views item)
            else d) dailyMap.

Definition mergeData (data : list Row) (dailyMap : list Day) : list Day :=
  fold_left merge_item data dailyMap.

(** [getDailyEngagementTrends] from the two aggregation results:
    [mergeData(comicData); mergeData(blogData);
     Object.values(dailyMap).map(...)]. *)
Definition getDailyEngagementTrends (comicData blogData : list Row) : list Trend :=
  map (λ day, mkTrend (date day) (likes day) (views day) 0 0)
    (mergeData blogData (mergeData comicData [])).

(** The sum of a field over the entries of [dailyMap] for one day, and
    over the rows of one day. *)
Definition at_day (f : Day → Z) (d : string) (dailyMap : list Day) : Z :=
  foldr (λ e acc, (if bool_decide (date e = d) then f e else 0) + acc) 0 dailyMap.

Definition on_day (f : Row → Z) (d : string) (data : list Row) : Z :=
  foldr (λ r acc, (if bool_decide (row_id r = d) then f r else 0) + acc) 0 data.

End DailyEngagement.

Module Retention.

(** What [calculateUserRetention] reads of a user. *)
Record user := mkUser {
  lastActive : Z;
  createdAt : Z
}.

Definition countDocuments (P : user → bool) (users : list user) : Z :=
  Z.of_nat (length (filter (λ u, P u = true) users)).

(** The outcome of [calculateUserRetention]; the two rates are the numbers
    that the answer then prints with a percent sign. *)
Record t := mk {
  retentionRate : Q;
  churnRate : Q;
  activeUsers : Z;
  returningUsers : Z
}.

(** [calculateUserRetention()]; [now1] and [now2] are the two readings of
    [Date.now()]. *)
Definition calculateUserRetention (users : list user) (now1 now2 : Z) : t :=
  let sevenDaysAgo := now1 - 7 * 24 * 60 * 60 * 1000 in
  let fourteenDaysAgo := now2 - 14 * 24 * 60 * 60 * 1000 in
  let activeUsers := countDocuments (λ u, sevenDaysAgo <=? lastActive u) users in
  let returningUsers :=
    countDocuments
      (λ u, (sevenDaysAgo <=? lastActive u) && (createdAt u <? fourteenDaysAgo)) users in
  let totalUsers := countDocuments (λ u, createdAt u <? fourteenDaysAgo) users in
  let ratio := Number.div (inject_Z returningUsers) (inject_Z totalUsers) in
  {| retentionRate :=
       if totalUsers >? 0 then Number.toFixed1 (Number.mul ratio 100) else 0%Q;
     churnRate :=
       if totalUsers >? 0
       then Number.toFixed1 (Number.mul (Number.sub 1 ratio) 100) else 0%Q;
     activeUsers := activeUsers;
     returningUsers := returningUsers |}.

End Retention.

(** ** Deleting a tag (TagController.deleteTag) *)

Module TagAdmin.

(** A handler of the tag controller returns or throws a plain [Error]. *)
Inductive outcome :=
| Done
| Error (message : string).

(** [Comic.countDocuments({ tags: tag._id })]: every stored comic counts,
    archived or not. *)
Definition countDocuments (id : string) (st : Counters.store) : Z :=
  Z.of_nat (length (filter (λ c, id ∈ Comic.tags c) (Counters.comics st))).

(** [deleteTag(id)].  The Tag collection is the domain of [tagCount]. *)
Definition deleteTag (id : string) (st : Counters.store) : outcome * Counters.store :=
  match Counters.tagCount st !! id with
  | None => (Error ("Tag not found with id: " +:+ id), st)
  | Some _ =>
      let comicCount := countDocuments id st in
      if comicCount >? 0 then
        (Error ("Cannot delete tag with " +:+ pretty comicCount
                +:+ " comics. Remove tag from comics first."), st)
      else
        (Done,
         {| Counters.comics := Counters.comics st;
            Counters.genreCount := Counters.genreCount st;
            Counters.tagCount := delete id (Counters.tagCount st) |})
  end.

(** Every tag that a stored comic carries is a document of the Tag
    collection. *)
Definition tags_exist (st : Counters.store) : Prop :=
  ∀ c t, c ∈ Counters.comics st → t ∈ Comic.tags c → is_Some (Counters.tagCount st !! t).

End TagAdmin.

(** ** The light colour of a genre (the [colorLight] virtual of
    genre.model.ts) *)

Module Genre.

(** One channel of [colorLight]: [Math.round(r + (255 - r) * 0.9)], for
    the value [r] that [parseInt] reads from two hexadecimal digits. *)
Definition lighten (r : Z) : Z :=
  Number.Math_round
    (Number.add (inject_Z r)
       (Number.mul (Number.sub 255 (inject_Z r)) (Number.binary64 (9 # 10)))).

(** The values of two hexadecimal digits. *)
Definition channels : list Z := map Z.of_nat (seq 0 256).

End Genre.

(** ** The comic handlers on any request (comic.controller.ts)

    [Counters] has the handlers on requests whose [id] is an ObjectId and
    whose slug is in the form the schema casts it to.  Here they are with
    the casts. *)

Module ComicRoutes.

(** What a handler throws: an error of the HTTP layer, the CastError of
    mongoose for an [_id] that is no ObjectId, or the BSONError of
    [new mongoose.Types.ObjectId(id)] for such a string. *)
Inductive failure :=
| Http (e : HttpError)
| CastError (value : string)
| BSONError (value : string).

(** The status [AppErrorHandler] answers with, [err.httpCode || 500]. *)
Definition status (f : failure) : Z :=
  match f with
  | Http e => httpCode e
  | CastError _ => 500
  | BSONError _ => 500
  end.

Inductive answer (A : Type) :=
| Returned (body : A)
| Thrown (f : failure).
Arguments Returned {A} body.
Arguments Thrown {A} f.

Definition set_slug (c : Comic.t) (s : string) : Comic.t :=
  {| Comic.id := Comic.id c; Comic.slug := s; Comic.status := Comic.status c;
     Comic.views := Comic.views c; Comic.likes := Comic.likes c;
     Comic.likedBy := Comic.likedBy c; Comic.genres := Comic.genres c;
     Comic.tags := Comic.tags c; Comic.deletedAt := Comic.deletedAt c |}.

Section Casts.

(** The strings that [new ObjectId(value)] accepts; mongoose casts the
    [_id] of a filter with it. *)
Variable isObjectId : string → bool.

(** The cast of the schema path [slug], [lowercase: true]: mongoose
    applies it to the [slug] of a filter and to the [slug] of a new
    document. *)
Variable castSlug : string → string.

(** [Comic.findById(id)]: the cast of [id], then the lookup. *)
Definition findById (id : string) (st : Counters.store) : failure + option Comic.t :=
  if isObjectId id then inr (Counters.findById id st) else inl (CastError id).

(** [ComicController.likeComic]. *)
Definition likeComic (id userId : string) (st : Counters.store)
  : answer (Z * bool) * Counters.store :=
  if bool_decide (userId = "") then
    (Thrown (Http (BadRequestError "User identifier is required")), st)
  else
    match findById id st with
    | inl f => (Thrown f, st)
    | inr None => (Thrown (Http (NotFoundError "comic not found")), st)
    | inr (Some comic) =>
        if bool_decide (Comic.status comic ≠ "published") then
          (Thrown (Http (ForbiddenError "Cannot like unpublished comic")), st)
        else
          let '(comic', liked) := Comic.like userId comic in
          (Returned (Comic.likes comic', liked),
           if liked then Counters.save comic' st else st)
    end.

(** [ComicController.unlikeComic]. *)
Definition unlikeComic (id userId : string) (st : Counters.store)
  : answer (Z * bool) * Counters.store :=
  if bool_decide (userId = "") then
    (Thrown (Http (BadRequestError "User identifier is required")), st)
  else
    match findById id st with
    | inl f => (Thrown f, st)
    | inr None => (Thrown (Http (NotFoundError "Comic not found")), st)
    | inr (Some comic) =>
        let '(comic', unliked) := Comic.unlike userId comic in
        (Returned (Comic.likes comic', unliked),
         if unliked then Counters.save comic' st else st)
    end.

(** The first string of a list that [new ObjectId] refuses. *)
Definition first_refused (ids : list string) : option string :=
  find (λ id, negb (isObjectId id)) ids.

(** [ComicController.createComic] for a request that carries a slug.  The
    body is the new document, with the ObjectId that [new Comic] gives it
    and with its slug as the schema casts it. *)
Definition createComic (comicData : Comic.t) (st : Counters.store)
  : answer Comic.t * Counters.store :=
  match Counters.findOneBySlug (castSlug (Comic.slug comicData)) st with
  | Some _ => (Thrown (Http (BadRequestError "Slug already in use")), st)
  | None =>
      match first_refused (Comic.genres comicData ++ Comic.tags comicData) with
      | Some id => (Thrown (BSONError id), st)
      | None =>
          let comic := set_slug comicData (castSlug (Comic.slug comicData)) in
          (Returned comic, Counters.save comic st)
      end
  end.

End Casts.

End ComicRoutes.

(** * Part 2: the properties *)

(** ** The like / unlike tracker *)

Module LikeProps.

Import Comic.

(** *** Array helpers *)

Lemma indexOf_from_absent k l u : u ∉ l → indexOf_from k l u = -1.
Proof.
  revert k. induction l as [|x r IH]; intros k Hn; simpl; [done|].
  apply not_elem_of_cons in Hn as [Hne Hr].
  destruct (decide (x = u)); [congruence | by apply IH].
Qed.

Lemma indexOf_from_present k l u :
  u ∈ l →
  ∃ i : nat, indexOf_from k l u = k + Z.of_nat i ∧ l !! i = Some u
             ∧ u ∉ take i l.
Proof.
  revert k. induction l as [|x r IH]; intros k Hin; simpl.
  - by apply elem_of_nil in Hin.
  - destruct (decide (x = u)) as [->|Hne].
    + exists 0%nat. split; [lia|]. split; [done|]. simpl. apply not_elem_of_nil.
    + apply elem_of_cons in Hin as [->|Hin]; [done|].
      destruct (IH (k + 1) Hin) as (i & Hi & Hl & Ht).
      exists (S i). split; [lia|]. split; [done|].
      simpl. apply not_elem_of_cons. split; [congruence | done].
Qed.

Lemma indexOf_found l u : indexOf l u > -1 ↔ u ∈ l.
Proof.
  unfold indexOf. split.
  - intros H. destruct (decide (u ∈ l)) as [|Hn]; [done|].
    rewrite (indexOf_from_absent 0 l u Hn) in H. lia.
  - intros H. destruct (indexOf_from_present 0 l u H) as (i & -> & _). lia.
Qed.

Lemma splice1_indexOf l u :
  u ∈ l →
  ∃ i : nat, indexOf l u = Z.of_nat i ∧ l !! i = Some u
             ∧ splice1 l (indexOf l u) = delete i l.
Proof.
  intros H. destruct (indexOf_from_present 0 l u H) as (i & Hi & Hl & _).
  exists i. unfold indexOf. rewrite Hi. split; [lia|]. split; [done|].
  unfold splice1. replace (Z.to_nat (0 + Z.of_nat i)) with i by lia.
  by rewrite delete_take_drop.
Qed.

Lemma NoDup_snoc (l : list string) u : NoDup l → u ∉ l → NoDup (l ++ [u]).
Proof.
  intros Hl Hu. apply NoDup_app. split; [done|]. split.
  - intros x Hx Hx'. apply list_elem_of_singleton in Hx'. by subst.
  - apply NoDup_singleton.
Qed.

Lemma NoDup_delete (l : list string) i : NoDup l → NoDup (delete i l).
Proof. intros H. eapply sublist_NoDup; [done | apply sublist_delete]. Qed.

(** *** One call preserves validity *)

Lemma like_valid u c : valid c → valid (fst (like u c)).
Proof.
  intros [Hn Hd]. unfold like, includes.
  case_bool_decide as Hin; simpl; [done|].
  split; simpl.
  - rewrite length_app. simpl. lia.
  - by apply NoDup_snoc.
Qed.

Lemma unlike_valid u c : valid c → valid (fst (unlike u c)).
Proof.
  intros [Hn Hd]. unfold unlike.
  destruct (indexOf (likedBy c) u >? -1) eqn:E; simpl; [|done].
  apply Z.gtb_lt in E.
  assert (Hin : u ∈ likedBy c) by (apply indexOf_found; lia).
  destruct (splice1_indexOf _ _ Hin) as (i & _ & Hl & ->).
  split; simpl.
  - rewrite length_delete by eauto.
    apply lookup_lt_Some in Hl. lia.
  - by apply NoDup_delete.
Qed.

Lemma step_valid c k : valid c → valid (step c k).
Proof. destruct k; simpl; [apply like_valid | apply unlike_valid]. Qed.

Lemma run_valid ks c : valid c → valid (run ks c).
Proof.
  unfold run. revert c. induction ks as [|k ks IH]; intros c H; simpl; [done|].
  apply IH, step_valid, H.
Qed.


Lemma like_absent u c :
  u ∉ likedBy c →
  like u c = (set_likes c (likes c + 1) (likedBy c ++ [u]), true).
Proof.
  intros H. unfold like, includes. by rewrite bool_decide_eq_false_2.
Qed.

Lemma like_present u c : u ∈ likedBy c → like u c = (c, false).
Proof.
  intros H. unfold like, includes. by rewrite bool_decide_eq_true_2.
Qed.

Lemma unlike_absent u c : u ∉ likedBy c → unlike u c = (c, false).
Proof.
  intros H. unfold unlike, indexOf. by rewrite indexOf_from_absent.
Qed.

(** C1. From a valid state (likes equal to the number of entries of
    likedBy, likedBy without duplicates), after any finite sequence of
    like and unlike calls, likes is the number of entries of likedBy. *)
Theorem likes_eq_size_after_calls (c : t) (ks : list call) :
  valid c → likes (run ks c) = Z.of_nat (length (likedBy (run ks c))).
Proof. intros H. apply (run_valid ks c H). Qed.

Lemma likes_eq_size_after_calls_witness :
  let c := mk "c1" "first" "published" 0 2 ["ann"; "bob"] [] [] None in
  let ks := [Like "cho"; Unlike "ann"; Unlike "zed"; Like "bob"] in
  valid c ∧ likes (run ks c) = Z.of_nat (length (likedBy (run ks c))).
Proof.
  intros c ks.
  assert (Hv : valid c).
  { split; [reflexivity | compute_done]. }
  split; [exact Hv | exact (likes_eq_size_after_calls c ks Hv)].
Defined.

(** C3. like returns true, appends the user to likedBy and adds one to
    likes exactly when the user was not in likedBy; when the user is
    already there it returns false and leaves the document as it is; so
    two calls with the same user change the document once. *)
Theorem like_once (u : string) (c : t) :
  (snd (like u c) = true ↔ u ∉ likedBy c)
  ∧ (u ∉ likedBy c →
     likedBy (fst (like u c)) = likedBy c ++ [u]
     ∧ likes (fst (like u c)) = likes c + 1
     ∧ hasLiked u (fst (like u c)) = true)
  ∧ (u ∈ likedBy c → like u c = (c, false))
  ∧ like u (fst (like u c)) = (fst (like u c), false).
Proof.
  assert (Hsecond : like u (fst (like u c)) = (fst (like u c), false)).
  { apply like_present. destruct (decide (u ∈ likedBy c)) as [Hin|Hn].
    - by rewrite like_present.
    - rewrite like_absent by done. simpl. set_solver. }
  split; [|split; [|split]]; try done.
  - destruct (decide (u ∈ likedBy c)) as [Hin|Hn].
    + rewrite like_present by done. simpl. split; [discriminate | done].
    + rewrite like_absent by done. simpl. split; done.
  - intros Hn. rewrite like_absent by done. simpl.
    split; [done|]. split; [done|].
    unfold hasLiked, includes. simpl. apply bool_decide_eq_true_2. set_solver.
  - apply like_present.
Qed.

Lemma like_once_witness :
  let c := mk "c1" "first" "published" 0 1 ["ann"] [] [] None in
  like "bob" c = (set_likes c 2 ["ann"; "bob"], true)
  ∧ like "ann" c = (c, false).
Proof.
  intros c. split.
  - destruct (like_once "bob" c) as (_ & H & _).
    assert (Hn : "bob" ∉ likedBy c).
    { compute_done. }
    destruct (H Hn) as (H1 & H2 & _).
    reflexivity.
  - destruct (like_once "ann" c) as (_ & _ & H & _).
    apply H. compute_done.
Defined.

(** C4. unlike for a user who is not in likedBy returns false and leaves
    the document as it is; and from a valid state, after any sequence of
    calls, likes is not negative and no user occurs twice in likedBy. *)
Theorem unlike_absent_noop_and_bounds (u : string) (c : t) (ks : list call) :
  (u ∉ likedBy c → unlike u c = (c, false))
  ∧ (valid c →
     0 ≤ likes (run ks c)
     ∧ NoDup (likedBy (run ks c))
     ∧ likes (run ks c) = Z.of_nat (length (likedBy (run ks c)))).
Proof.
  split; [apply unlike_absent|].
  intros H. destruct (run_valid ks c H) as [Hn Hd].
  split; [lia|]. split; done.
Qed.

Lemma unlike_absent_noop_and_bounds_witness :
  let c := mk "c1" "first" "published" 0 1 ["ann"] [] [] None in
  let ks := [Unlike "ann"; Unlike "ann"; Unlike "bob"; Like "bob"; Like "bob"] in
  unlike "bob" c = (c, false)
  ∧ likes (run ks c) = 1
  ∧ 0 ≤ likes (run ks c)
  ∧ NoDup (likedBy (run ks c)).
Proof.
  intros c ks.
  destruct (unlike_absent_noop_and_bounds "bob" c ks) as [H1 H2].
  assert (Hn : "bob" ∉ likedBy c) by (compute_done).
  assert (Hv : valid c).
  { split; [reflexivity | compute_done]. }
  destruct (H2 Hv) as (Ha & Hb & Hc).
  split; [exact (H1 Hn)|]. split; [reflexivity|]. split; [exact Ha | exact Hb].
Defined.

End LikeProps.

(** ** The Genre and Tag counters *)

Module CounterProps.

Import Counters.

Lemma incrementCount_lookup (m : gmap string Z) h g :
  is_Some (m !! g) →
  is_Some (incrementCount h m !! g)
  ∧ comicCount (incrementCount h m) g
    = comicCount m g + (if decide (h = g) then 1 else 0).
Proof.
  intros [n Hn]. unfold comicCount, incrementCount.
  rewrite lookup_alter. destruct (decide (h = g)) as [->|Hne].
  - rewrite Hn. simpl. split; [eauto | lia].
  - rewrite Hn. simpl. split; [eauto | lia].
Qed.

Lemma foldl_incrementCount_lookup gs (m : gmap string Z) g :
  is_Some (m !! g) →
  comicCount (foldl (λ m h, incrementCount h m) m gs) g
  = comicCount m g + occurrences g gs.
Proof.
  unfold occurrences. revert m.
  induction gs as [|h gs IH]; intros m Hm; simpl; [lia|].
  destruct (incrementCount_lookup m h g Hm) as [Hs He].
  rewrite IH by done. rewrite He. rewrite filter_cons.
  destruct (decide (h = g)); simpl; lia.
Qed.

(** Every save of a comic, new or not, adds to the counter of each of its
    genres: the hook does not look at whether the document was created. *)
Lemma save_adds_to_genre_counters doc st g :
  is_Some (genreCount st !! g) →
  comicCount (genreCount (save doc st)) g
  = comicCount (genreCount st) g + occurrences g (Comic.genres doc).
Proof. intros H. unfold save, post_save. simpl. by apply foldl_incrementCount_lookup. Qed.

(** The pairing the hooks aim at: a create followed by
    [findOneAndDelete] leaves the counters where they were. *)
Lemma create_then_findOneAndDelete_balances :
  comicCount (genreCount (findOneAndDelete "c1" created)) "g1" = 0
  ∧ comicCount (tagCount (findOneAndDelete "c1" created)) "t1" = 0
  ∧ referencing Comic.genres "g1" (findOneAndDelete "c1" created) = 0.
Proof. vm_compute. repeat split; reflexivity. Qed.

(** C5, at the failing input.  Creating a comic brings the counters of its
    genre and tag to 1, the number of comics that reference them.  A like
    of that comic saves it again, and the post-save hook adds one more: the
    counters read 2 with one referencing comic.  The soft delete saves once
    more: the counters read 3 with no comic left that is not deleted. *)
Theorem comicCount_drifts_on_every_save :
  (comicCount (genreCount created) "g1" = 1
   ∧ referencing Comic.genres "g1" created = 1)
  ∧ (fst (likeComic "c1" "ann" created) = Return (1, true)
     ∧ comicCount (genreCount liked) "g1" = 2
     ∧ comicCount (tagCount liked) "t1" = 2
     ∧ referencing Comic.genres "g1" liked = 1
     ∧ referencing Comic.tags "t1" liked = 1)
  ∧ (comicCount (genreCount deleted) "g1" = 3
     ∧ referencing Comic.genres "g1" deleted = 0).
Proof. vm_compute. repeat split; reflexivity. Qed.

End CounterProps.

(** ** Comparisons of Numbers *)

Module NumberProps.

Import Number.

Local Open Scope Q_scope.

Lemma gtb_true a b : gtb a b = true ↔ b < a.
Proof.
  unfold gtb. rewrite negb_true_iff. split.
  - intros H. apply Qnot_le_lt. intros Hle. apply Qle_bool_iff in Hle. congruence.
  - intros H. destruct (Qle_bool a b) eqn:E; [|done].
    apply Qle_bool_iff in E. apply Qle_not_lt in E. contradiction.
Qed.

Lemma gtb_false a b : gtb a b = false ↔ a <= b.
Proof.
  unfold gtb. rewrite negb_false_iff. apply Qle_bool_iff.
Qed.

Lemma geb_true a b : geb a b = true ↔ b <= a.
Proof. unfold geb. apply Qle_bool_iff. Qed.

Lemma geb_false a b : geb a b = false ↔ a < b.
Proof.
  unfold geb. split.
  - intros H. apply Qnot_le_lt. intros Hle. apply Qle_bool_iff in Hle. congruence.
  - intros H. destruct (Qle_bool b a) eqn:E; [|done].
    apply Qle_bool_iff in E. apply Qle_not_lt in E. contradiction.
Qed.

(** *** Rounding to the nearest double is monotone *)

Lemma pow2_pos e : 0 < 2 ^ e.
Proof. apply Qpower_0_lt. reflexivity. Qed.

Lemma pow2_plus a b : 2 ^ (a + b) == 2 ^ a * 2 ^ b.
Proof. apply Qpower_plus. discriminate. Qed.

Lemma pow2_le a b : (a <= b)%Z -> 2 ^ a <= 2 ^ b.
Proof. intros H. apply Qpower_le_compat_l; [exact H | discriminate]. Qed.

Lemma pow2_lt_inv a b : 2 ^ a < 2 ^ b -> (a < b)%Z.
Proof. intros H. apply (Qpower_lt_compat_l_inv 2); [exact H | reflexivity]. Qed.

Lemma pow2_of_Z a : (0 <= a)%Z -> inject_Z (2 ^ a) == 2 ^ a.
Proof. intros H. apply (Zpower_Qpower 2 a H). Qed.

Lemma log2_bounds_Q (n : Z) :
  (0 < n)%Z -> 2 ^ Z.log2 n <= inject_Z n /\ inject_Z n < 2 ^ (Z.log2 n + 1).
Proof.
  intros Hn. destruct (Z.log2_spec n Hn) as [Hlo Hhi].
  pose proof (Z.log2_nonneg n) as Hnn.
  split.
  - rewrite <- pow2_of_Z by exact Hnn. rewrite <- Zle_Qle. exact Hlo.
  - rewrite <- pow2_of_Z by lia. rewrite <- Zlt_Qlt. exact Hhi.
Qed.

Lemma ilog2_spec q : 0 < q -> 2 ^ ilog2 q <= q /\ q < 2 ^ (ilog2 q + 1).
Proof.
  intros Hq. destruct q as [n d].
  assert (Hn : (0 < n)%Z).
  { unfold Qlt in Hq. simpl in Hq. lia. }
  destruct (log2_bounds_Q n Hn) as [Hnlo Hnhi].
  destruct (log2_bounds_Q (Zpos d) (Pos2Z.is_pos d)) as [Hdlo Hdhi].
  assert (Hqd : (n # d) * inject_Z (Zpos d) == inject_Z n).
  { unfold Qeq, Qmult, inject_Z. simpl. lia. }
  assert (Hd0 : 0 < inject_Z (Zpos d)) by (unfold Qlt, inject_Z; simpl; lia).
  unfold ilog2. simpl Qnum. simpl Qden.
  set (a := Z.log2 n) in *. set (b := Z.log2 (Z.pos d)) in *.
  set (D := inject_Z (Z.pos d)) in *. set (N := inject_Z n) in *.
  pose proof (pow2_pos (a - b)) as Hp1.
  pose proof (pow2_pos (a - b - 1)) as Hp2.
  pose proof (pow2_pos (a - b + 1)) as Hp3.
  pose proof (pow2_pos b) as Hpb.
  assert (E1 : 2 ^ (a - b + 1) * 2 ^ b == 2 ^ (a + 1)).
  { rewrite <- pow2_plus. replace (a - b + 1 + b)%Z with (a + 1)%Z by lia. reflexivity. }
  assert (E2 : 2 ^ (a - b - 1) * 2 ^ (b + 1) == 2 ^ a).
  { rewrite <- pow2_plus. replace (a - b - 1 + (b + 1))%Z with a by lia. reflexivity. }
  destruct (Qle_bool (2 ^ (a - b)) (n # d)) eqn:E.
  - apply Qle_bool_iff in E. split; [exact E|].
    apply Qnot_le_lt. intros Hc.
    assert (2 ^ (a - b + 1) * 2 ^ b <= (n # d) * D).
    { apply Qle_trans with ((n # d) * 2 ^ b).
      - apply Qmult_le_r; [apply pow2_pos | exact Hc].
      - apply Qmult_le_l; [exact Hq | exact Hdlo]. }
    lra.
  - assert (Hlt : (n # d) < 2 ^ (a - b)).
    { apply Qnot_le_lt. intros Hc. apply Qle_bool_iff in Hc. congruence. }
    replace (a - b - 1 + 1)%Z with (a - b)%Z by lia.
    split; [|exact Hlt].
    apply Qnot_lt_le. intros Hc.
    assert ((n # d) * D < 2 ^ (a - b - 1) * 2 ^ (b + 1)).
    { apply Qle_lt_trans with ((n # d) * 2 ^ (b + 1)).
      - apply Qmult_le_l; [exact Hq | apply Qlt_le_weak, Hdhi].
      - apply Qmult_lt_r; [apply pow2_pos | exact Hc]. }
    lra.
Qed.

Lemma ilog2_mono x y : 0 < x -> x <= y -> (ilog2 x <= ilog2 y)%Z.
Proof.
  intros Hx Hxy.
  destruct (ilog2_spec x Hx) as [Hlo _].
  destruct (ilog2_spec y (Qlt_le_trans _ _ _ Hx Hxy)) as [_ Hhi].
  assert (H : 2 ^ ilog2 x < 2 ^ (ilog2 y + 1)) by lra.
  apply pow2_lt_inv in H. lia.
Qed.

Lemma rne_bounds q : (Qfloor q <= rne q <= Qfloor q + 1)%Z.
Proof.
  unfold rne. destruct (Qcompare _ _); [destruct (Z.even _)| |]; lia.
Qed.

Lemma rne_Z z : rne (inject_Z z) = z.
Proof.
  unfold rne. rewrite Qfloor_Z.
  destruct (Qcompare_spec (inject_Z z - inject_Z z) (1 # 2)) as [H|H|H]; try lra.
  reflexivity.
Qed.

Lemma rne_mono x y : x <= y -> (rne x <= rne y)%Z.
Proof.
  intros Hxy. pose proof (Qfloor_resp_le x y Hxy) as Hf.
  destruct (Z.eq_dec (Qfloor x) (Qfloor y)) as [E|E].
  - unfold rne. rewrite <- E.
    destruct (Qcompare_spec (x - inject_Z (Qfloor x)) (1 # 2)) as [Hx|Hx|Hx];
    destruct (Qcompare_spec (y - inject_Z (Qfloor x)) (1 # 2)) as [Hy|Hy|Hy];
    try lra; try destruct (Z.even (Qfloor x)); lia.
  - pose proof (rne_bounds x). pose proof (rne_bounds y). lia.
Qed.

Lemma round_pos_eq q : round_pos q = inject_Z (rne (q / 2 ^ expo q)) * 2 ^ expo q.
Proof. reflexivity. Qed.

Lemma div_pow2_le x y e : x <= y -> x / 2 ^ e <= y / 2 ^ e.
Proof.
  intros H. apply Qle_shift_div_l; [apply pow2_pos|].
  unfold Qdiv. rewrite <- Qmult_assoc, (Qmult_comm (/ _)), Qmult_inv_r, Qmult_1_r.
  - exact H.
  - pose proof (pow2_pos e). lra.
Qed.

Lemma round_pos_nonneg q : 0 < q -> 0 <= round_pos q.
Proof.
  intros Hq. rewrite round_pos_eq.
  apply Qmult_le_0_compat; [|apply Qlt_le_weak, pow2_pos].
  change 0 with (inject_Z 0). rewrite <- Zle_Qle.
  pose proof (rne_bounds (q / 2 ^ expo q)) as [Hb _].
  assert (0 <= Qfloor (q / 2 ^ expo q))%Z; [|lia].
  rewrite <- (Qfloor_Z 0). apply Qfloor_resp_le.
  apply Qle_shift_div_l; [apply pow2_pos|].
  change (inject_Z 0) with 0. rewrite Qmult_0_l. apply Qlt_le_weak, Hq.
Qed.

Lemma round_pos_mono x y : 0 < x -> x <= y -> round_pos x <= round_pos y.
Proof.
  intros Hx Hxy.
  assert (Hy : 0 < y) by lra.
  pose proof (ilog2_mono x y Hx Hxy) as Hl.
  rewrite !round_pos_eq.
  destruct (Z.eq_dec (expo x) (expo y)) as [E|E].
  - rewrite E. apply Qmult_le_r; [apply pow2_pos|].
    rewrite <- Zle_Qle. apply rne_mono, div_pow2_le, Hxy.
  - assert (Hlt : (expo x + 1 <= expo y)%Z) by (unfold expo in *; lia).
    assert (Hey : expo y = (ilog2 y - 52)%Z) by (unfold expo in *; lia).
    assert (Hex : (ilog2 x - 52 <= expo x)%Z) by (unfold expo; lia).
    destruct (ilog2_spec x Hx) as [_ Hxhi].
    destruct (ilog2_spec y Hy) as [Hylo _].
    (* the significand of x is at most 2^53 *)
    assert (Hmx : (rne (x / 2 ^ expo x) <= 2 ^ 53)%Z).
    { rewrite <- (rne_Z (2 ^ 53)). apply rne_mono.
      apply Qle_shift_div_r; [apply pow2_pos|].
      rewrite pow2_of_Z by lia. rewrite <- pow2_plus.
      apply Qle_trans with (2 ^ (ilog2 x + 1)); [lra|].
      apply pow2_le. lia. }
    (* the significand of y is at least 2^52 *)
    assert (Hmy : (2 ^ 52 <= rne (y / 2 ^ expo y))%Z).
    { rewrite <- (rne_Z (2 ^ 52)) at 1. apply rne_mono.
      apply Qle_shift_div_l; [apply pow2_pos|].
      rewrite pow2_of_Z by lia. rewrite <- pow2_plus.
      apply Qle_trans with (2 ^ ilog2 y); [|lra].
      apply pow2_le. lia. }
    apply Qle_trans with (inject_Z (2 ^ 53) * 2 ^ expo x).
    { apply Qmult_le_r; [apply pow2_pos|]. rewrite <- Zle_Qle. exact Hmx. }
    apply Qle_trans with (inject_Z (2 ^ 52) * 2 ^ expo y).
    2:{ apply Qmult_le_r; [apply pow2_pos|]. rewrite <- Zle_Qle. exact Hmy. }
    rewrite !pow2_of_Z by lia. rewrite <- !pow2_plus. apply pow2_le. lia.
Qed.

Lemma binary64_mono x y : x <= y -> binary64 x <= binary64 y.
Proof.
  intros Hxy. unfold binary64.
  destruct (Qcompare_spec x 0) as [Hx|Hx|Hx];
  destruct (Qcompare_spec y 0) as [Hy|Hy|Hy]; try lra.
  - apply round_pos_nonneg, Hy.
  - assert (0 <= round_pos (- x)) by (apply round_pos_nonneg; lra). lra.
  - assert (round_pos (- y) <= round_pos (- x)) by (apply round_pos_mono; lra). lra.
  - assert (0 <= round_pos (- x)) by (apply round_pos_nonneg; lra).
    assert (0 <= round_pos y) by (apply round_pos_nonneg; lra). lra.
  - apply round_pos_mono; assumption.
Qed.

(** *** Integers below 2^53 are doubles *)

Lemma rne_proper x y : x == y -> rne x = rne y.
Proof.
  intros H. apply Z.le_antisymm; apply rne_mono; rewrite H; apply Qle_refl.
Qed.

Lemma pow2_neg k : 2 ^ (- k) * 2 ^ k == 1.
Proof. rewrite <- pow2_plus. replace (- k + k)%Z with 0%Z by lia. reflexivity. Qed.

Lemma round_pos_exact_int z :
  (0 < z < 2 ^ 53)%Z -> round_pos (inject_Z z) == inject_Z z.
Proof.
  intros [Hz0 Hz]. rewrite round_pos_eq.
  assert (Hq : 0 < inject_Z z).
  { change 0 with (inject_Z 0). rewrite <- Zlt_Qlt. exact Hz0. }
  destruct (ilog2_spec _ Hq) as [Hlo _].
  assert (Hl : (ilog2 (inject_Z z) < 53)%Z).
  { apply pow2_lt_inv. apply Qle_lt_trans with (inject_Z z); [exact Hlo|].
    rewrite <- pow2_of_Z by lia. rewrite <- Zlt_Qlt. exact Hz. }
  set (e := expo (inject_Z z)).
  assert (He : (e <= 0)%Z) by (unfold e, expo; lia).
  assert (Hk : inject_Z z / 2 ^ e == inject_Z (z * 2 ^ (- e))).
  { rewrite inject_Z_mult, pow2_of_Z by lia.
    unfold Qdiv. rewrite <- Qpower_opp. reflexivity. }
  rewrite (rne_proper _ _ Hk), rne_Z.
  rewrite inject_Z_mult, pow2_of_Z by lia.
  rewrite <- Qmult_assoc, pow2_neg. apply Qmult_1_r.
Qed.

Lemma binary64_exact_int z :
  (Z.abs z < 2 ^ 53)%Z -> binary64 (inject_Z z) == inject_Z z.
Proof.
  intros Hz. unfold binary64.
  destruct (Qcompare_spec (inject_Z z) 0) as [H|H|H].
  - symmetry. exact H.
  - change 0 with (inject_Z 0) in H. rewrite <- Zlt_Qlt in H.
    rewrite <- inject_Z_opp. rewrite round_pos_exact_int by lia.
    rewrite inject_Z_opp. ring.
  - change 0 with (inject_Z 0) in H. rewrite <- Zlt_Qlt in H.
    apply round_pos_exact_int. lia.
Qed.

(** *** The rounding error of a normal double *)

Lemma rne_near t : Qabs (inject_Z (rne t) - t) <= 1 # 2.
Proof.
  unfold rne.
  pose proof (Qfloor_le t) as Hlo. pose proof (Qlt_floor t) as Hhi.
  rewrite inject_Z_plus in Hhi. change (inject_Z 1) with 1 in Hhi.
  apply Qabs_Qle_condition.
  destruct (Qcompare_spec (t - inject_Z (Qfloor t)) (1 # 2)) as [H|H|H];
    [destruct (Z.even (Qfloor t))| |];
    rewrite ?inject_Z_plus; change (inject_Z 1) with 1;
    set (f := inject_Z (Qfloor t)) in *; clearbody f; split; lra.
Qed.

Lemma u_pow2 : 2 ^ (-53) == u.
Proof. reflexivity. Qed.

Lemma round_pos_error q :
  2 ^ (-1022) <= q -> Qabs (round_pos q - q) <= q * u.
Proof.
  intros Hq.
  assert (Hq0 : 0 < q) by (pose proof (pow2_pos (-1022)); lra).
  destruct (ilog2_spec q Hq0) as [Hlo Hhi].
  assert (Hl : (-1022 <= ilog2 q)%Z).
  { assert (H : 2 ^ (-1022) < 2 ^ (ilog2 q + 1)) by lra.
    apply pow2_lt_inv in H. lia. }
  rewrite round_pos_eq.
  assert (He : expo q = (ilog2 q - 52)%Z) by (unfold expo; lia).
  set (e := expo q) in *.
  pose proof (pow2_pos e) as Hpe.
  pose proof (rne_near (q / 2 ^ e)) as Hn.
  set (m := inject_Z (rne (q / 2 ^ e))) in *. clearbody m.
  assert (Ht : q / 2 ^ e * 2 ^ e == q).
  { unfold Qdiv. rewrite <- Qmult_assoc, (Qmult_comm (/ _)), Qmult_inv_r, Qmult_1_r;
      [reflexivity | lra]. }
  set (t := q / 2 ^ e) in *. clearbody t.
  assert (Hu : 2 ^ e == 2 * (2 ^ ilog2 q * u)).
  { rewrite <- u_pow2. rewrite <- pow2_plus.
    change 2 with (2 ^ 1) at 2. rewrite <- pow2_plus.
    rewrite He. replace (1 + (ilog2 q + -53))%Z with (ilog2 q - 52)%Z by lia.
    reflexivity. }
  set (P := 2 ^ e) in *. clearbody P.
  set (L := 2 ^ ilog2 q) in *. clearbody L.
  apply Qabs_Qle_condition in Hn as [Hn1 Hn2].
  assert (Hu0 : 0 < u) by reflexivity.
  apply Qabs_Qle_condition. split.
  - assert ((m - t) * P >= - (1 # 2) * P) by nra. nra.
  - assert ((m - t) * P <= (1 # 2) * P) by nra. nra.
Qed.

Lemma binary64_error q :
  q == 0 \/ 2 ^ (-1022) <= Qabs q -> Qabs (binary64 q - q) <= Qabs q * u.
Proof.
  intros Hq. unfold binary64.
  destruct (Qcompare_spec q 0) as [H|H|H].
  - rewrite H. vm_compute. discriminate.
  - destruct Hq as [Hq|Hq]; [lra|].
    rewrite (Qabs_neg q) in * by lra.
    pose proof (round_pos_error (- q) Hq) as He.
    assert (Heq : - round_pos (- q) - q == - (round_pos (- q) - - q)) by ring.
    rewrite Heq, Qabs_opp. exact He.
  - destruct Hq as [Hq|Hq]; [lra|].
    rewrite (Qabs_pos q) in * by lra.
    apply round_pos_error, Hq.
Qed.

(** Two doubles that the specification's examples use. *)
Example binary64_third : binary64 (1 # 3) == 6004799503160661 # 18014398509481984.
Proof. vm_compute. reflexivity. Qed.

Example binary64_tenth : binary64 (1 # 10) == 3602879701896397 # 36028797018963968.
Proof. vm_compute. reflexivity. Qed.

(** Equal rationals round to equal doubles. *)
Lemma binary64_proper x y : x == y -> binary64 x == binary64 y.
Proof.
  intros H. apply Qle_antisym; apply binary64_mono; rewrite H; apply Qle_refl.
Qed.



(** [toFixed(1)] keeps the nearest tenth. *)
Lemma tenths_near x : Qabs (inject_Z (tenths x) / 10 - x) <= 1 # 20.
Proof.
  unfold tenths.
  pose proof (Qfloor_le (x * 10 + (1 # 2))) as Hlo.
  pose proof (Qlt_floor (x * 10 + (1 # 2))) as Hhi.
  rewrite inject_Z_plus in Hhi. change (inject_Z 1) with 1 in Hhi.
  set (n := inject_Z (Qfloor (x * 10 + (1 # 2)))) in *. clearbody n.
  apply Qabs_Qle_condition. unfold Qdiv. change (/ 10) with (1 # 10).
  split; lra.
Qed.

Lemma toFixed1_tenths x :
  Qabs x < inject_Z (10 ^ 21) ->
  exists n : Z,
    toFixed1 x == binary64 (inject_Z n / 10)
    /\ Qabs (inject_Z n / 10 - x) <= 1 # 20.
Proof.
  intros Hx. unfold toFixed1.
  apply geb_false in Hx. rewrite Hx.
  pose proof (tenths_near (Qabs x)) as Hn.
  destruct (geb x 0) eqn:E.
  - apply geb_true in E. exists (tenths (Qabs x)). split.
    + apply binary64_proper. ring.
    + rewrite (Qabs_pos x E) in Hn at 2. exact Hn.
  - apply geb_false in E. exists (- tenths (Qabs x))%Z. split.
    + apply binary64_proper. rewrite inject_Z_opp. field.
    + rewrite (Qabs_neg x) in Hn at 2 by lra.
      rewrite inject_Z_opp.
      assert (Heq : - inject_Z (tenths (Qabs x)) / 10 - x
                    == - (inject_Z (tenths (Qabs x)) / 10 - - x)) by field.
      rewrite Heq, Qabs_opp. exact Hn.
Qed.

End NumberProps.

(** ** The window guard of the analytics overview *)

Module OverviewProps.

Import AdminStats.

(** C10. A window of more than 365 days is answered with the 400 error
    before any store query is issued; without a [days] parameter the
    handler runs as for 30 days. *)
Theorem getOverview_guard {Data : Type} (statistics : Q → Z → list query * Data)
    (days : Q) (now : Z) :
  ((365 < days)%Q →
   getOverview statistics (Some days) now
   = ([], Throw (BadRequestError "Date range cannot exceed 365 days"))
   ∧ httpCode (BadRequestError "Date range cannot exceed 365 days") = 400)
  ∧ getOverview statistics None now = getOverview statistics (Some 30%Q) now
  ∧ getOverview statistics None now
    = (fst (statistics 30%Q now), Return (snd (statistics 30%Q now))).
Proof.
  split; [|split].
  - intros H. unfold getOverview. simpl.
    apply NumberProps.gtb_true in H. rewrite H. done.
  - reflexivity.
  - unfold getOverview. simpl.
    replace (Number.gtb 30 365) with false by reflexivity.
    by destruct (statistics 30%Q now).
Qed.

Lemma getOverview_guard_witness :
  let statistics := λ (_ : Q) (_ : Z), ([CountDocuments "comics"], 7) in
  getOverview statistics (Some 366%Q) 1700000000000
  = ([], Throw (BadRequestError "Date range cannot exceed 365 days"))
  ∧ getOverview statistics None 1700000000000
    = ([CountDocuments "comics"], Return 7).
Proof.
  intros statistics.
  destruct (getOverview_guard statistics 366%Q 1700000000000) as (H1 & _ & H3).
  split.
  - apply H1. reflexivity.
  - exact H3.
Defined.

(** Windows of at most 365 days pass the guard. *)
Lemma getOverview_accepts {Data : Type} (statistics : Q → Z → list query * Data)
    (days : Q) (now : Z) :
  (days <= 365)%Q →
  getOverview statistics (Some days) now
  = (fst (statistics days now), Return (snd (statistics days now))).
Proof.
  intros H. unfold getOverview. simpl.
  apply NumberProps.gtb_false in H. rewrite H.
  by destruct (statistics days now).
Qed.

End OverviewProps.

(** ** Login and lockout *)

Module LockoutProps.

Import User.

Section WithCompare.

Variable compare : string → string → bool.

Lemma logins_app u reqs1 reqs2 :
  logins compare u (reqs1 ++ reqs2)
  = let '(rs1, u1) := logins compare u reqs1 in
    let '(rs2, u2) := logins compare u1 reqs2 in
    (rs1 ++ rs2, u2).
Proof.
  revert u. induction reqs1 as [|[cand clk] reqs1 IH]; intros u; simpl.
  - by destruct (logins compare u reqs2).
  - destruct (login_user compare u cand clk) as [r u'].
    rewrite IH. destruct (logins compare u' reqs1) as [rs1 u1].
    by destruct (logins compare u1 reqs2).
Qed.

(** A wrong password on an account that carries no lock. *)
Lemma wrong_password_unlocked u cand clk :
  lockUntil u = None →
  compare cand (password u) = false →
  login_user compare u cand clk
  = (invalid,
     set_lock u (loginAttempts u + 1)
       (if loginAttempts u + 1 >=? 5 then Some (at_lock clk + 15 * 60 * 1000) else None)).
Proof.
  intros Hl Hc. unfold login_user, isLocked, incrementLoginAttempts.
  rewrite Hl, Hc. reflexivity.
Qed.

(** Below the threshold the failures are counted and no lock is set. *)
Lemma failures_below_threshold reqs u :
  lockUntil u = None →
  loginAttempts u + Z.of_nat (length reqs) < 5 →
  all_wrong compare u reqs →
  logins compare u reqs
  = (replicate (length reqs) invalid,
     set_lock u (loginAttempts u + Z.of_nat (length reqs)) None).
Proof.
  revert u. induction reqs as [|[cand clk] reqs IH]; intros u Hl Hlt Hw.
  - simpl. f_equal. destruct u; unfold set_lock; simpl in *.
    rewrite Z.add_0_r. by subst.
  - simpl in *. apply Forall_cons in Hw as [Hc Hw]. simpl in Hc.
    rewrite wrong_password_unlocked by done.
    replace (loginAttempts u + 1 >=? 5) with false by lia.
    rewrite IH; simpl; [|done|lia|done].
    f_equal. unfold set_lock. simpl. f_equal. lia.
Qed.

End WithCompare.

(** C9. The threshold is five and the lock lasts fifteen minutes: from
    an account with no failed attempt and no lock, four consecutive wrong
    passwords leave the account without a lock and the fifth sets a lock
    that ends fifteen minutes after it.  While the account is locked,
    login answers with the forbidden error whatever the password is and
    changes nothing.  A successful login sets the counter to zero and
    removes the lock.  A wrong password on an account whose lock has
    expired sets the counter to zero and removes the lock. *)
Theorem lockout_after_five (compare : string → string → bool) (u : t) :
  (∀ reqs cand clk,
     loginAttempts u = 0 → lockUntil u = None →
     length reqs = 4%nat →
     all_wrong compare u (reqs ++ [(cand, clk)]) →
     (∀ now, isLocked (snd (logins compare u reqs)) now = false)
     ∧ logins compare u (reqs ++ [(cand, clk)])
       = (replicate 5 invalid, set_lock u lockThreshold (Some (at_lock clk + lockDuration)))
     ∧ (∀ now, isLocked (snd (logins compare u (reqs ++ [(cand, clk)]))) now = true
               ↔ now < at_lock clk + lockDuration))
  ∧ (∀ cand clk,
       isLocked u (at_isLocked clk) = true →
       login_user compare u cand clk = (locked_out, u)
       ∧ httpCode (ForbiddenError "Account is temporarily locked. Try again later.") = 403)
  ∧ (∀ cand clk,
       isLocked u (at_isLocked clk) = false →
       compare cand (password u) = true →
       emailVerified u = true →
       login_user compare u cand clk = (Return "Login successful", set_lock u 0 None))
  ∧ (∀ cand clk until,
       lockUntil u = Some until →
       until < at_expiry clk →
       isLocked u (at_isLocked clk) = false →
       compare cand (password u) = false →
       login_user compare u cand clk = (invalid, set_lock u 0 None)).
Proof.
  split; [|split; [|split]].
  - intros reqs cand clk Ha Hl Hlen Hw.
    apply Forall_app in Hw as [Hw Hw5].
    apply Forall_cons in Hw5 as [Hw5 _]. simpl in Hw5.
    assert (H4 : logins compare u reqs = (replicate 4 invalid, set_lock u 4 None)).
    { rewrite (failures_below_threshold compare reqs u) by (done || lia).
      rewrite Hlen, Ha. reflexivity. }
    assert (H5 : logins compare u (reqs ++ [(cand, clk)])
                 = (replicate 5 invalid, set_lock u 5 (Some (at_lock clk + lockDuration)))).
    { rewrite logins_app, H4. simpl.
      rewrite wrong_password_unlocked by done. reflexivity. }
    split; [|split].
    + intros now. rewrite H4. reflexivity.
    + exact H5.
    + intros now. rewrite H5. unfold isLocked. simpl. lia.
  - intros cand clk H. unfold login_user. rewrite H. done.
  - intros cand clk Hl Hc Hv. unfold login_user. rewrite Hl, Hc, Hv. reflexivity.
  - intros cand clk until Hu Hlt Hl Hc.
    unfold login_user, incrementLoginAttempts. rewrite Hl, Hc, Hu. simpl.
    replace (until <? at_expiry clk) with true by lia. reflexivity.
Qed.

Lemma lockout_after_five_witness :
  let compare := String.eqb in
  let u := mk "ann@example.org" "secret" true 0 None in
  let at_ t := mkClock t t t in
  let reqs := [("a", at_ 1000); ("b", at_ 2000); ("c", at_ 3000); ("d", at_ 4000)] in
  let locked := set_lock u 5 (Some 905000) in
  logins compare u (reqs ++ [("e", at_ 5000)]) = (replicate 5 invalid, locked)
  ∧ login_user compare locked "secret" (at_ 6000) = (locked_out, locked)
  ∧ login_user compare locked "wrong" (at_ 906000) = (invalid, set_lock locked 0 None)
  ∧ login_user compare u "secret" (at_ 7000) = (Return "Login successful", set_lock u 0 None).
Proof.
  intros compare u at_ reqs locked.
  destruct (lockout_after_five compare u) as (Ha & _ & Hc & _).
  destruct (lockout_after_five compare locked) as (_ & Hb & _ & Hd).
  split; [|split; [|split]].
  - apply (Ha reqs "e" (at_ 5000)); [reflexivity | reflexivity | reflexivity |].
    repeat constructor.
  - apply (Hb "secret" (at_ 6000)). reflexivity.
  - apply (Hd "wrong" (at_ 906000) 905000); [reflexivity | reflexivity | reflexivity | reflexivity].
  - apply (Hc "secret" (at_ 7000)); reflexivity.
Defined.

End LockoutProps.

(** ** Slug generation *)

Module SlugProps.

Import JSString Blog.

(** *** Code units *)

Ltac unit_arith :=
  intros;
  unfold slug_unit, is_word, is_space, is_hyphen, is_capital, is_ascii, in_range, hyphen in *;
  repeat match goal with
         | H : _ = false |- _ => apply not_true_iff_false in H
         | |- _ = false => apply not_true_iff_false; intros ?
         end;
  rewrite ?orb_true_iff, ?andb_true_iff, ?N.leb_le, ?N.eqb_eq, ?N.ltb_lt in *;
  try lia.

Lemma is_hyphen_eq c : is_hyphen c = true → c = hyphen.
Proof. unit_arith. Qed.

Lemma hyphen_not_space c : is_hyphen c = true → is_space c = false.
Proof. unit_arith. Qed.

Lemma slug_unit_hyphen : slug_unit hyphen = true.
Proof. reflexivity. Qed.

Lemma slug_unit_not_space c : slug_unit c = true → is_space c = false.
Proof. unit_arith. Qed.

Lemma slug_unit_plain c : slug_unit c = true → is_ascii c = true ∧ is_capital c = false.
Proof. intros H. split; revert H; unit_arith. Qed.

Lemma slug_unit_kept c :
  slug_unit c = true → is_word c || is_space c || is_hyphen c = true.
Proof. unit_arith. Qed.

Lemma kept_slug_unit c :
  is_word c || is_space c || is_hyphen c = true → is_capital c = false →
  is_space c = false → slug_unit c = true.
Proof. unit_arith. Qed.

Lemma digit_slug_unit c : in_range 48 57 c = true → slug_unit c = true.
Proof. unit_arith. Qed.

(** *** The four replacements and [trim] *)

Lemma strip_filter (s : list N) :
  strip s = filter (λ c, is_word c = true ∨ is_space c = true ∨ is_hyphen c = true) s.
Proof.
  induction s as [|c r IH]; [done|]. rewrite filter_cons, <- IH. simpl.
  destruct (decide (is_word c = true ∨ is_space c = true ∨ is_hyphen c = true)) as [H|H].
  - assert (E : is_word c || is_space c || is_hyphen c = true)
      by (rewrite !orb_true_iff; tauto).
    by rewrite E.
  - assert (E : is_word c || is_space c || is_hyphen c = false).
    { apply not_true_iff_false. intros E. apply H. rewrite !orb_true_iff in E. tauto. }
    by rewrite E.
Qed.

Lemma strip_units s :
  Forall (λ c, is_word c || is_space c || is_hyphen c = true) (strip s).
Proof.
  induction s as [|c r IH]; simpl; [constructor|].
  destruct (is_word c || is_space c || is_hyphen c) eqn:E; [constructor; done | done].
Qed.

(** The two replacements of runs act as one replacement of the runs of
    white space and hyphens. *)
Lemma collapse_spaces_join s :
  ∀ sp h, (sp = true → h = true) →
    collapse_hyphens h (spaces_to_hyphen sp s) = join_runs h s.
Proof.
  induction s as [|c r IH]; intros sp h Hs; [done|]. simpl.
  destruct (is_space c) eqn:Ec; simpl.
  - destruct sp.
    + rewrite (Hs eq_refl). apply IH. done.
    + simpl. destruct h; [apply IH; done | f_equal; apply IH; done].
  - destruct (is_hyphen c) eqn:Eh; simpl.
    + destruct h; [apply IH; discriminate | f_equal; apply IH; discriminate].
    + f_equal. apply IH. discriminate.
Qed.

Lemma join_runs_units (P : N → Prop) inside s :
  P hyphen → Forall (λ c, P c ∨ is_space c = true) s → Forall P (join_runs inside s).
Proof.
  intros Hh. revert inside. induction s as [|c r IH]; intros inside H; simpl; [constructor|].
  apply Forall_cons in H as [Hc Hr].
  destruct (is_space c) eqn:Es; simpl.
  - destruct inside; [by apply IH | constructor; [done | by apply IH]].
  - destruct Hc as [Hc|Hc]; [|discriminate].
    destruct (is_hyphen c); [destruct inside|]; try (constructor; [done|]); by apply IH.
Qed.

(** After the replacements no hyphen follows a hyphen. *)
Lemma join_runs_single inside s :
  single_hyphens (join_runs inside s) = true
  ∧ (inside = true →
     match join_runs inside s with
     | c :: _ => is_hyphen c = false
     | [] => True
     end).
Proof.
  revert inside. induction s as [|c r IH]; intros inside; simpl; [done|].
  destruct (is_space c || is_hyphen c) eqn:Ec.
  - destruct inside.
    + apply IH.
    + split; [|done].
      destruct (IH true) as [H1 H2]. specialize (H2 eq_refl).
      simpl. destruct (join_runs true r) as [|d r'] eqn:E; [done|].
      rewrite H2. simpl. exact H1.
  - apply orb_false_iff in Ec as [_ Eh].
    split; [|by intros _].
    destruct (IH false) as [H1 _].
    simpl. destruct (join_runs false r) as [|d r'] eqn:E; [done|].
    rewrite Eh. simpl. exact H1.
Qed.

Lemma trimStart_spec s :
  ∃ a, s = a ++ trimStart s
       ∧ Forall (λ c, is_space c = true) a
       ∧ (∀ c, head (trimStart s) = Some c → is_space c = false).
Proof.
  induction s as [|c r (a & Hr & Ha & Hh)]; simpl.
  - exists []. split; [done|]. split; [constructor | discriminate].
  - destruct (is_space c) eqn:Ec.
    + exists (c :: a). split; [simpl; congruence|]. split; [by constructor | exact Hh].
    + exists []. split; [done|]. split; [constructor|].
      simpl. intros d Hd. by injection Hd as <-.
Qed.

(** [trim] takes the white space off the two ends and nothing else. *)
Lemma trim_spec s :
  ∃ a b, s = a ++ trim s ++ b
         ∧ Forall (λ c, is_space c = true) a
         ∧ Forall (λ c, is_space c = true) b
         ∧ (∀ c, head (trim s) = Some c → is_space c = false)
         ∧ (∀ c, last (trim s) = Some c → is_space c = false).
Proof.
  destruct (trimStart_spec s) as (a & Hs & Ha & Hh).
  set (x := trimStart s) in *.
  destruct (trimStart_spec (reverse x)) as (b & Hx & Hb & Hl).
  assert (Hx' : x = trimEnd x ++ reverse b).
  { unfold trimEnd. rewrite <- reverse_app, <- Hx. by rewrite reverse_involutive. }
  exists a, (reverse b). unfold trim. fold x.
  split; [by rewrite <- Hx'|]. split; [exact Ha|]. split.
  { apply Forall_reverse. exact Hb. }
  split.
  - intros c Hc. apply Hh.
    rewrite Hx'. destruct (trimEnd x) as [|d l]; [discriminate | exact Hc].
  - intros c Hc. apply Hl. unfold trimEnd in Hc.
    rewrite last_reverse in Hc. exact Hc.
Qed.

Lemma trimStart_nothing s : Forall (λ c, is_space c = false) s → trimStart s = s.
Proof. intros H. destruct H as [|c r Hc Hr]; [done|]. simpl. by rewrite Hc. Qed.

Lemma trim_nothing s : Forall (λ c, is_space c = false) s → trim s = s.
Proof.
  intros H. unfold trim, trimEnd. rewrite (trimStart_nothing s H).
  rewrite trimStart_nothing by (by apply Forall_reverse).
  apply reverse_involutive.
Qed.

(** *** The base slug *)

Section Transform.

Variable toLowerCase : t → t.

Lemma baseSlug_join (title : t) :
  baseSlug toLowerCase title = join_runs false (strip (toLowerCase title)).
Proof.
  unfold baseSlug. rewrite collapse_spaces_join by done.
  apply trim_nothing.
  apply (join_runs_units (λ c, is_space c = false)); [reflexivity|].
  apply Forall_forall. intros c _. destruct (is_space c); [by right | by left].
Qed.

Lemma strip_elem (s : list N) c : c ∈ strip s → c ∈ s.
Proof. rewrite strip_filter. intros H. by apply list_elem_of_filter in H as [_ H]. Qed.

Lemma baseSlug_units (title : t) :
  lowercases toLowerCase → Forall (λ c, slug_unit c = true) (baseSlug toLowerCase title).
Proof.
  intros [Hlow _]. rewrite baseSlug_join.
  apply (join_runs_units (λ c, slug_unit c = true)); [reflexivity|].
  apply Forall_forall. intros c Hc.
  pose proof (proj1 (Forall_forall _ _) (strip_units (toLowerCase title)) c Hc) as Hk.
  simpl in Hk. apply strip_elem in Hc. apply Hlow in Hc.
  pose proof (kept_slug_unit c Hk Hc) as Hu.
  destruct (is_space c); [by right | left; by apply Hu].
Qed.

Lemma cast_fixed (s : t) :
  lowercases toLowerCase → Forall (λ c, slug_unit c = true) s → toLowerCase s = s.
Proof.
  intros [_ Hfix] Hs. apply Hfix. eapply Forall_impl; [exact Hs|].
  intros c Hc. by apply slug_unit_plain.
Qed.

(** *** The candidates *)

Lemma of_string_inj : Inj (=) (=) of_string.
Proof.
  intros s1 s2 H. unfold of_string in H.
  apply (f_equal (map ascii_of_N)) in H. rewrite !map_map in H.
  rewrite !(map_ext _ id ascii_N_embedding), !map_id in H.
  apply (f_equal string_of_list_ascii) in H.
  by rewrite !string_of_list_ascii_of_string in H.
Qed.

Lemma pretty_N_char_digit k : in_range 48 57 (N_of_ascii (pretty_N_char k)) = true.
Proof.
  destruct k as [|p]; [reflexivity|].
  do 4 (destruct p as [p|p|]; try reflexivity).
Qed.

Lemma pretty_N_go_digits (x : N) :
  ∀ s, Forall (λ c, in_range 48 57 c = true) (of_string s) →
       Forall (λ c, in_range 48 57 c = true) (of_string (pretty_N_go x s)).
Proof.
  induction (N.lt_wf_0 x) as [x _ IH]. intros s Hs.
  destruct (decide (x = 0%N)) as [->|Hx].
  - by rewrite pretty_N_go_0.
  - rewrite pretty_N_go_step by lia. apply IH.
    + apply N.div_lt; lia.
    + unfold of_string. simpl. constructor; [apply pretty_N_char_digit | exact Hs].
Qed.

Lemma pretty_digits (n : N) :
  Forall (λ c, in_range 48 57 c = true) (of_string (pretty n)).
Proof.
  unfold pretty, pretty_N. destruct (decide (n = 0%N)).
  - repeat constructor.
  - apply pretty_N_go_digits. constructor.
Qed.

Lemma candidate_units base k :
  Forall (λ c, slug_unit c = true) base →
  Forall (λ c, slug_unit c = true) (nth_candidate base k).
Proof.
  intros Hb. destruct k as [|k]; [exact Hb|]. unfold nth_candidate, candidate.
  apply Forall_app. split; [exact Hb|]. constructor; [reflexivity|].
  eapply Forall_impl; [apply pretty_digits|]. intros c. apply digit_slug_unit.
Qed.

Lemma nth_candidate_inj base : Inj (=) (=) (nth_candidate base).
Proof.
  assert (Hne : ∀ k, base ≠ candidate base (N.of_nat (S k))).
  { intros k H. apply (f_equal length) in H. unfold candidate in H.
    rewrite length_app in H. simpl in H. lia. }
  intros [|j] [|k] H; simpl in H.
  - done.
  - by apply Hne in H.
  - symmetry in H. by apply Hne in H.
  - unfold candidate in H. apply app_inv_head in H. injection H as H.
    apply of_string_inj in H. apply (inj pretty) in H. lia.
Qed.

(** *** The probing loop *)

Lemma free_iff posts s : free toLowerCase posts s ↔ toLowerCase s ∉ map slug posts.
Proof.
  unfold free, findOne. induction posts as [|p posts IH]; simpl.
  - split; [intros _; apply not_elem_of_nil | done].
  - rewrite not_elem_of_cons. case_bool_decide as E.
    + split; [discriminate | intros [Hne _]; congruence].
    + rewrite IH. split; [intros H; split; [congruence | done] | intros [_ H]; done].
Qed.

#[local] Instance free_dec posts s : Decision (free toLowerCase posts s).
Proof.
  destruct (decide (toLowerCase s ∈ map slug posts)) as [Hin|Hn].
  - right. intros H. by apply free_iff in H.
  - left. by apply free_iff.
Defined.

(** Among the first [length posts + 1] candidates one is free: they are
    pairwise different, the cast leaves them as they are, and the
    collection holds only [length posts] slugs. *)
Lemma some_candidate_free posts base :
  (∀ k, toLowerCase (nth_candidate base k) = nth_candidate base k) →
  ∃ k, (k ≤ length posts)%nat ∧ free toLowerCase posts (nth_candidate base k).
Proof.
  intros Hcast.
  set (cands := map (nth_candidate base) (seq 0 (S (length posts)))).
  destruct (decide (Exists (free toLowerCase posts) cands)) as [Hex|Hnone].
  - apply Exists_exists in Hex as (s & Hs & Hfree).
    apply list_elem_of_fmap in Hs as (k & -> & Hk).
    apply elem_of_seq in Hk. exists k. split; [lia | done].
  - exfalso. apply not_Exists_Forall in Hnone; [|intros; apply _].
    assert (Hsub : cands ⊆+ map slug posts).
    { apply NoDup_submseteq.
      - apply (NoDup_fmap_2 (nth_candidate base) (Inj0 := nth_candidate_inj base)).
        apply NoDup_seq.
      - intros s Hs. eapply Forall_forall in Hnone; [|exact Hs].
        simpl in Hnone.
        apply list_elem_of_fmap in Hs as (k & -> & _).
        destruct (decide (nth_candidate base k ∈ map slug posts)) as [|Hn]; [done|].
        exfalso. apply Hnone. apply free_iff. by rewrite Hcast. }
    apply submseteq_length in Hsub. unfold cands in Hsub.
    rewrite !length_map, length_seq in Hsub. lia.
Qed.

(** The first free candidate. *)
Lemma first_free_below posts base n :
  free toLowerCase posts (nth_candidate base n) →
  ∃ k, (k ≤ n)%nat ∧ free toLowerCase posts (nth_candidate base k)
       ∧ ∀ j, (j < k)%nat → ¬ free toLowerCase posts (nth_candidate base j).
Proof.
  induction n as [n IH] using lt_wf_ind. intros Hn.
  destruct (decide (Exists (λ j, free toLowerCase posts (nth_candidate base j)) (seq 0 n)))
    as [Hex|Hnone].
  - apply Exists_exists in Hex as (j & Hj & Hfree).
    apply elem_of_seq in Hj.
    destruct (IH j ltac:(lia) Hfree) as (k & Hk & Hf & Hmin).
    exists k. split; [lia | done].
  - exists n. split; [lia|]. split; [done|].
    intros j Hj Hfree. apply Hnone. apply Exists_exists.
    exists j. split; [apply elem_of_seq; lia | done].
Qed.

(** The loop, started at the candidate of index [c], stops at the first
    free candidate from there on. *)
Lemma probe_reaches posts base k :
  ∀ fuel c,
    (∀ j, (c ≤ j < c + k)%nat → ¬ free toLowerCase posts (nth_candidate base j)) →
    free toLowerCase posts (nth_candidate base (c + k)) →
    (k ≤ fuel)%nat →
    probe toLowerCase fuel posts base (nth_candidate base c) (N.of_nat c + 1)
    = Some (nth_candidate base (c + k)).
Proof.
  induction k as [|k IH]; intros fuel c Htaken Hfree Hfuel.
  - rewrite Nat.add_0_r in Hfree. unfold free in Hfree.
    destruct fuel; simpl; rewrite Hfree; by rewrite Nat.add_0_r.
  - destruct fuel as [|fuel]; [lia|]. simpl.
    destruct (findOne toLowerCase posts (nth_candidate base c)) eqn:E.
    + replace (candidate base (N.of_nat c + 1)) with (nth_candidate base (S c)).
      2:{ simpl. f_equal. lia. }
      replace (N.of_nat c + 1 + 1)%N with (N.of_nat (S c) + 1)%N by lia.
      rewrite (IH fuel (S c)).
      * f_equal. f_equal. lia.
      * intros j Hj. apply Htaken. lia.
      * by replace (S c + k)%nat with (c + S k)%nat by lia.
      * lia.
    + exfalso. apply (Htaken c); [lia | done].
Qed.

(** What the loop returns is free. *)
Lemma probe_free posts base :
  ∀ fuel slug0 counter s,
    probe toLowerCase fuel posts base slug0 counter = Some s → free toLowerCase posts s.
Proof.
  induction fuel as [|fuel IH]; intros slug0 counter s H; simpl in H.
  - destruct (findOne toLowerCase posts slug0) eqn:E; [discriminate|]. by simplify_eq.
  - destruct (findOne toLowerCase posts slug0) eqn:E; [|by simplify_eq].
    by apply IH in H.
Qed.

End Transform.

Lemma lower_ascii_lowercases : lowercases lower_ascii.
Proof.
  split.
  - intros s c Hc. unfold lower_ascii in Hc.
    apply list_elem_of_fmap in Hc as (d & -> & _).
    destruct (is_capital d) eqn:E; [|exact E]. revert E. unit_arith.
  - intros s Hs. unfold lower_ascii. induction Hs as [|c r [_ Hc] Hr IH]; [done|].
    simpl. rewrite Hc. by rewrite IH.
Qed.

(** C6. The base slug of a title is the title in small letters without
    the code units that are not word characters, white space or hyphens,
    with every run of white space and hyphens made one hyphen: what the
    replacements of white space and of repeated hyphens do one after the
    other.  It is made of digits, the letters a to z, underscores and
    hyphens, and no hyphen follows a hyphen in it.  [trim] takes the white
    space off the two ends of a string and nothing else; on the slug there
    is none left to take.  With fuel for one probe per stored post the
    loop returns; the slug it returns is not in the collection; it is the
    base slug, or the base slug with the first suffix -k whose slug is
    free, every earlier candidate being taken.  So once a post is stored
    under the returned slug, no later call returns that slug again. *)
Theorem generateUniqueSlug_unique (toLowerCase : t → t) (posts : list BlogPost)
    (title : t) (fuel : nat) :
  lowercases toLowerCase →
  (length posts ≤ fuel)%nat →
  let base := baseSlug toLowerCase title in
  base = join_runs false
           (filter (λ c, is_word c = true ∨ is_space c = true ∨ is_hyphen c = true)
              (toLowerCase title : list N))
  ∧ Forall (λ c, slug_unit c = true) base
  ∧ single_hyphens base = true
  ∧ (∀ s, ∃ a b, s = a ++ trim s ++ b
                 ∧ Forall (λ c, is_space c = true) a
                 ∧ Forall (λ c, is_space c = true) b
                 ∧ (∀ c, head (trim s) = Some c → is_space c = false)
                 ∧ (∀ c, last (trim s) = Some c → is_space c = false))
  ∧ ∃ (s : t) (k : nat),
      generateUniqueSlug toLowerCase fuel posts title = Some s
      ∧ findOne toLowerCase posts s = None
      ∧ toLowerCase s = s
      ∧ s = (match k with
             | O => base
             | S _ => base ++ hyphen :: of_string (pretty (N.of_nat k))
             end)
      ∧ (∀ j, (j < k)%nat → findOne toLowerCase posts (nth_candidate base j) ≠ None)
      ∧ ∀ title' other fuel',
          generateUniqueSlug toLowerCase fuel' (posts ++ [mkPost (toLowerCase s) other]) title'
          ≠ Some s.
Proof.
  intros Hlow Hfuel base.
  assert (Hunits : Forall (λ c, slug_unit c = true) base) by (by apply baseSlug_units).
  assert (Hcast : ∀ k, toLowerCase (nth_candidate base k) = nth_candidate base k).
  { intros k. apply cast_fixed; [exact Hlow|]. by apply candidate_units. }
  split; [|split; [|split; [|split]]].
  - unfold base. rewrite baseSlug_join. by rewrite strip_filter.
  - exact Hunits.
  - unfold base. rewrite baseSlug_join. apply (join_runs_single false).
  - apply trim_spec.
  - destruct (some_candidate_free toLowerCase posts base Hcast) as (n & Hn & Hfree).
    destruct (first_free_below toLowerCase posts base n Hfree) as (k & Hk & Hf & Hmin).
    exists (nth_candidate base k), k.
    split; [|split; [|split; [|split; [|split]]]].
    + unfold generateUniqueSlug. fold base.
      apply (probe_reaches toLowerCase posts base k fuel 0%nat); [|done|lia].
      intros j Hj. apply Hmin. lia.
    + exact Hf.
    + apply Hcast.
    + by destruct k.
    + intros j Hj. apply Hmin, Hj.
    + intros title' other fuel' H. unfold generateUniqueSlug in H.
      apply probe_free in H. apply free_iff in H. apply H.
      rewrite map_app. apply elem_of_app. right. simpl. apply list_elem_of_here.
Qed.

Lemma generateUniqueSlug_unique_witness :
  let posts := [mkPost (of_string "hello-world") (of_string "Hello World");
                mkPost (of_string "hello-world-1") (of_string "Hello, World")] in
  lowercases lower_ascii
  ∧ (length posts ≤ 2)%nat
  ∧ baseSlug lower_ascii (of_string "  Hello,  World -- and_More 2!")
    = of_string "-hello-world-and_more-2"
  ∧ baseSlug lower_ascii (of_string "Hello  World!") = of_string "hello-world"
  ∧ generateUniqueSlug lower_ascii 2 posts (of_string "Hello  World!")
    = Some (of_string "hello-world-2")
  ∧ ∃ s k, generateUniqueSlug lower_ascii 2 posts (of_string "Hello  World!") = Some s
           ∧ findOne lower_ascii posts s = None
           ∧ ∀ j, (j < k)%nat →
                  findOne lower_ascii posts
                    (nth_candidate (baseSlug lower_ascii (of_string "Hello  World!")) j)
                  ≠ None.
Proof.
  intros posts.
  assert (Hfuel : (length posts ≤ 2)%nat) by (simpl; lia).
  split; [exact lower_ascii_lowercases|]. split; [exact Hfuel|].
  split; [vm_compute; reflexivity|]. split; [vm_compute; reflexivity|].
  split; [vm_compute; reflexivity|].
  destruct (generateUniqueSlug_unique lower_ascii posts (of_string "Hello  World!") 2
              lower_ascii_lowercases Hfuel)
    as (_ & _ & _ & _ & s & k & H1 & H2 & _ & _ & H4 & _).
  exists s, k. split; [exact H1|]. split; [exact H2 | exact H4].
Defined.

End SlugProps.

(** ** The trend metric *)

Module TrendProps.

Import AdminStats.

Local Open Scope Q_scope.

(** Both aggregator methods report [trend] of their two period counts. *)
Lemma getComparativeStats_trend model currentStart prevStart :
  ∃ current previous : Z,
    (0 <= current)%Z ∧ (0 <= previous)%Z
    ∧ snd (getComparativeStats model currentStart prevStart)
      = trend (inject_Z current) (inject_Z previous).
Proof. eexists _, _. split; [|split; [|reflexivity]]; unfold countDocuments; lia. Qed.

Lemma getSubscriberGrowthStats_trend subscribers now days :
  ∃ previous : Z,
    (0 <= previous)%Z
    ∧ snd (fst (getSubscriberGrowthStats subscribers now days))
      = trend (inject_Z (snd (getSubscriberGrowthStats subscribers now days)))
          (inject_Z previous).
Proof. eexists. split; [|reflexivity]. unfold countDocuments. lia. Qed.

(** *** The computed quotient against the exact one *)

Lemma tiny_below_half_ulp : 2 ^ (-1022) <= (99 # 100) * Number.u.
Proof. vm_compute. discriminate. Qed.

(** For period counts (integers below 2^53) the double arithmetic gives
    the exact value of [(current - previous) / previous * 100] up to a
    relative error of 300 * 2^-53. *)
Lemma raw_error (current previous : Z) :
  (0 <= current < 2 ^ 53)%Z → (0 < previous < 2 ^ 53)%Z →
  Qabs (raw (inject_Z current) (inject_Z previous)
        - inject_Z (current - previous) / inject_Z previous * 100)
  <= Qabs (inject_Z (current - previous) / inject_Z previous) * (300 * Number.u).
Proof.
  intros Hc Hp. unfold raw, Number.mul, Number.div, Number.sub.
  set (P := inject_Z previous).
  set (x := inject_Z (current - previous) / P).
  assert (HP : 0 < P).
  { unfold P. change 0 with (inject_Z 0). rewrite <- Zlt_Qlt. lia. }
  assert (HP' : P <= inject_Z (2 ^ 53)).
  { unfold P. rewrite <- Zle_Qle. lia. }
  assert (Hs : Number.binary64 (inject_Z current - P) == inject_Z (current - previous)).
  { rewrite <- (NumberProps.binary64_exact_int (current - previous)) by lia.
    apply NumberProps.binary64_proper. unfold P, Zminus.
    rewrite inject_Z_plus, inject_Z_opp. ring. }
  assert (Hx1 : Number.binary64 (Number.binary64 (inject_Z current - P) / P)
                == Number.binary64 x).
  { apply NumberProps.binary64_proper. unfold x. rewrite Hs. reflexivity. }
  set (x1 := Number.binary64 (Number.binary64 (inject_Z current - P) / P)) in *.
  destruct (Z.eq_dec current previous) as [E|E].
  - (* no change between the periods: everything is 0 *)
    assert (Hx0 : x == 0).
    { unfold x. replace (current - previous)%Z with 0%Z by lia.
      unfold Qdiv. apply Qmult_0_l. }
    assert (Hx10 : x1 == 0).
    { rewrite Hx1. rewrite (NumberProps.binary64_proper x 0 Hx0). reflexivity. }
    assert (Hr : Number.binary64 (x1 * 100) == 0).
    { assert (H0 : x1 * 100 == 0) by (rewrite Hx10; reflexivity).
      rewrite (NumberProps.binary64_proper _ 0 H0). reflexivity. }
    rewrite Hr, Hx0. vm_compute. discriminate.
  - (* the quotient is at least 2^-53 in absolute value *)
    assert (HxP : Qabs x * P == inject_Z (Z.abs (current - previous))).
    { rewrite <- (Qabs_pos P) at 1 by lra. rewrite <- Qabs_Qmult.
      unfold x, Qdiv. rewrite <- Qmult_assoc, (Qmult_comm (/ P)), Qmult_inv_r by lra.
      rewrite Qmult_1_r. reflexivity. }
    assert (Hd1 : 1 <= inject_Z (Z.abs (current - previous))).
    { change 1 with (inject_Z 1). rewrite <- Zle_Qle. lia. }
    pose proof (Qabs_nonneg x) as HA.
    assert (HA53 : Number.u <= Qabs x).
    { change (inject_Z (2 ^ 53)) with (9007199254740992 # 1) in HP'.
      unfold Number.u. nra. }
    pose proof tiny_below_half_ulp as Htiny.
    assert (Hu0 : 0 < Number.u) by reflexivity.
    assert (Hu1 : Number.u <= 1 # 100) by (vm_compute; discriminate).
    (* the division *)
    assert (E1 : Qabs (x1 - x) <= Qabs x * Number.u).
    { rewrite Hx1. apply NumberProps.binary64_error. right. nra. }
    (* the multiplication *)
    pose proof (Qabs_triangle (x1 - x) x) as Hup.
    assert (Hx1x : x1 - x + x == x1) by ring. rewrite Hx1x in Hup.
    pose proof (Qabs_triangle_reverse x (x - x1)) as Hdown.
    assert (Hxx1 : x - (x - x1) == x1) by ring. rewrite Hxx1 in Hdown.
    assert (Hsym : Qabs (x - x1) == Qabs (x1 - x)).
    { rewrite <- Qabs_opp. apply Qabs_wd. ring. }
    rewrite Hsym in Hdown.
    assert (E2 : Qabs (Number.binary64 (x1 * 100) - x1 * 100)
                 <= Qabs (x1 * 100) * Number.u).
    { apply NumberProps.binary64_error. right.
      rewrite Qabs_Qmult. change (Qabs 100) with 100. nra. }
    rewrite Qabs_Qmult in E2. change (Qabs 100) with 100 in E2.
    set (r := Number.binary64 (x1 * 100)) in *. clearbody r.
    set (A := Qabs x) in *. set (B := Qabs x1) in *.
    pose proof E1 as E1'.
    apply Qabs_Qle_condition in E1' as [E1a E1b].
    apply Qabs_Qle_condition in E2 as [E2a E2b].
    set (D := Qabs (x1 - x)) in *.
    clearbody A B D x1. clear Hx1 Hs Hx1x Hxx1 Hsym HxP Htiny. clearbody x.
    unfold Number.u in *.
    apply Qabs_Qle_condition. split; lra.
Qed.

(** C2 as stated fails: for one document in the current period and three
    in the previous one the formula's value is -200/3, which the double
    arithmetic gives as -66.66666666666666, but the code returns -66.7,
    the value [toFixed(1)] prints. *)
Lemma trend_not_the_plain_quotient :
  (0 < 3
   ∧ trend_spec 1 3 == -200 # 3
   ∧ trend 1 3 == Number.binary64 (-667 # 10))
  ∧ ¬ trend 1 3 == trend_spec 1 3
  ∧ ¬ trend 1 3 == raw 1 3.
Proof.
  split; [split; [reflexivity | split; vm_compute; reflexivity]|].
  split; intros H; vm_compute in H; discriminate H.
Qed.

(** The branches of [trend], for any two Numbers. *)
Lemma trend_cases (current previous : Q) :
  (0 < previous →
   trend current previous = Number.toFixed1 (raw current previous)
   ∧ (Qabs (raw current previous) < inject_Z (10 ^ 21) →
      ∃ n : Z,
        trend current previous == Number.binary64 (inject_Z n / 10)
        ∧ Qabs (inject_Z n / 10 - raw current previous) <= 1 # 20))
  ∧ (previous == 0 → 0 < current → trend current previous = 100)
  ∧ (previous == 0 → current == 0 → trend current previous = 0).
Proof.
  split; [|split].
  - intros Hp. unfold trend.
    assert (Hg : Number.gtb previous 0 = true) by (apply NumberProps.gtb_true, Hp).
    rewrite Hg. split; [reflexivity|].
    apply NumberProps.toFixed1_tenths.
  - intros Hp Hc. unfold trend.
    assert (Hg : Number.gtb previous 0 = false).
    { apply NumberProps.gtb_false. rewrite Hp. apply Qle_refl. }
    rewrite Hg.
    assert (Hg' : Number.gtb current 0 = true) by (apply NumberProps.gtb_true, Hc).
    rewrite Hg'. reflexivity.
  - intros Hp Hc. unfold trend.
    assert (Hg : Number.gtb previous 0 = false).
    { apply NumberProps.gtb_false. rewrite Hp. apply Qle_refl. }
    rewrite Hg.
    assert (Hg' : Number.gtb current 0 = false).
    { apply NumberProps.gtb_false. rewrite Hc. apply Qle_refl. }
    rewrite Hg'. reflexivity.
Qed.

(** The computed quotient of two period counts stays below the bound from
    which [toFixed] changes its output format. *)
Lemma raw_small (current previous : Z) :
  (0 <= current < 2 ^ 53)%Z → (0 < previous < 2 ^ 53)%Z →
  Qabs (raw (inject_Z current) (inject_Z previous)) < inject_Z (10 ^ 21).
Proof.
  intros Hc Hp.
  pose proof (raw_error current previous Hc Hp) as He.
  set (r := raw (inject_Z current) (inject_Z previous)) in *.
  set (P := inject_Z previous) in *.
  set (x := inject_Z (current - previous) / P) in *.
  assert (HP : 1 <= P).
  { unfold P. change 1 with (inject_Z 1). rewrite <- Zle_Qle. lia. }
  assert (HxP : Qabs x * P == inject_Z (Z.abs (current - previous))).
  { rewrite <- (Qabs_pos P) at 1 by lra. rewrite <- Qabs_Qmult.
    unfold x, Qdiv. rewrite <- Qmult_assoc, (Qmult_comm (/ P)), Qmult_inv_r by lra.
    rewrite Qmult_1_r. reflexivity. }
  assert (Hd : inject_Z (Z.abs (current - previous)) <= inject_Z (2 ^ 53)).
  { rewrite <- Zle_Qle. lia. }
  change (inject_Z (2 ^ 53)) with (9007199254740992 # 1) in Hd.
  pose proof (Qabs_nonneg x) as HA.
  pose proof (Qabs_triangle (r - x * 100) (x * 100)) as Ht.
  assert (Hr : r - x * 100 + x * 100 == r) by ring. rewrite Hr in Ht.
  rewrite (Qabs_Qmult x 100) in Ht. change (Qabs 100) with 100 in Ht.
  set (A := Qabs x) in *. set (R := Qabs r) in *. set (E := Qabs (r - x * 100)) in *.
  set (d := inject_Z (Z.abs (current - previous))) in *.
  change (inject_Z (10 ^ 21)) with (1000000000000000000000 # 1).
  unfold Number.u in *. clearbody A R E d P. clear Hr. nra.
Qed.

(** C2, amended.  For period counts with a positive previous count the
    trend is [(current - previous) / previous * 100] rounded to one
    decimal by [toFixed(1)]: it is the double nearest to [n / 10] for an
    integer [n], and [n / 10] lies within 0.05 of the quotient, up to the
    relative rounding error 300 * 2^-53 of the double arithmetic.  For a
    previous count of 0 the trend is 100 when the current count is
    positive and 0 when that is 0 too.  The four cases of the
    specification hold. *)
Theorem trend_rounded_to_one_decimal (current previous : Z) :
  (0 <= current < 2 ^ 53)%Z → (0 <= previous < 2 ^ 53)%Z →
  let t := trend (inject_Z current) (inject_Z previous) in
  let exact := inject_Z (current - previous) / inject_Z previous in
  ((0 < previous)%Z →
   t = Number.toFixed1 (raw (inject_Z current) (inject_Z previous))
   ∧ ∃ n : Z,
       t == Number.binary64 (inject_Z n / 10)
       ∧ Qabs (inject_Z n / 10 - exact * 100)
         <= (1 # 20) + Qabs exact * (300 * Number.u))
  ∧ (previous = 0%Z → (0 < current)%Z → t = 100)
  ∧ (previous = 0%Z → current = 0%Z → t = 0)
  ∧ (trend 0 0 == 0 ∧ trend 5 0 == 100 ∧ trend 10 5 == 100 ∧ trend 5 10 == -50).
Proof.
  intros Hc Hp t exact.
  destruct (trend_cases (inject_Z current) (inject_Z previous)) as (H1 & H2 & H3).
  split; [|split; [|split]].
  - intros Hpos.
    assert (HP : 0 < inject_Z previous).
    { change 0 with (inject_Z 0). rewrite <- Zlt_Qlt. exact Hpos. }
    destruct (H1 HP) as [Ht Hn]. split; [exact Ht|].
    destruct (Hn (raw_small current previous Hc ltac:(lia))) as (n & Hn1 & Hn2).
    exists n. split; [exact Hn1|].
    pose proof (raw_error current previous Hc ltac:(lia)) as He.
    fold exact in He.
    set (r := raw (inject_Z current) (inject_Z previous)) in *.
    pose proof (Qabs_triangle (inject_Z n / 10 - r) (r - exact * 100)) as Htri.
    assert (Heq : inject_Z n / 10 - r + (r - exact * 100)
                  == inject_Z n / 10 - exact * 100) by ring.
    rewrite Heq in Htri. lra.
  - intros -> Hpos. apply H2; [reflexivity|].
    change 0 with (inject_Z 0). rewrite <- Zlt_Qlt. exact Hpos.
  - intros -> ->. apply H3; reflexivity.
  - repeat split; vm_compute; reflexivity.
Qed.

Lemma trend_rounded_to_one_decimal_witness :
  (0 <= 1 < 2 ^ 53)%Z ∧ (0 < 3 < 2 ^ 53)%Z
  ∧ trend 1 3 = Number.toFixed1 (raw 1 3)
  ∧ (∃ n : Z, trend 1 3 == Number.binary64 (inject_Z n / 10)
              ∧ Qabs (inject_Z n / 10 - (-2 # 3) * 100)
                <= (1 # 20) + (2 # 3) * (300 * Number.u))
  ∧ trend 4 0 = 100
  ∧ trend 0 0 = 0.
Proof.
  assert (R1 : (0 <= 1 < 2 ^ 53)%Z) by (split; [discriminate | reflexivity]).
  assert (R3 : (0 <= 3 < 2 ^ 53)%Z) by (split; [discriminate | reflexivity]).
  assert (R4 : (0 <= 4 < 2 ^ 53)%Z) by (split; [discriminate | reflexivity]).
  assert (R0 : (0 <= 0 < 2 ^ 53)%Z) by (split; [discriminate | reflexivity]).
  destruct (trend_rounded_to_one_decimal 1 3 R1 R3) as (H1 & _).
  destruct (trend_rounded_to_one_decimal 4 0 R4 R0) as (_ & H2 & _).
  destruct (trend_rounded_to_one_decimal 0 0 R0 R0) as (_ & _ & H3 & _).
  assert (Hp : (0 < 3)%Z) by reflexivity.
  destruct (H1 Hp) as [Ha Hb].
  split; [exact R1|]. split; [split; [reflexivity | reflexivity]|].
  split; [exact Ha|]. split; [exact Hb|].
  split; [apply H2; reflexivity | apply H3; reflexivity].
Defined.

End TrendProps.

(** ** The tag cloud *)

Module TagCloudProps.

Import TagController.

#[local] Instance by_count_desc_total : Total by_count_desc.
Proof. intros a b. unfold by_count_desc. lia. Qed.

#[local] Instance by_count_desc_trans : Transitive by_count_desc.
Proof. intros a b c. unfold by_count_desc. lia. Qed.





(** *** The computed size against the exact formula *)

Lemma tiny_below_ulp : (2 ^ (-1022) <= (1 # 2) * Number.u)%Q.
Proof. vm_compute. discriminate. Qed.


(** *** The result set *)



Lemma getTagCloud_tags store query :
  map fst (getTagCloud store query)
  = find_cloud store (or_default (minCount query) 1) (or_default (limit query) 50).
Proof.
  unfold getTagCloud. rewrite map_map. simpl. apply map_id.
Qed.





(** *** The font sizes of the cloud *)






End TagCloudProps.

(** * Part 3: further properties of the code *)

(** ** More on Numbers: [toFixed] is monotone *)

Module RoundingProps.

Import Number NumberProps.

Local Open Scope Q_scope.

Lemma tenths_nonneg a : 0 <= a -> (0 <= tenths a)%Z.
Proof.
  intros Ha. unfold tenths. rewrite <- (Qfloor_Z 0).
  apply Qfloor_resp_le. change (inject_Z 0) with 0. lra.
Qed.

Lemma tenths_mono a b : a <= b -> (tenths a <= tenths b)%Z.
Proof. intros H. unfold tenths. apply Qfloor_resp_le. lra. Qed.

(** Below 10^21 the tenths stay at or below 10^22. *)
Lemma tenths_bounded a :
  0 <= a -> a < inject_Z (10 ^ 21) -> (tenths a <= 10 ^ 22)%Z.
Proof.
  intros Ha Hlt. unfold tenths.
  pose proof (Qfloor_le (a * 10 + (1 # 2))) as Hf.
  assert (H : inject_Z (Qfloor (a * 10 + (1 # 2))) < inject_Z (10 ^ 22 + 1)).
  { change (inject_Z (10 ^ 22 + 1)) with (10000000000000000000001 # 1).
    change (inject_Z (10 ^ 21)) with (1000000000000000000000 # 1) in Hlt. lra. }
  rewrite <- Zlt_Qlt in H. lia.
Qed.

(** The value that [toFixed(1)] prints: the tenths with the sign. *)
Lemma printed_mono x y :
  x <= y ->
  (if geb x 0 then 1 else -1) * (inject_Z (tenths (Qabs x)) / 10)
  <= (if geb y 0 then 1 else -1) * (inject_Z (tenths (Qabs y)) / 10).
Proof.
  intros Hxy. unfold Qdiv. change (/ 10) with (1 # 10).
  destruct (geb x 0) eqn:Ex; destruct (geb y 0) eqn:Ey.
  - apply geb_true in Ex. apply geb_true in Ey.
    assert (H : (tenths (Qabs x) <= tenths (Qabs y))%Z).
    { apply tenths_mono. rewrite !Qabs_pos by assumption. exact Hxy. }
    rewrite Zle_Qle in H. lra.
  - apply geb_true in Ex. apply geb_false in Ey. lra.
  - pose proof (tenths_nonneg (Qabs x) (Qabs_nonneg x)) as H1.
    pose proof (tenths_nonneg (Qabs y) (Qabs_nonneg y)) as H2.
    rewrite Zle_Qle in H1, H2. change (inject_Z 0) with 0 in H1, H2. lra.
  - apply geb_false in Ex. apply geb_false in Ey.
    assert (H : (tenths (Qabs y) <= tenths (Qabs x))%Z).
    { apply tenths_mono. rewrite !Qabs_neg by lra. lra. }
    rewrite Zle_Qle in H. lra.
Qed.

Lemma binary64_10_21 : binary64 (inject_Z (10 ^ 21)) == inject_Z (10 ^ 21).
Proof. vm_compute. reflexivity. Qed.

Lemma round_pos_proper a b : 0 < a -> a == b -> round_pos a == round_pos b.
Proof.
  intros Ha Hab. apply Qle_antisym; apply round_pos_mono; lra.
Qed.

Lemma binary64_opp x : binary64 (- x) == - binary64 x.
Proof.
  unfold binary64.
  destruct (Qcompare_spec x 0) as [H|H|H];
  destruct (Qcompare_spec (- x) 0) as [H'|H'|H']; try lra.
  rewrite (round_pos_proper (- - x) x); [reflexivity | lra | ring].
Qed.

(** [parseFloat(x.toFixed(1))] is monotone in [x]. *)
Lemma toFixed1_mono x y : x <= y -> toFixed1 x <= toFixed1 y.
Proof.
  intros Hxy. unfold toFixed1.
  set (L := inject_Z (10 ^ 21)).
  assert (HL : 0 < L) by reflexivity.
  assert (HbL : binary64 L == L) by apply binary64_10_21.
  destruct (geb (Qabs x) L) eqn:Ex; destruct (geb (Qabs y) L) eqn:Ey.
  - exact Hxy.
  - (* x is large, so it is below -10^21 *)
    apply geb_true in Ex. apply geb_false in Ey.
    assert (Hx : x <= - L).
    { destruct (Qlt_le_dec x 0) as [Hn|Hp].
      - rewrite Qabs_neg in Ex by lra. lra.
      - rewrite Qabs_pos in Ex by lra.
        assert (Hy : L <= y) by lra. rewrite Qabs_pos in Ey by lra. lra. }
    apply Qle_trans with (- L); [exact Hx|].
    apply Qle_trans with (binary64 (- L)).
    { rewrite binary64_opp, HbL. apply Qle_refl. }
    apply binary64_mono.
    destruct (geb y 0) eqn:E0.
    + apply geb_true in E0.
      pose proof (tenths_nonneg (Qabs y) (Qabs_nonneg y)) as H1.
      rewrite Zle_Qle in H1. change (inject_Z 0) with 0 in H1.
      unfold Qdiv. change (/ 10) with (1 # 10). lra.
    + apply geb_false in E0.
      pose proof (tenths_bounded (Qabs y) (Qabs_nonneg y) Ey) as H1.
      rewrite Zle_Qle in H1.
      change (inject_Z (10 ^ 22)) with (10 * L) in H1.
      unfold Qdiv. change (/ 10) with (1 # 10). lra.
  - (* y is large, so it is above 10^21 *)
    apply geb_false in Ex. apply geb_true in Ey.
    assert (Hy : L <= y).
    { destruct (Qlt_le_dec y 0) as [Hn|Hp].
      - rewrite Qabs_neg in Ey by lra.
        assert (Hx : x <= - L) by lra. rewrite Qabs_neg in Ex by lra. lra.
      - rewrite Qabs_pos in Ey by lra. lra. }
    apply Qle_trans with L; [|exact Hy].
    apply Qle_trans with (binary64 L); [|rewrite HbL; apply Qle_refl].
    apply binary64_mono.
    destruct (geb x 0) eqn:E0.
    + apply geb_true in E0.
      pose proof (tenths_bounded (Qabs x) (Qabs_nonneg x) Ex) as H1.
      rewrite Zle_Qle in H1.
      change (inject_Z (10 ^ 22)) with (10 * L) in H1.
      unfold Qdiv. change (/ 10) with (1 # 10). lra.
    + apply geb_false in E0.
      pose proof (tenths_nonneg (Qabs x) (Qabs_nonneg x)) as H1.
      rewrite Zle_Qle in H1. change (inject_Z 0) with 0 in H1.
      unfold Qdiv. change (/ 10) with (1 # 10). lra.
  - apply binary64_mono, printed_mono, Hxy.
Qed.

End RoundingProps.

(** ** The trend metric: order, sign and floor *)

Module TrendOrderProps.

Import AdminStats.

Local Open Scope Q_scope.

Lemma binary64_zero x : x == 0 -> Number.binary64 x == 0.
Proof. intros H. rewrite (NumberProps.binary64_proper x 0 H). reflexivity. Qed.

Lemma toFixed1_proper x y : x == y -> Number.toFixed1 x == Number.toFixed1 y.
Proof.
  intros H. apply Qle_antisym; apply RoundingProps.toFixed1_mono; rewrite H; apply Qle_refl.
Qed.

Lemma raw_mono c1 c2 p : 0 < p -> c1 <= c2 -> raw c1 p <= raw c2 p.
Proof.
  intros Hp Hc. unfold raw, Number.mul, Number.div, Number.sub.
  apply NumberProps.binary64_mono. apply Qmult_le_r; [reflexivity|].
  apply NumberProps.binary64_mono. unfold Qdiv.
  apply Qmult_le_r; [apply Qinv_lt_0_compat, Hp|].
  apply NumberProps.binary64_mono. lra.
Qed.

Lemma raw_same p : 0 < p -> raw p p == 0.
Proof.
  intros Hp. unfold raw, Number.mul, Number.div, Number.sub.
  apply binary64_zero.
  assert (H1 : Number.binary64 (p - p) == 0) by (apply binary64_zero; ring).
  assert (H2 : Number.binary64 (Number.binary64 (p - p) / p) == 0).
  { apply binary64_zero. rewrite H1. unfold Qdiv. ring. }
  rewrite H2. ring.
Qed.

Lemma trend_le (current1 current2 previous : Q) :
  current1 <= current2 →
  trend current1 previous <= trend current2 previous.
Proof.
  intros Hc. unfold trend.
  destruct (Number.gtb previous 0) eqn:Ep.
  - apply NumberProps.gtb_true in Ep.
    apply RoundingProps.toFixed1_mono, raw_mono; assumption.
  - destruct (Number.gtb current1 0) eqn:E1; destruct (Number.gtb current2 0) eqn:E2;
      try apply Qle_refl.
    + apply NumberProps.gtb_true in E1. apply NumberProps.gtb_false in E2. lra.
    + discriminate.
Qed.

(** X1. The trend does not decrease when the current count grows, whatever
    the previous count is: neither the three roundings of the quotient nor
    the rounding to one decimal turn the order round. *)
Theorem trend_monotone (current1 current2 previous : Q) :
  current1 <= current2 →
  trend current1 previous <= trend current2 previous.
Proof. apply trend_le. Qed.

Lemma trend_monotone_witness :
  1 <= 2 ∧ trend 1 3 <= trend 2 3 ∧ trend 0 0 <= trend 4 0.
Proof.
  split; [discriminate|]. split.
  - apply (trend_monotone 1 2 3). discriminate.
  - apply (trend_monotone 0 4 0). discriminate.
Defined.

(** X2. For period counts with a positive previous count the trend has
    the sign of the change: it is 0 for equal counts, at least 0 when the
    current count is the larger one and at most 0 when it is the smaller
    one; and it never falls below -100, the trend of a current count 0. *)
Theorem trend_sign_and_floor (current previous : Z) :
  (0 <= current)%Z → (0 < previous < 2 ^ 53)%Z →
  let t := trend (inject_Z current) (inject_Z previous) in
  ((previous <= current)%Z → 0 <= t)
  ∧ ((current <= previous)%Z → t <= 0)
  ∧ (current = previous → t == 0)
  ∧ -100 <= t
  ∧ (current = 0%Z → t == -100).
Proof.
  intros Hc Hp t.
  set (P := inject_Z previous).
  assert (HP : 0 < P).
  { unfold P. change 0 with (inject_Z 0). rewrite <- Zlt_Qlt. lia. }
  assert (Hg : Number.gtb P 0 = true) by (apply NumberProps.gtb_true, HP).
  assert (Hsame : trend P P == 0).
  { unfold trend. rewrite Hg. rewrite (toFixed1_proper _ 0 (raw_same P HP)). reflexivity. }
  assert (Hzero : trend 0 P == -100).
  { unfold trend. rewrite Hg. unfold raw, Number.mul, Number.div, Number.sub.
    assert (Hd : Number.binary64 P == P).
    { unfold P. apply NumberProps.binary64_exact_int. lia. }
    assert (H1 : Number.binary64 (0 - P) == - P).
    { rewrite (NumberProps.binary64_proper (0 - P) (- P)) by ring.
      rewrite RoundingProps.binary64_opp, Hd. reflexivity. }
    assert (H2 : Number.binary64 (Number.binary64 (0 - P) / P) == -1).
    { rewrite (NumberProps.binary64_proper _ (-1)); [reflexivity|].
      rewrite H1. field. lra. }
    assert (H3 : Number.binary64 (Number.binary64 (Number.binary64 (0 - P) / P) * 100)
                 == -100).
    { rewrite (NumberProps.binary64_proper _ (-100)); [reflexivity|].
      rewrite H2. reflexivity. }
    rewrite (toFixed1_proper _ (-100) H3). reflexivity. }
  assert (Hlow : -100 <= t).
  { rewrite <- Hzero. apply trend_le.
    change 0 with (inject_Z 0). rewrite <- Zle_Qle. exact Hc. }
  split; [|split; [|split; [|split]]].
  - intros H. rewrite <- Hsame. apply trend_le. unfold P. rewrite <- Zle_Qle. exact H.
  - intros H. rewrite <- Hsame. apply trend_le. unfold P. rewrite <- Zle_Qle. exact H.
  - intros ->. exact Hsame.
  - exact Hlow.
  - intros ->. exact Hzero.
Qed.

Lemma trend_sign_and_floor_witness :
  (0 <= 0)%Z ∧ (0 < 7 < 2 ^ 53)%Z
  ∧ trend 0 7 == -100 ∧ -100 <= trend 2 7 ∧ trend 2 7 <= 0 ∧ 0 <= trend 9 7.
Proof.
  assert (R7 : (0 < 7 < 2 ^ 53)%Z) by (split; reflexivity).
  destruct (trend_sign_and_floor 0 7 ltac:(discriminate) R7) as (_ & _ & _ & _ & H0).
  destruct (trend_sign_and_floor 2 7 ltac:(discriminate) R7) as (_ & H2 & _ & H2' & _).
  destruct (trend_sign_and_floor 9 7 ltac:(discriminate) R7) as (H9 & _).
  split; [discriminate|]. split; [exact R7|].
  split; [apply H0; reflexivity|]. split; [exact H2'|].
  split; [apply H2; discriminate | apply H9; discriminate].
Defined.

(** X3. The [growth] of [getComicStats] and [getBlogStats], which rounds
    after the case distinction, is the number that [trend] gives, which
    rounds inside it. *)
Theorem growth_is_trend (currentPeriod prevPeriod : Q) :
  AdminTrends.growth currentPeriod prevPeriod == trend currentPeriod prevPeriod.
Proof.
  unfold AdminTrends.growth, trend, raw.
  destruct (Number.gtb prevPeriod 0); [reflexivity|].
  destruct (Number.gtb currentPeriod 0); vm_compute; reflexivity.
Qed.

End TrendOrderProps.

(** ** The trend of the daily data, the windows, the peak hour *)

Module DailyProps.

Import AdminTrends.

Lemma slice_recent {A : Type} (l : list A) :
  slice l (-7) None = drop (length l - 7) l.
Proof.
  unfold slice, relative_index. simpl.
  replace (Z.to_nat (Z.max (Z.of_nat (length l) + -7) 0)) with (length l - 7)%nat by lia.
  apply take_ge. rewrite length_drop. lia.
Qed.

Lemma slice_previous {A : Type} (l : list A) :
  slice l (-14) (Some (-7)) = take (length l - 7 - (length l - 14)) (drop (length l - 14) l).
Proof.
  unfold slice, relative_index. simpl. f_equal; [lia|]. f_equal. lia.
Qed.

(** A positive quotient of small integers stays positive in double
    arithmetic, and one that is not positive stays so. *)
Lemma div_positive (a b : Z) :
  0 < b < 2 ^ 53 →
  Number.gtb (Number.div (inject_Z a) (inject_Z b)) 0 = (0 <? a).
Proof.
  intros Hb. unfold Number.div.
  assert (HB : (0 < inject_Z b)%Q).
  { change 0%Q with (inject_Z 0). rewrite <- Zlt_Qlt. lia. }
  assert (HB' : (inject_Z b <= 9007199254740992 # 1)%Q).
  { change (9007199254740992 # 1)%Q with (inject_Z (2 ^ 53)). rewrite <- Zle_Qle. lia. }
  set (B := inject_Z b) in *.
  assert (HqB : (inject_Z a / B * B == inject_Z a)%Q).
  { unfold Qdiv. rewrite <- Qmult_assoc, (Qmult_comm (/ _)), Qmult_inv_r by lra.
    apply Qmult_1_r. }
  destruct (0 <? a) eqn:E.
  - apply Z.ltb_lt in E. apply NumberProps.gtb_true.
    assert (HA : (1 <= inject_Z a)%Q).
    { change 1%Q with (inject_Z 1). rewrite <- Zle_Qle. lia. }
    set (q := (inject_Z a / B)%Q) in *.
    assert (Hq : (Number.u <= q)%Q).
    { unfold Number.u. set (A := inject_Z a) in *. clearbody q A B. nra. }
    pose proof TagCloudProps.tiny_below_ulp as Htiny.
    assert (He : (Qabs (Number.binary64 q - q) <= Qabs q * Number.u)%Q).
    { apply NumberProps.binary64_error. right.
      assert (0 < Number.u)%Q by reflexivity. rewrite Qabs_pos by lra. lra. }
    rewrite (Qabs_pos q) in He by (assert (0 < Number.u)%Q by reflexivity; lra).
    apply Qabs_Qle_condition in He as [He _].
    unfold Number.u in *. clear Htiny HqB. clearbody q. lra.
  - apply Z.ltb_ge in E. apply NumberProps.gtb_false.
    assert (Hq : (inject_Z a / B <= 0)%Q).
    { assert (HA : (inject_Z a <= 0)%Q).
      { change 0%Q with (inject_Z 0). rewrite <- Zle_Qle. lia. }
      set (q := (inject_Z a / B)%Q) in *. set (A := inject_Z a) in *.
      clearbody q A B. nra. }
    apply Qle_trans with (Number.binary64 0); [|apply Qle_refl].
    apply NumberProps.binary64_mono, Hq.
Qed.

(** X4. [calculateTrendFromDailyData] never returns NaN.  With at most a
    week of data the previous window is empty, and the result is 100 when
    the values add up to something positive (and there are at least two
    days) and 0 otherwise.  The two windows are adjacent: together they
    are the last fourteen entries. *)
Theorem daily_trend_short_data (dailyData : list (string * Z)) :
  (∃ t, calculateTrendFromDailyData dailyData = Some t)
  ∧ ((length dailyData ≤ 7)%nat →
     calculateTrendFromDailyData dailyData
     = Some (if (2 <=? length dailyData)%nat && (0 <? total dailyData)
             then 100%Q else 0%Q))
  ∧ slice dailyData (-14) (Some (-7)) ++ slice dailyData (-7) None
    = drop (length dailyData - 14) dailyData.
Proof.
  split; [|split].
  - unfold calculateTrendFromDailyData.
    destruct (length dailyData <? 2)%nat eqn:E; [eauto|].
    apply Nat.ltb_ge in E.
    assert (Hr : slice dailyData (-7) None ≠ []).
    { rewrite slice_recent. intros H. apply (f_equal length) in H.
      rewrite length_drop in H. simpl in H. lia. }
    destruct (slice dailyData (-7) None) as [|d r] eqn:Er; [done|].
    simpl. destruct (average (slice dailyData (-14) (Some (-7)))) as [p|]; [|eauto].
    destruct (Number.gtb p 0); eauto.
  - intros Hlen. unfold calculateTrendFromDailyData.
    destruct (length dailyData <? 2)%nat eqn:E.
    + apply Nat.ltb_lt in E.
      assert (E2 : (2 <=? length dailyData)%nat = false) by (apply Nat.leb_gt; lia).
      rewrite E2. reflexivity.
    + apply Nat.ltb_ge in E.
      assert (E2 : (2 <=? length dailyData)%nat = true) by (apply Nat.leb_le; lia).
      rewrite E2.
      rewrite slice_previous, slice_recent.
      replace (length dailyData - 7 - (length dailyData - 14))%nat with 0%nat by lia.
      replace (length dailyData - 7)%nat with 0%nat by lia.
      rewrite !drop_0. simpl.
      assert (Ha : average dailyData
                   = Some (Number.div (inject_Z (total dailyData))
                             (inject_Z (Z.of_nat (length dailyData))))).
      { destruct dailyData; [simpl in E; lia | reflexivity]. }
      rewrite Ha, div_positive; [reflexivity|]. lia.
  - rewrite slice_previous, slice_recent.
    destruct (decide (length dailyData ≤ 7)%nat) as [H|H].
    + replace (length dailyData - 7 - (length dailyData - 14))%nat with 0%nat by lia.
      replace (length dailyData - 7)%nat with 0%nat by lia.
      replace (length dailyData - 14)%nat with 0%nat by lia. reflexivity.
    + replace (length dailyData - 7)%nat
        with ((length dailyData - 14) + (length dailyData - 7 - (length dailyData - 14)))%nat
        at 2 by lia.
      rewrite <- drop_drop. apply take_drop.
Qed.

Lemma daily_trend_short_data_witness :
  let days := [("2026-01-01", 0); ("2026-01-02", 3); ("2026-01-03", 0)] in
  (length days ≤ 7)%nat
  ∧ calculateTrendFromDailyData days = Some 100%Q
  ∧ calculateTrendFromDailyData [("2026-01-01", 5)] = Some 0%Q.
Proof.
  intros days.
  assert (H : (length days ≤ 7)%nat) by (simpl; lia).
  split; [exact H|]. split.
  - exact (proj1 (proj2 (daily_trend_short_data days)) H).
  - apply (proj1 (proj2 (daily_trend_short_data [("2026-01-01", 5)]))). simpl. lia.
Defined.

(** *** The windows of the subscriber statistics *)

Lemma mul_int (x : Q) (a b : Z) :
  (x == inject_Z a)%Q → Z.abs (a * b) < 2 ^ 53 →
  (Number.mul x (inject_Z b) == inject_Z (a * b))%Q.
Proof.
  intros Hx Hab. unfold Number.mul.
  rewrite <- (NumberProps.binary64_exact_int (a * b)) by exact Hab.
  apply NumberProps.binary64_proper. rewrite Hx, inject_Z_mult. reflexivity.
Qed.

Lemma Date_of_int (x : Q) (z : Z) : (x == inject_Z z)%Q → AdminStats.Date_of x = z.
Proof.
  intros Hx. unfold AdminStats.Date_of.
  destruct (Number.geb x 0); rewrite Hx; [apply Qfloor_Z | apply Qceiling_Z].
Qed.

Lemma windowStart_int (now days : Z) (x : Q) :
  (x == inject_Z days)%Q →
  0 ≤ now < 2 ^ 52 → Z.abs days ≤ 2 ^ 21 →
  AdminStats.windowStart now x = now - days * 86400000.
Proof.
  intros Hx Hnow Hdays. unfold AdminStats.windowStart.
  apply Date_of_int.
  assert (H1 : (Number.mul x 24 == inject_Z (days * 24))%Q)
    by (apply (mul_int x days 24 Hx); lia).
  assert (H2 : (Number.mul (Number.mul x 24) 60 == inject_Z (days * 24 * 60))%Q)
    by (apply (mul_int _ (days * 24) 60 H1); lia).
  assert (H3 : (Number.mul (Number.mul (Number.mul x 24) 60) 60
                == inject_Z (days * 24 * 60 * 60))%Q)
    by (apply (mul_int _ (days * 24 * 60) 60 H2); lia).
  assert (H4 : (Number.mul (Number.mul (Number.mul (Number.mul x 24) 60) 60) 1000
                == inject_Z (days * 24 * 60 * 60 * 1000))%Q)
    by (apply (mul_int _ (days * 24 * 60 * 60) 1000 H3); lia).
  unfold Number.sub.
  rewrite <- (NumberProps.binary64_exact_int (now - days * 86400000)) by lia.
  apply NumberProps.binary64_proper. rewrite H4.
  unfold Zminus. rewrite inject_Z_plus, inject_Z_opp.
  replace (days * 24 * 60 * 60 * 1000) with (days * 86400000) by lia.
  reflexivity.
Qed.

(** X5. For a whole number of days the two windows of
    [getSubscriberGrowthStats] have the same length: the current one starts
    [days] days before the clock reading and the previous one [days] days
    before that, to the millisecond. *)
Theorem subscriber_windows_equal_length (now days : Z) :
  0 ≤ now < 2 ^ 52 → 0 ≤ days ≤ 2 ^ 20 →
  let currentStart := AdminStats.windowStart now (inject_Z days) in
  let prevStart := AdminStats.windowStart now (Number.mul (inject_Z days) 2) in
  currentStart = now - days * 86400000
  ∧ prevStart = now - 2 * days * 86400000
  ∧ currentStart - prevStart = now - currentStart.
Proof.
  intros Hnow Hdays currentStart prevStart.
  assert (Hc : currentStart = now - days * 86400000).
  { apply (windowStart_int now days); [reflexivity | lia | lia]. }
  assert (Hp : prevStart = now - 2 * days * 86400000).
  { unfold prevStart. rewrite (windowStart_int now (days * 2)); [lia| |lia|lia].
    apply (mul_int (inject_Z days) days 2); [reflexivity | lia]. }
  split; [exact Hc|]. split; [exact Hp | lia].
Qed.

Lemma subscriber_windows_equal_length_witness :
  0 ≤ 1700000000000 < 2 ^ 52 ∧ 0 ≤ 30 ≤ 2 ^ 20
  ∧ AdminStats.windowStart 1700000000000 30 = 1697408000000
  ∧ AdminStats.windowStart 1700000000000 (Number.mul 30 2) = 1694816000000.
Proof.
  assert (Hn : 0 ≤ 1700000000000 < 2 ^ 52) by (split; [discriminate | reflexivity]).
  assert (Hd : 0 ≤ 30 ≤ 2 ^ 20) by (split; discriminate).
  destruct (subscriber_windows_equal_length 1700000000000 30 Hn Hd) as (H1 & H2 & _).
  split; [exact Hn|]. split; [exact Hd|]. split; [exact H1 | exact H2].
Defined.

(** *** The peak hour *)

Lemma hour_in_hours h : 0 ≤ h < 24 → h ∈ hours.
Proof.
  intros H. unfold hours. apply list_elem_of_fmap. exists (Z.to_nat h).
  split; [lia|]. apply elem_of_seq. lia.
Qed.

Lemma labels_checked :
  forallb (λ h1, forallb (λ h2, implb (String.eqb (label h1) (label h2)) (h1 =? h2)) hours)
    hours = true.
Proof. vm_compute. reflexivity. Qed.

(** X6. On the hours 0 to 23 the twelve-hour label of the peak hour keeps
    the hour apart from every other one: the display hour lies between 1
    and 12, the hour is recovered from it and the AM/PM mark, and two
    hours with the same label are the same hour. *)
Theorem peak_label_round_trip (h1 h2 : Z) :
  0 ≤ h1 < 24 → 0 ≤ h2 < 24 →
  1 ≤ displayHour h1 ≤ 12
  ∧ h1 = displayHour h1 mod 12 + (if h1 >=? 12 then 12 else 0)
  ∧ (label h1 = label h2 → h1 = h2).
Proof.
  intros H1 H2. split; [|split].
  - unfold displayHour. pose proof (Z.mod_pos_bound h1 12 eq_refl).
    destruct (h1 mod 12 =? 0) eqn:E; lia.
  - unfold displayHour. pose proof (Z.mod_pos_bound h1 12 eq_refl).
    pose proof (Z.div_mod h1 12 ltac:(discriminate)) as Hdm.
    destruct (h1 mod 12 =? 0) eqn:E.
    + change (12 mod 12) with 0. destruct (h1 >=? 12) eqn:E'; lia.
    + rewrite Z.mod_mod by discriminate. destruct (h1 >=? 12) eqn:E'; lia.
  - intros Hl.
    pose proof labels_checked as Hall.
    rewrite forallb_forall in Hall.
    specialize (Hall h1 (proj1 (list_elem_of_In _ _) (hour_in_hours h1 H1))).
    rewrite forallb_forall in Hall.
    specialize (Hall h2 (proj1 (list_elem_of_In _ _) (hour_in_hours h2 H2))).
    rewrite Hl, String.eqb_refl in Hall. simpl in Hall. lia.
Qed.

Lemma peak_label_round_trip_witness :
  0 ≤ 0 < 24 ∧ 0 ≤ 12 < 24
  ∧ label 0 = "12:00 AM" ∧ label 12 = "12:00 PM" ∧ label 13 = "1:00 PM"
  ∧ 0 = displayHour 0 mod 12 + 0.
Proof.
  assert (R0 : 0 ≤ 0 < 24) by (split; [discriminate | reflexivity]).
  assert (R12 : 0 ≤ 12 < 24) by (split; [discriminate | reflexivity]).
  split; [exact R0|]. split; [exact R12|].
  split; [reflexivity|]. split; [reflexivity|]. split; [reflexivity|].
  exact (proj1 (proj2 (peak_label_round_trip 0 12 R0 R12))).
Defined.

(** X7. [calculatePeakEngagementHour] returns [null] exactly when neither
    aggregation has a positive engagement.  Otherwise the activity is the
    larger of the two engagements, with the hour of its row and the label
    of that hour; the comics' row wins a tie. *)
Theorem peak_is_the_larger (comicResult blogResult : option (Z * Z)) :
  match peak comicResult blogResult with
  | None =>
      (∀ h e, comicResult = Some (h, e) → e ≤ 0)
      ∧ (∀ h e, blogResult = Some (h, e) → e ≤ 0)
  | Some (hour, l, activity) =>
      0 < activity ∧ l = label hour
      ∧ ((comicResult = Some (hour, activity)
          ∧ ∀ h e, blogResult = Some (h, e) → e ≤ activity)
         ∨ (blogResult = Some (hour, activity)
            ∧ ∀ h e, comicResult = Some (h, e) → e < activity))
  end.
Proof.
  unfold peak.
  destruct comicResult as [[hc ec]|]; destruct blogResult as [[hb eb]|];
    repeat match goal with
           | |- context [if ?b then _ else _] => destruct b eqn:?
           end;
    simpl; repeat split; intros; simplify_eq; try lia;
    try (left; split; [reflexivity|]; intros; simplify_eq; lia);
    try (right; split; [reflexivity|]; intros; simplify_eq; lia).
Qed.

End DailyProps.

(** ** Ratings of a comic *)

Module RatingProps.

Import Rating.

Local Open Scope Q_scope.

Lemma binary64_between (lo hi : Z) (x : Q) :
  (Z.abs lo < 2 ^ 53)%Z → (Z.abs hi < 2 ^ 53)%Z →
  inject_Z lo <= x → x <= inject_Z hi →
  inject_Z lo <= Number.binary64 x ∧ Number.binary64 x <= inject_Z hi.
Proof.
  intros Hlo Hhi H1 H2. split.
  - rewrite <- (NumberProps.binary64_exact_int lo Hlo).
    apply NumberProps.binary64_mono, H1.
  - rewrite <- (NumberProps.binary64_exact_int hi Hhi).
    apply NumberProps.binary64_mono, H2.
Qed.

Lemma updateRating_on_scale (r : Q) (c : t) :
  on_scale (averageRating c) → on_scale r →
  (0 ≤ ratingCount c < 2 ^ 50)%Z →
  on_scale (averageRating (updateRating r c)).
Proof.
  intros [Ha0 Ha5] [Hr0 Hr5] Hn. unfold updateRating. simpl.
  set (a := averageRating c) in *. set (n := ratingCount c) in *.
  assert (Hn0 : 0 <= inject_Z n) by (change 0 with (inject_Z 0); rewrite <- Zle_Qle; lia).
  assert (Ht : inject_Z 0 <= Number.mul a (inject_Z n)
               ∧ Number.mul a (inject_Z n) <= inject_Z (5 * n)).
  { apply binary64_between; [reflexivity | lia | |].
    - change (inject_Z 0) with 0. apply Qmult_le_0_compat; assumption.
    - rewrite inject_Z_mult. apply Qmult_le_compat_r; assumption. }
  destruct Ht as [Ht0 Ht5]. change (inject_Z 0) with 0 in Ht0.
  set (total := Number.mul a (inject_Z n)) in *. clearbody total.
  assert (Hs : inject_Z 0 <= Number.add total r
               ∧ Number.add total r <= inject_Z (5 * (n + 1))).
  { apply binary64_between; [reflexivity | lia | |].
    - change (inject_Z 0) with 0. lra.
    - rewrite inject_Z_mult, inject_Z_plus. rewrite inject_Z_mult in Ht5.
      change (inject_Z 5) with 5 in *. change (inject_Z 1) with 1. lra. }
  destruct Hs as [Hs0 Hs5]. change (inject_Z 0) with 0 in Hs0.
  set (sum := Number.add total r) in *. clearbody sum.
  assert (Hc : 0 < inject_Z (n + 1))
    by (change 0 with (inject_Z 0); rewrite <- Zlt_Qlt; lia).
  assert (Hq : inject_Z 0 <= Number.div sum (inject_Z (n + 1))
               ∧ Number.div sum (inject_Z (n + 1)) <= inject_Z 5).
  { apply binary64_between; [reflexivity | reflexivity | |].
    - change (inject_Z 0) with 0. apply Qle_shift_div_l; [exact Hc | lra].
    - apply Qle_shift_div_r; [exact Hc|].
      rewrite inject_Z_mult in Hs5. exact Hs5. }
  exact Hq.
Qed.

(** X8. Ratings between 0 and 5 keep the average between 0 and 5, however
    the divisions and products round: after any number of calls of
    [updateRating] the stored [averageRating] is on the scale of the
    schema and [ratingCount] has grown by the number of calls.  The first
    rating of an unrated comic becomes its average as it is. *)
Theorem averageRating_stays_on_scale (ratings : list Q) (c : t) :
  on_scale (averageRating c) →
  (0 ≤ ratingCount c)%Z → (ratingCount c + Z.of_nat (length ratings) < 2 ^ 50)%Z →
  Forall on_scale ratings →
  on_scale (averageRating (rate_all ratings c))
  ∧ ratingCount (rate_all ratings c) = (ratingCount c + Z.of_nat (length ratings))%Z
  ∧ (∀ r, ratingCount c = 0%Z → Number.binary64 r == r →
          averageRating (updateRating r c) == r).
Proof.
  intros Ha Hn Hlen Hrs. split; [|split].
  - revert c Ha Hn Hlen. induction Hrs as [|r rs Hr Hrs IH]; intros c Ha Hn Hlen.
    + exact Ha.
    + simpl in Hlen. unfold rate_all. simpl. apply IH.
      * apply updateRating_on_scale; [exact Ha | exact Hr | lia].
      * simpl. lia.
      * simpl. lia.
  - clear Ha Hn Hlen Hrs. revert c. induction ratings as [|r rs IH]; intros c.
    + simpl. lia.
    + unfold rate_all. simpl. unfold rate_all in IH. rewrite IH. simpl. lia.
  - intros r Hc Hr. unfold updateRating. simpl. rewrite Hc. simpl.
    unfold Number.div, Number.add, Number.mul.
    assert (H0 : Number.binary64 (averageRating c * inject_Z 0) == 0).
    { apply TrendOrderProps.binary64_zero. change (inject_Z 0) with 0. ring. }
    assert (H1 : Number.binary64 (Number.binary64 (averageRating c * inject_Z 0) + r) == r).
    { rewrite <- Hr at 2. apply NumberProps.binary64_proper. rewrite H0. ring. }
    rewrite <- Hr at 2. apply NumberProps.binary64_proper.
    rewrite H1. unfold Qdiv. change (/ inject_Z (0 + 1)) with 1. ring.
Qed.

Lemma averageRating_stays_on_scale_witness :
  on_scale 0 ∧ Forall on_scale [4; 5; 3]
  ∧ on_scale (averageRating (rate_all [4; 5; 3] (mk 0 0)))
  ∧ ratingCount (rate_all [4; 5; 3] (mk 0 0)) = 3%Z.
Proof.
  assert (H0 : on_scale 0) by (split; discriminate).
  assert (Hrs : Forall on_scale [4; 5; 3])
    by (repeat constructor; discriminate).
  destruct (averageRating_stays_on_scale [4; 5; 3] (mk 0 0) H0
              ltac:(discriminate) ltac:(reflexivity) Hrs) as (H1 & H2 & _).
  split; [exact H0|]. split; [exact Hrs|]. split; [exact H1 | exact H2].
Defined.

End RatingProps.

(** ** More on likes: undoing a like, and the handlers on the store *)

Module LikeMoreProps.

Import Comic Counters.

Lemma indexOf_from_snoc k l u :
  u ∉ l → indexOf_from k (l ++ [u]) u = k + Z.of_nat (length l).
Proof.
  revert k. induction l as [|x r IH]; intros k Hn; simpl.
  - destruct (decide (u = u)); [lia | done].
  - apply not_elem_of_cons in Hn as [Hne Hr].
    destruct (decide (x = u)); [congruence|].
    rewrite IH by done. lia.
Qed.

Lemma set_likes_same c : set_likes c (likes c) (likedBy c) = c.
Proof. by destruct c. Qed.

(** X9. From a valid document, a reader who likes has liked, and one who
    unlikes has not; the likes of every other reader stay as they are; and
    [unlike] undoes the [like] of a reader who had not liked before: the
    document is again the one before the two calls. *)
Theorem unlike_undoes_like (u : string) (c : t) :
  valid c →
  hasLiked u (fst (like u c)) = true
  ∧ hasLiked u (fst (unlike u c)) = false
  ∧ (∀ v, v ≠ u → hasLiked v (fst (like u c)) = hasLiked v c
                   ∧ hasLiked v (fst (unlike u c)) = hasLiked v c)
  ∧ (hasLiked u c = false → unlike u (fst (like u c)) = (c, true)).
Proof.
  intros [Hn Hd]. unfold hasLiked, includes. repeat split.
  - apply bool_decide_eq_true. destruct (decide (u ∈ likedBy c)) as [Hin|Hin].
    + by rewrite (LikeProps.like_present u c Hin).
    + rewrite (LikeProps.like_absent u c Hin). simpl.
      apply elem_of_app. right. by apply list_elem_of_singleton.
  - apply bool_decide_eq_false.
    destruct (decide (u ∈ likedBy c)) as [Hin|Hin].
    + unfold unlike. destruct (LikeProps.splice1_indexOf _ _ Hin) as (i & Hi & Hl & Hs).
      assert (Hgt : (indexOf (likedBy c) u >? -1) = true) by lia.
      rewrite Hgt. simpl. rewrite Hs.
      intros Hu. apply list_elem_of_lookup in Hu as [j Hj].
      destruct (decide (j < i)%nat).
      * rewrite list_lookup_delete_lt in Hj by done.
        pose proof (NoDup_lookup _ _ _ _ Hd Hj Hl). lia.
      * rewrite list_lookup_delete_ge in Hj by lia.
        pose proof (NoDup_lookup _ _ _ _ Hd Hj Hl). lia.
    + rewrite (LikeProps.unlike_absent u c Hin). done.
  - destruct (decide (u ∈ likedBy c)) as [Hin|Hin].
    + by rewrite (LikeProps.like_present u c Hin).
    + rewrite (LikeProps.like_absent u c Hin). simpl.
      apply bool_decide_ext. rewrite elem_of_app, list_elem_of_singleton.
      split; [intros [Hv|Hv]; [exact Hv | congruence] | intros Hv; by left].
  - destruct (decide (u ∈ likedBy c)) as [Hin|Hin].
    + unfold unlike. destruct (LikeProps.splice1_indexOf _ _ Hin) as (i & Hi & Hl & Hs).
      assert (Hgt : (indexOf (likedBy c) u >? -1) = true) by lia.
      rewrite Hgt. simpl. rewrite Hs. apply bool_decide_ext.
      split.
      * intros Hv. eapply elem_of_sublist; [exact Hv | apply sublist_delete].
      * intros Hv. apply list_elem_of_lookup in Hv as [j Hj].
        assert (j ≠ i) by (intros ->; congruence).
        apply list_elem_of_lookup.
        destruct (decide (j < i)%nat).
        -- exists j. by rewrite list_lookup_delete_lt.
        -- exists (pred j). rewrite list_lookup_delete_ge by lia.
           replace (S (pred j)) with j by lia. done.
    + rewrite (LikeProps.unlike_absent u c Hin). done.
  - intros Hu. apply bool_decide_eq_false in Hu.
    rewrite (LikeProps.like_absent u c Hu). simpl.
    unfold unlike. simpl. unfold indexOf.
    rewrite indexOf_from_snoc by done.
    assert (Hgt : (0 + Z.of_nat (length (likedBy c)) >? -1) = true) by lia.
    rewrite Hgt. f_equal. unfold set_likes. simpl.
    unfold splice1.
    replace (Z.to_nat (0 + Z.of_nat (length (likedBy c)))) with (length (likedBy c)) by lia.
    rewrite take_app_length.
    rewrite drop_ge by (rewrite length_app; simpl; lia).
    rewrite app_nil_r.
    replace (likes c + 1 - 1) with (likes c) by lia.
    by destruct c.
Qed.

Lemma unlike_undoes_like_witness :
  valid (mk "c1" "first" "published" 0 1 ["ann"] [] [] None)
  ∧ unlike "bob" (fst (like "bob" (mk "c1" "first" "published" 0 1 ["ann"] [] [] None)))
    = (mk "c1" "first" "published" 0 1 ["ann"] [] [] None, true).
Proof.
  assert (Hv : valid (mk "c1" "first" "published" 0 1 ["ann"] [] [] None)).
  { split; [reflexivity | compute_done]. }
  split; [exact Hv|].
  apply (unlike_undoes_like "bob" _ Hv). reflexivity.
Defined.

(** *** The handlers on the store *)

Lemma find_persist_same doc cs :
  find (λ c, bool_decide (id c = id doc)) (persist doc cs) = Some doc.
Proof.
  unfold persist. case_bool_decide as Hin.
  - induction cs as [|x r IH]; simpl in *.
    + by apply elem_of_nil in Hin.
    + destruct (decide (id x = id doc)) as [Hx|Hx].
      * rewrite (bool_decide_eq_true_2 _ Hx). simpl.
        by rewrite bool_decide_eq_true_2.
      * rewrite (bool_decide_eq_false_2 _ Hx). simpl.
        rewrite (bool_decide_eq_false_2 _ Hx).
        apply IH. apply elem_of_cons in Hin as [Hin|Hin]; [congruence | done].
  - induction cs as [|x r IH]; simpl in *.
    + by rewrite bool_decide_eq_true_2.
    + apply not_elem_of_cons in Hin as [Hne Hr].
      rewrite bool_decide_eq_false_2 by congruence. by apply IH.
Qed.

Lemma find_persist_other doc cs id' :
  id' ≠ id doc →
  find (λ c, bool_decide (id c = id')) (persist doc cs)
  = find (λ c, bool_decide (id c = id')) cs.
Proof.
  intros Hne. unfold persist. case_bool_decide as Hin.
  - clear Hin. induction cs as [|x r IH]; simpl; [done|].
    destruct (decide (id x = id doc)) as [Hx|Hx].
    + rewrite (bool_decide_eq_true_2 _ Hx). simpl.
      rewrite bool_decide_eq_false_2 by congruence.
      rewrite bool_decide_eq_false_2 by congruence. exact IH.
    + rewrite (bool_decide_eq_false_2 _ Hx). simpl.
      destruct (bool_decide (id x = id')); [done | exact IH].
  - clear Hin. induction cs as [|x r IH]; simpl.
    + by rewrite bool_decide_eq_false_2 by congruence.
    + case_bool_decide; [done | exact IH].
Qed.

Lemma findById_save doc st id' :
  findById id' (save doc st) = if decide (id' = id doc) then Some doc else findById id' st.
Proof.
  unfold findById, save, post_save. simpl.
  destruct (decide (id' = id doc)) as [->|Hne].
  - apply find_persist_same.
  - by apply find_persist_other.
Qed.

Lemma findById_id id' st c : findById id' st = Some c → id c = id'.
Proof.
  unfold findById. intros H. apply find_some in H as [_ H].
  by apply bool_decide_eq_true in H.
Qed.

(** X10. A like through [likeComic] reaches the store: when the comic is
    published and the reader has not liked it, the handler answers with
    the new count and [liked = true], the stored document then has the
    reader in [likedBy] and one like more, every other comic is found as
    before, and the same request again answers [liked = false] with the
    same count and writes nothing. *)
Theorem likeComic_stores_the_like (cid userId : string) (st : store) (comic : t) :
  userId ≠ "" → findById cid st = Some comic →
  status comic = "published" → userId ∉ likedBy comic →
  let st' := snd (likeComic cid userId st) in
  fst (likeComic cid userId st) = Return (likes comic + 1, true)
  ∧ (∃ comic', findById cid st' = Some comic'
               ∧ likes comic' = likes comic + 1
               ∧ likedBy comic' = likedBy comic ++ [userId])
  ∧ (∀ id', id' ≠ cid → findById id' st' = findById id' st)
  ∧ likeComic cid userId st' = (Return (likes comic + 1, false), st').
Proof.
  intros Hu Hf Hs Hn st'.
  pose proof (findById_id _ _ _ Hf) as Hid.
  assert (Hl : likeComic cid userId st
               = (Return (likes comic + 1, true),
                  save (set_likes comic (likes comic + 1) (likedBy comic ++ [userId])) st)).
  { unfold likeComic. rewrite bool_decide_eq_false_2 by done. rewrite Hf.
    rewrite bool_decide_eq_false_2 by (intros H; apply H; exact Hs).
    unfold like, includes. rewrite bool_decide_eq_false_2 by done. reflexivity. }
  assert (Hst' : st' = save (set_likes comic (likes comic + 1) (likedBy comic ++ [userId])) st)
    by (unfold st'; rewrite Hl; reflexivity).
  clearbody st'. subst st'.
  set (comic' := set_likes comic (likes comic + 1) (likedBy comic ++ [userId])).
  assert (Hf' : findById cid (save comic' st) = Some comic').
  { rewrite findById_save. rewrite decide_True; [done|]. simpl. congruence. }
  split; [by rewrite Hl|]. split; [|split].
  - exists comic'. split; [exact Hf'|]. split; reflexivity.
  - intros id' Hne. rewrite findById_save. rewrite decide_False; [done|].
    simpl. congruence.
  - unfold likeComic. rewrite bool_decide_eq_false_2 by done. rewrite Hf'.
    rewrite bool_decide_eq_false_2 by (intros H; apply H; exact Hs).
    unfold like, includes. rewrite bool_decide_eq_true_2 by (simpl; set_solver).
    reflexivity.
Qed.

Lemma likeComic_stores_the_like_witness :
  "ann" ≠ "" ∧ findById "c1" created = Some first_comic
  ∧ fst (likeComic "c1" "ann" created) = Return (1, true)
  ∧ fst (likeComic "c1" "ann" liked) = Return (1, false).
Proof.
  assert (Hu : "ann" ≠ "") by discriminate.
  assert (Hf : findById "c1" created = Some first_comic) by reflexivity.
  assert (Hn : "ann" ∉ likedBy first_comic) by apply not_elem_of_nil.
  destruct (likeComic_stores_the_like "c1" "ann" created first_comic Hu Hf eq_refl Hn)
    as (H1 & _ & _ & H4).
  split; [exact Hu|]. split; [exact Hf|]. split; [exact H1|].
  exact (f_equal fst H4).
Defined.

(** X11. What the like handlers refuse, they refuse without writing.  A
    request without a reader is answered with 400; an id that is no
    ObjectId makes [findById] throw a CastError, which the error handler
    answers with 500; an ObjectId that no comic has is answered with 404;
    and a like of a comic that is not published with 403.  In each case
    the store is left as it was. *)
Theorem like_handlers_refuse_without_writing (isObjectId : string → bool)
    (cid userId : string) (st : store) :
  userId = "" ∨ isObjectId cid = false ∨ findById cid st = None
  ∨ (∃ comic, findById cid st = Some comic ∧ status comic ≠ "published") →
  (∃ f, ComicRoutes.likeComic isObjectId cid userId st = (ComicRoutes.Thrown f, st)
        ∧ ComicRoutes.status f
          = (if bool_decide (userId = "") then 400
             else if isObjectId cid
                  then if bool_decide (findById cid st = None) then 404 else 403
                  else 500))
  ∧ (userId = "" ∨ isObjectId cid = false ∨ findById cid st = None →
     ∃ f, ComicRoutes.unlikeComic isObjectId cid userId st = (ComicRoutes.Thrown f, st)
          ∧ ComicRoutes.status f
            = (if bool_decide (userId = "") then 400
               else if isObjectId cid then 404 else 500)).
Proof.
  intros H. split.
  - unfold ComicRoutes.likeComic, ComicRoutes.findById.
    destruct (decide (userId = "")) as [Hu|Hu].
    + rewrite (bool_decide_eq_true_2 _ Hu). eauto.
    + rewrite (bool_decide_eq_false_2 _ Hu).
      destruct (isObjectId cid) eqn:Hid; [|eauto].
      destruct H as [H|[H|[H|(comic & Hf & Hs)]]]; [done|done| |].
      * rewrite H. rewrite bool_decide_eq_true_2 by done. eauto.
      * rewrite Hf. rewrite (bool_decide_eq_true_2 _ Hs).
        rewrite bool_decide_eq_false_2 by done. eauto.
  - clear H. intros H.
    unfold ComicRoutes.unlikeComic, ComicRoutes.findById.
    destruct (decide (userId = "")) as [Hu|Hu].
    + rewrite (bool_decide_eq_true_2 _ Hu). eauto.
    + rewrite (bool_decide_eq_false_2 _ Hu).
      destruct (isObjectId cid) eqn:Hid; [|eauto].
      destruct H as [H|[H|H]]; [done|done|]. rewrite H. eauto.
Qed.

(** An id that is no ObjectId, and an ObjectId that no comic has. *)
Lemma like_handlers_refuse_without_writing_witness :
  let isObjectId := λ id : string, bool_decide (String.length id = 24%nat) in
  isObjectId "c9" = false
  ∧ isObjectId "65f1a2b3c4d5e6f708192a3b" = true
  ∧ findById "65f1a2b3c4d5e6f708192a3b" created = None
  ∧ (∃ f, ComicRoutes.likeComic isObjectId "c9" "ann" created = (ComicRoutes.Thrown f, created)
          ∧ ComicRoutes.status f = 500)
  ∧ (∃ f, ComicRoutes.likeComic isObjectId "65f1a2b3c4d5e6f708192a3b" "ann" created
          = (ComicRoutes.Thrown f, created)
          ∧ ComicRoutes.status f = 404).
Proof.
  intros isObjectId.
  assert (H9 : isObjectId "c9" = false) by reflexivity.
  assert (Hf : findById "65f1a2b3c4d5e6f708192a3b" created = None) by reflexivity.
  split; [exact H9|]. split; [reflexivity|]. split; [exact Hf|]. split.
  - exact (proj1 (like_handlers_refuse_without_writing isObjectId "c9" "ann" created
                    (or_intror (or_introl H9)))).
  - exact (proj1 (like_handlers_refuse_without_writing isObjectId
                    "65f1a2b3c4d5e6f708192a3b" "ann" created
                    (or_intror (or_intror (or_introl Hf))))).
Defined.

End LikeMoreProps.

(** ** The tag cloud: range of the sizes, shape of the list *)

Module CloudRangeProps.

Import TagController.

Local Open Scope Z_scope.

#[local] Instance count_order_total : Total by_count_desc.
Proof. intros a b. unfold by_count_desc. lia. Qed.

#[local] Instance count_order_trans : Transitive by_count_desc.
Proof. intros a b c. unfold by_count_desc. lia. Qed.





(** X13. The list of the cloud: its tags come by falling [comicCount], are
    at most [limit] many (50 when the parameter is absent or 0), each is a
    tag of the collection with a count at or above the floor and none
    comes more often than the collection has it; when the limit leaves
    room, every such tag is there. *)
Theorem cloud_sorted_and_limited (store : list Tag) (query : TagQueryParams) :
  let floor := or_default (minCount query) 1 in
  let limit := or_default (limit query) 50 in
  let tags := map fst (getTagCloud store query) in
  let matching := filter (λ t, floor ≤ comicCount t) store in
  StronglySorted by_count_desc tags
  ∧ Z.of_nat (length tags) ≤ Z.abs limit
  ∧ limit ≠ 0
  ∧ tags ⊆+ matching
  ∧ (Z.of_nat (length matching) ≤ Z.abs limit → tags ≡ₚ matching).
Proof.
  intros floor limit tags matching.
  assert (Ht : tags = take (Z.to_nat (Z.abs limit)) (merge_sort by_count_desc matching)).
  { unfold tags. rewrite TagCloudProps.getTagCloud_tags. reflexivity. }
  assert (Hs : StronglySorted by_count_desc (merge_sort by_count_desc matching))
    by apply (StronglySorted_merge_sort _).
  split; [|split; [|split; [|split]]].
  - rewrite Ht. rewrite <- (take_drop (Z.to_nat (Z.abs limit))) in Hs.
    by apply StronglySorted_app_1_l in Hs.
  - rewrite Ht. pose proof (firstn_le_length (Z.to_nat (Z.abs limit))
                              (merge_sort by_count_desc matching)). lia.
  - unfold limit, or_default. destruct (TagController.limit query) as [n|]; [|done].
    destruct (n =? 0) eqn:E; [done | lia].
  - rewrite Ht. etrans; [apply submseteq_take|].
    by rewrite merge_sort_Permutation.
  - intros Hl. rewrite Ht. rewrite take_ge.
    + apply merge_sort_Permutation.
    + rewrite merge_sort_Permutation. lia.
Qed.

End CloudRangeProps.

(** ** Slugs *)

Module SlugShapeProps.

Import JSString Blog TagSlug.

Lemma strip_fixed s :
  Forall (λ c, is_word c || is_space c || is_hyphen c = true) s → strip s = s.
Proof.
  induction 1 as [|c r Hc Hr IH]; [done|]. simpl. by rewrite Hc, IH.
Qed.

Lemma spaces_to_hyphen_nothing inside s :
  Forall (λ c, is_space c = false) s → spaces_to_hyphen inside s = s.
Proof.
  intros H. revert inside. induction H as [|c r Hc Hr IH]; intros inside; [done|].
  simpl. by rewrite Hc, IH.
Qed.

Lemma collapse_hyphens_fixed inside s :
  single_hyphens s = true →
  (inside = true → match s with c :: _ => is_hyphen c = false | [] => True end) →
  collapse_hyphens inside s = s.
Proof.
  revert inside. induction s as [|c r IH]; intros inside Hs Hi; simpl; [done|].
  assert (Hr : single_hyphens r = true).
  { simpl in Hs. destruct r as [|d r']; [done|]. by apply andb_prop in Hs as [_ Hs]. }
  destruct (is_hyphen c) eqn:Ec.
  - destruct inside; [by specialize (Hi eq_refl)|].
    rewrite (SlugProps.is_hyphen_eq c Ec). f_equal. apply IH; [exact Hr|].
    intros _. simpl in Hs. destruct r as [|d r']; [done|].
    apply andb_prop in Hs as [Hs _]. rewrite Ec in Hs. simpl in Hs.
    by apply negb_true_iff in Hs.
  - f_equal. apply IH; [exact Hr | discriminate].
Qed.

Lemma slug_of_join toLowerCase (name : t) :
  slug_of toLowerCase name = join_runs false (strip (toLowerCase name)).
Proof. unfold slug_of. by apply SlugProps.collapse_spaces_join. Qed.

(** X14. The slug that the pre-save hooks of Tag and Genre give a name
    is the name in small letters without the code units that are not
    word characters, white space or hyphens, with every run of white
    space and hyphens made one hyphen.  It is made of digits, the letters
    a to z, underscores and hyphens only, and no hyphen follows a hyphen
    in it.  The slug of a slug is the slug itself, and the setters of the
    schema path, [lowercase] and [trim], leave it as it is in either
    order.  The [trim] at the end of the blog posts' [baseSlug] never
    removes anything: white space has become hyphens before, so the blog
    slug of a title is the tag slug of the same text. *)
Theorem slug_of_shape (toLowerCase : t → t) (name : t) :
  lowercases toLowerCase →
  let s := slug_of toLowerCase name in
  s = join_runs false
        (filter (λ c, is_word c = true ∨ is_space c = true ∨ is_hyphen c = true)
           (toLowerCase name : list N))
  ∧ Forall (λ c, slug_unit c = true) s
  ∧ single_hyphens s = true
  ∧ slug_of toLowerCase s = s
  ∧ (trim (toLowerCase s) = s ∧ toLowerCase (trim s) = s)
  ∧ baseSlug toLowerCase name = s.
Proof.
  intros Hlow s.
  assert (Hbase : baseSlug toLowerCase name = s).
  { rewrite SlugProps.baseSlug_join. unfold s. by rewrite slug_of_join. }
  assert (Hu : Forall (λ c, slug_unit c = true) s).
  { rewrite <- Hbase. by apply SlugProps.baseSlug_units. }
  assert (Hh : single_hyphens s = true).
  { unfold s. rewrite slug_of_join. apply (SlugProps.join_runs_single false). }
  assert (Hn : Forall (λ c, is_space c = false) s).
  { eapply Forall_impl; [exact Hu|]. intros c. apply SlugProps.slug_unit_not_space. }
  assert (Hc : toLowerCase s = s) by (by apply SlugProps.cast_fixed).
  assert (Ht : trim s = s) by (by apply SlugProps.trim_nothing).
  split; [|split; [exact Hu|split; [exact Hh|split; [|split; [|exact Hbase]]]]].
  - unfold s. rewrite slug_of_join. by rewrite SlugProps.strip_filter.
  - unfold slug_of at 1. rewrite Hc.
    rewrite strip_fixed.
    + rewrite (spaces_to_hyphen_nothing false s Hn).
      apply collapse_hyphens_fixed; [exact Hh | discriminate].
    + eapply Forall_impl; [exact Hu|]. intros c. apply SlugProps.slug_unit_kept.
  - split; [by rewrite Hc | by rewrite Ht].
Qed.

Lemma slug_of_shape_witness :
  lowercases lower_ascii
  ∧ slug_of lower_ascii (of_string "Science  Fiction & Fantasy") = of_string "science-fiction-fantasy"
  ∧ slug_of lower_ascii (of_string " Sci-Fi ") = of_string "-sci-fi-"
  ∧ slug_of lower_ascii (of_string "-sci-fi-") = of_string "-sci-fi-"
  ∧ baseSlug lower_ascii (of_string " Sci-Fi ") = of_string "-sci-fi-".
Proof.
  split; [exact SlugProps.lower_ascii_lowercases|].
  split; [vm_compute; reflexivity|]. split; [vm_compute; reflexivity|].
  destruct (slug_of_shape lower_ascii (of_string " Sci-Fi ") SlugProps.lower_ascii_lowercases)
    as (_ & _ & _ & Hidem & _ & Hbase).
  assert (E : slug_of lower_ascii (of_string " Sci-Fi ") = of_string "-sci-fi-")
    by (vm_compute; reflexivity).
  rewrite E in Hidem, Hbase. split; [exact Hidem | exact Hbase].
Defined.

End SlugShapeProps.

(** ** Reading time and pages of the blog *)

Module BlogPagesProps.

Import BlogPages.

Lemma Qceiling_unique (k : Z) (x : Q) :
  (inject_Z (k - 1) < x)%Q → (x <= inject_Z k)%Q → Qceiling x = k.
Proof.
  intros H1 H2.
  pose proof (Qle_ceiling x) as H3. pose proof (Qceiling_lt x) as H4.
  assert (H5 : (inject_Z (k - 1) < inject_Z (Qceiling x))%Q) by (eapply Qlt_le_trans; eauto).
  assert (H6 : (inject_Z (Qceiling x - 1) < inject_Z k)%Q) by (eapply Qlt_le_trans; eauto).
  rewrite <- Zlt_Qlt in H5, H6. lia.
Qed.

(** [Math.ceil(a / b)] on whole numbers below 2^53 is the ceiling of the
    exact quotient: the rounding of the division never reaches down to
    the whole number below. *)
Lemma ceil_div (a b : Z) :
  0 ≤ a < 2 ^ 53 → 0 < b < 2 ^ 53 →
  Math_ceil (Number.div (inject_Z a) (inject_Z b)) = (a + b - 1) / b.
Proof.
  intros Ha Hb. unfold Math_ceil, Number.div.
  set (k := (a + b - 1) / b).
  assert (Hk : (k - 1) * b + 1 ≤ a ∧ a ≤ k * b).
  { unfold k. pose proof (Z.div_mod (a + b - 1) b ltac:(lia)) as Hdm.
    pose proof (Z.mod_pos_bound (a + b - 1) b ltac:(lia)) as Hm. nia. }
  assert (Hk0 : 0 ≤ k ≤ a).
  { split; [unfold k; apply Z.div_pos; lia|]. nia. }
  assert (HB : (0 < inject_Z b)%Q) by (change 0%Q with (inject_Z 0); rewrite <- Zlt_Qlt; lia).
  assert (Hup : (inject_Z a / inject_Z b <= inject_Z k)%Q).
  { apply Qle_shift_div_r; [exact HB|]. rewrite <- inject_Z_mult, <- Zle_Qle. lia. }
  apply Qceiling_unique.
  - destruct (decide (a = 0)) as [->|Hne].
    + rewrite (NumberProps.binary64_proper _ 0%Q).
      * change (Number.binary64 0) with (inject_Z 0). rewrite <- Zlt_Qlt. lia.
      * unfold Qdiv. change (inject_Z 0) with 0%Q. ring.
    + set (q := (inject_Z a / inject_Z b)%Q).
      assert (HA : (1 <= inject_Z a)%Q) by (change 1%Q with (inject_Z 1); rewrite <- Zle_Qle; lia).
      assert (Hq0 : (0 < q)%Q).
      { unfold q. apply Qlt_shift_div_l; [exact HB|]. lra. }
      assert (Hsmall : (2 ^ (-1022) <= Qabs q)%Q).
      { rewrite Qabs_pos by lra.
        apply Qle_trans with (inject_Z 1 / inject_Z (2 ^ 53))%Q; [vm_compute; discriminate|].
        unfold q. apply Qle_shift_div_l; [exact HB|].
        assert (Hb' : (inject_Z b <= inject_Z (2 ^ 53))%Q) by (rewrite <- Zle_Qle; lia).
        assert (H53 : (0 < inject_Z (2 ^ 53))%Q) by reflexivity.
        apply Qle_trans with (inject_Z 1 / inject_Z (2 ^ 53) * inject_Z (2 ^ 53))%Q.
        - apply Qmult_le_l; [reflexivity | exact Hb'].
        - assert (Heq : (inject_Z 1 / inject_Z (2 ^ 53) * inject_Z (2 ^ 53) == 1)%Q)
            by reflexivity.
          rewrite Heq. exact HA. }
      pose proof (NumberProps.binary64_error q (or_intror Hsmall)) as Herr.
      rewrite (Qabs_pos q) in Herr by lra.
      apply Qabs_Qle_condition in Herr as [Herr _].
      assert (Hlow : (inject_Z (k - 1) < q - q * Number.u)%Q).
      { assert (Heq : (q - q * Number.u
                       == (inject_Z a - inject_Z a * Number.u) / inject_Z b)%Q).
        { unfold q. field. lra. }
        rewrite Heq. apply Qlt_shift_div_l; [exact HB|].
        rewrite <- inject_Z_mult.
        assert (H1 : (inject_Z ((k - 1) * b) + 1 <= inject_Z a)%Q).
        { change 1%Q with (inject_Z 1). rewrite <- inject_Z_plus, <- Zle_Qle. lia. }
        assert (H2 : (inject_Z a * Number.u < 1)%Q).
        { assert (H3 : (inject_Z a < inject_Z (2 ^ 53))%Q) by (rewrite <- Zlt_Qlt; lia).
          assert (H4 : (inject_Z (2 ^ 53) * Number.u == 1)%Q) by reflexivity.
          rewrite <- H4. apply Qmult_lt_r; [reflexivity | exact H3]. }
        lra. }
      lra.
  - rewrite <- (NumberProps.binary64_exact_int k) by lia.
    apply NumberProps.binary64_mono. exact Hup.
Qed.

Lemma count_words_bounds inside s :
  0 ≤ count_words inside s ≤ Z.of_nat (length s).
Proof.
  revert inside. induction s as [|c r IH]; intros inside; simpl; [lia|].
  destruct (JSString.is_space c).
  - specialize (IH false). lia.
  - specialize (IH true). destruct inside; lia.
Qed.

(** X15. The reading time that the pre-save hook stores is the number of
    words divided by 200 and rounded up, exactly: no post with a word in
    it is filed under 0 minutes, and a post of 200 words or fewer reads
    in one minute. *)
Theorem readingTime_is_the_ceiling (content : JSString.t) :
  Z.of_nat (length content) < 2 ^ 53 →
  readingTime content = (words content + 199) / 200
  ∧ (readingTime content = 0 ↔ words content = 0)
  ∧ (1 ≤ words content ≤ 200 → readingTime content = 1).
Proof.
  intros Hlen. pose proof (count_words_bounds false content) as Hw.
  fold (words content) in Hw.
  assert (Hr : readingTime content = (words content + 199) / 200).
  { unfold readingTime. change 200%Q with (inject_Z 200).
    rewrite ceil_div by lia. f_equal. lia. }
  split; [exact Hr|]. rewrite Hr. split; [split|].
  - intros H0. pose proof (Z.div_mod (words content + 199) 200 ltac:(lia)) as Hdm.
    pose proof (Z.mod_pos_bound (words content + 199) 200 ltac:(lia)) as Hm. lia.
  - intros ->. reflexivity.
  - intros H1. pose proof (Z.div_mod (words content + 199) 200 ltac:(lia)) as Hdm.
    pose proof (Z.mod_pos_bound (words content + 199) 200 ltac:(lia)) as Hm. lia.
Qed.

Lemma readingTime_is_the_ceiling_witness :
  let content := JSString.of_string "Once upon a time" in
  Z.of_nat (length content) < 2 ^ 53
  ∧ words content = 4
  ∧ readingTime content = (4 + 199) / 200.
Proof.
  intros content.
  assert (Hl : Z.of_nat (length content) < 2 ^ 53) by reflexivity.
  split; [exact Hl|]. split; [reflexivity|].
  exact (proj1 (readingTime_is_the_ceiling content Hl)).
Defined.

(** *** Pages *)

Lemma concat_chunks {A : Type} (l : list A) (n k : nat) :
  concat (map (λ i, take n (drop (i * n) l)) (seq 0 k)) = take (k * n) l.
Proof.
  induction k as [|k IH]; [done|].
  rewrite seq_S, map_app, concat_app, IH. simpl. rewrite app_nil_r.
  rewrite take_take_drop. f_equal. lia.
Qed.

(** X16. Paging through [getBlogPosts]: with a limit of at least 1 the
    [pages] of the answer is the number of posts divided by the limit and
    rounded up; a page never carries more posts than the limit; the pages
    1 to [pages], one after the other, are the matching posts in their
    order, each once; and a page after the last is empty. *)
Theorem pages_cover_the_posts {A : Type} (matching : list A) (limitNum : Z) :
  1 ≤ limitNum < 2 ^ 53 → Z.of_nat (length matching) < 2 ^ 53 →
  let total := Z.of_nat (length matching) in
  let last := pages total limitNum in
  last = (total + limitNum - 1) / limitNum
  ∧ (∀ pageNum, 1 ≤ pageNum →
       Z.of_nat (length (page_of matching pageNum limitNum)) ≤ limitNum)
  ∧ concat (map (λ p, page_of matching (Z.of_nat p) limitNum) (seq 1 (Z.to_nat last)))
    = matching
  ∧ (∀ pageNum, last < pageNum → page_of matching pageNum limitNum = []).
Proof.
  intros Hl Ht total last.
  assert (Hlast : last = (total + limitNum - 1) / limitNum).
  { unfold last, pages. apply ceil_div; unfold total; lia. }
  assert (Hk : (last - 1) * limitNum + 1 ≤ total ∧ total ≤ last * limitNum).
  { rewrite Hlast.
    pose proof (Z.div_mod (total + limitNum - 1) limitNum ltac:(lia)) as Hdm.
    pose proof (Z.mod_pos_bound (total + limitNum - 1) limitNum ltac:(lia)) as Hm. nia. }
  assert (Hlast0 : 0 ≤ last) by (rewrite Hlast; apply Z.div_pos; unfold total; lia).
  split; [exact Hlast|]. split; [|split].
  - intros pageNum Hp. unfold page_of.
    pose proof (firstn_le_length (Z.to_nat limitNum)
                  (drop (Z.to_nat ((pageNum - 1) * limitNum)) matching)). lia.
  - rewrite <- seq_shift, map_map.
    rewrite (map_ext _ (λ i, take (Z.to_nat limitNum) (drop (i * Z.to_nat limitNum) matching))).
    + rewrite concat_chunks. apply take_ge. unfold total in Hk. nia.
    + intros i. unfold page_of. do 2 f_equal. nia.
  - intros pageNum Hp. unfold page_of. rewrite drop_ge; [apply take_nil|].
    unfold total in Hk. nia.
Qed.

Lemma pages_cover_the_posts_witness :
  1 ≤ 2 < 2 ^ 53
  ∧ pages 5 2 = 3
  ∧ page_of ["a"; "b"; "c"; "d"; "e"] 3 2 = ["e"]
  ∧ page_of ["a"; "b"; "c"; "d"; "e"] 4 2 = [].
Proof.
  assert (Hl : 1 ≤ 2 < 2 ^ 53) by (split; [discriminate | reflexivity]).
  assert (Ht : Z.of_nat (length ["a"; "b"; "c"; "d"; "e"]) < 2 ^ 53) by reflexivity.
  destruct (pages_cover_the_posts ["a"; "b"; "c"; "d"; "e"] 2 Hl Ht) as (H1 & _ & _ & H4).
  split; [exact Hl|]. split; [exact H1|]. split; [reflexivity|].
  apply H4. rewrite H1. reflexivity.
Defined.

End BlogPagesProps.

(** ** Bookmarks, likes and reading history of a user *)

Module ShelfProps.

Import Shelf.

Lemma field_set_field m ty l u : field m ty (set_field m ty l u) = l.
Proof. destruct m; simpl; case_bool_decide; simpl; by rewrite ?bool_decide_eq_true_2, ?bool_decide_eq_false_2. Qed.

Lemma elem_of_pull c l x : x ∈ pull c l ↔ x ∈ l ∧ x ≠ c.
Proof. unfold pull. rewrite list_elem_of_filter. tauto. Qed.

Lemma elem_of_addToSet c l x : x ∈ addToSet c l ↔ x ∈ l ∨ x = c.
Proof.
  unfold addToSet. case_bool_decide as Hc.
  - split; [by left | intros [H| ->]; done].
  - rewrite elem_of_app, list_elem_of_singleton. done.
Qed.

Lemma pull_pull c l : pull c (pull c l) = pull c l.
Proof.
  unfold pull. induction l as [|x l IH]; [done|].
  rewrite filter_cons. case_decide as Hx; [|exact IH].
  rewrite filter_cons. rewrite decide_True by done. by rewrite IH.
Qed.

Lemma NoDup_pull c l : NoDup l → NoDup (pull c l).
Proof. apply NoDup_filter. Qed.

Lemma NoDup_addToSet c l : NoDup l → NoDup (addToSet c l).
Proof.
  intros H. unfold addToSet. case_bool_decide as Hc; [done|].
  apply NoDup_app. split; [done|]. split; [|apply NoDup_singleton].
  intros x Hx Hx'. apply list_elem_of_singleton in Hx'. by subst.
Qed.

(** X17. On a user just loaded, [toggleBookmark] and [toggleLike] answer
    [true] exactly when the content was not in the list, and afterwards
    the content is in the stored list exactly when the answer was [true].
    Every other entry of that list stays, a list without repeats stays
    without repeats, and the user's other lists and the reading history
    are not touched. *)
Theorem toggle_on_loaded_user (m : method) (contentId contentType : string) (u : t) :
  let u' := fst (toggle m contentId contentType u u) in
  let added := snd (toggle m contentId contentType u u) in
  added = negb (bool_decide (contentId ∈ field m contentType u))
  ∧ (contentId ∈ field m contentType u' ↔ added = true)
  ∧ (∀ x, x ≠ contentId → x ∈ field m contentType u' ↔ x ∈ field m contentType u)
  ∧ (NoDup (field m contentType u) → NoDup (field m contentType u'))
  ∧ (∀ m' ty', (m' ≠ m ∨ bool_decide (ty' = "comic") ≠ bool_decide (contentType = "comic")) →
               field m' ty' u' = field m' ty' u)
  ∧ readingHistory u' = readingHistory u.
Proof.
  intros u' added. unfold u', added, toggle, Comic.includes.
  case_bool_decide as Hin; simpl; rewrite ?field_set_field.
  - split; [done|]. split; [|split; [|split; [|split]]].
    + rewrite elem_of_pull. split; [intros [_ H]; done | discriminate].
    + intros x Hx. rewrite elem_of_pull. tauto.
    + apply NoDup_pull.
    + intros m' ty' H. destruct m, m'; simpl;
        repeat case_bool_decide; simpl; try reflexivity; destruct H; congruence.
    + destruct m; simpl; case_bool_decide; reflexivity.
  - split; [done|]. split; [|split; [|split; [|split]]].
    + rewrite elem_of_addToSet. split; [done | intros _; by right].
    + intros x Hx. rewrite elem_of_addToSet. tauto.
    + apply NoDup_addToSet.
    + intros m' ty' H. destruct m, m'; simpl;
        repeat case_bool_decide; simpl; try reflexivity; destruct H; congruence.
    + destruct m; simpl; case_bool_decide; reflexivity.
Qed.

(** X18. The two methods read the list of the document they are called on
    and write to the collection, and the document stays as loaded.  So a
    second call on the same document does not undo the first: it gives the
    same answer again and leaves the collection as the first call left
    it.  Only on the user loaded anew does the second call give the
    opposite answer, and then the list has the members it had before the
    two calls. *)
Theorem toggle_twice (m : method) (contentId contentType : string) (u : t) :
  let first := toggle m contentId contentType u u in
  let again := toggle m contentId contentType u (fst first) in
  let reloaded := toggle m contentId contentType (fst first) (fst first) in
  again = first
  ∧ snd reloaded = negb (snd first)
  ∧ (∀ x, x ∈ field m contentType (fst reloaded) ↔ x ∈ field m contentType u).
Proof.
  intros first again reloaded.
  unfold again, reloaded, first, toggle, Comic.includes.
  destruct (decide (contentId ∈ field m contentType u)) as [Hin|Hin].
  - rewrite (bool_decide_eq_true_2 _ Hin). simpl. rewrite !field_set_field.
    assert (Hout : contentId ∉ pull contentId (field m contentType u)).
    { rewrite elem_of_pull. tauto. }
    rewrite (bool_decide_eq_false_2 _ Hout). simpl. rewrite !field_set_field.
    split; [|split; [done|]].
    + f_equal.
      rewrite pull_pull. destruct m; simpl; case_bool_decide; reflexivity.
    + intros x. rewrite elem_of_addToSet, elem_of_pull.
      destruct (decide (x = contentId)) as [->|Hne]; tauto.
  - rewrite (bool_decide_eq_false_2 _ Hin). simpl. rewrite !field_set_field.
    assert (Hnow : contentId ∈ addToSet contentId (field m contentType u)).
    { rewrite elem_of_addToSet. by right. }
    rewrite (bool_decide_eq_true_2 _ Hnow). simpl. rewrite !field_set_field.
    split; [|split; [done|]].
    + f_equal.
      assert (Hp : addToSet contentId (addToSet contentId (field m contentType u))
                   = addToSet contentId (field m contentType u)).
      { unfold addToSet at 1. by rewrite (bool_decide_eq_true_2 _ Hnow). }
      rewrite Hp. destruct m; simpl; case_bool_decide; reflexivity.
    + intros x. rewrite elem_of_pull, elem_of_addToSet.
      destruct (decide (x = contentId)) as [->|Hne]; tauto.
Qed.

(** *** The reading history *)

(** X19. After [addToReadingHistory] the stored history begins with the
    new entry, which is the only entry about that content; it holds at
    most 50 entries; the entries behind the first are entries of the old
    history about other contents, in their old order; and the bookmarks
    and likes are as before. *)
Theorem addToReadingHistory_keeps_one_entry (contentId contentType : string)
    (progress : option Q) (lastPage : option Z) (now : Z) (u : t) :
  let u' := addToReadingHistory contentId contentType progress lastPage now u in
  let item := mkItem contentId contentType (default 0%Q progress) lastPage now in
  (∃ rest, readingHistory u' = item :: rest
           ∧ Forall (λ h, ¬ about contentId contentType h) rest
           ∧ rest `sublist_of` readingHistory u)
  ∧ (length (readingHistory u') ≤ 50)%nat
  ∧ (length (readingHistory u') ≤ S (length (readingHistory u)))%nat
  ∧ (bookmarkedComics u', bookmarkedBlogs u', likedComics u', likedBlogs u')
    = (bookmarkedComics u, bookmarkedBlogs u, likedComics u, likedBlogs u).
Proof.
  intros u' item. unfold u', addToReadingHistory, push_history. simpl.
  fold item.
  set (kept := filter (λ h, ¬ about contentId contentType h) (readingHistory u)).
  split; [|split; [|split]].
  - exists (take 49 kept). split; [reflexivity|]. split.
    + apply Forall_take. unfold kept. apply Forall_forall. intros h Hh.
      apply list_elem_of_filter in Hh as [Hh _]. exact Hh.
    + etrans; [apply sublist_take|]. unfold kept. apply sublist_filter.
  - change (take 50 (item :: kept)) with (item :: take 49 kept). simpl.
    pose proof (firstn_le_length 49 kept). lia.
  - change (take 50 (item :: kept)) with (item :: take 49 kept). simpl.
    pose proof (firstn_le_length 49 kept).
    assert (length (take 49 kept) ≤ length kept)%nat by (rewrite length_take; lia).
    assert (length kept ≤ length (readingHistory u))%nat by apply length_filter.
    lia.
  - reflexivity.
Qed.

End ShelfProps.

(** ** More on login: after a lock, and the other accounts *)

Module LoginMoreProps.

Import User.

Lemma login_user_keeps_identity compare u cand clk :
  let u' := snd (login_user compare u cand clk) in
  email u' = email u ∧ password u' = password u ∧ emailVerified u' = emailVerified u.
Proof.
  unfold login_user, incrementLoginAttempts, resetLoginAttempts.
  repeat match goal with
         | |- context [if ?b then _ else _] => destruct b
         end; done.
Qed.

(** X20. Once a lock has run out, the wrong password that comes first is
    not counted: it sets the counter to zero and removes the lock.  So
    the next lock needs six wrong passwords in a row, not five: after
    five of them the account is still open with four failed attempts on
    record, and the sixth locks it for fifteen minutes. *)
Theorem six_failures_after_expiry (compare : string → string → bool) (u : t)
    (until : Z) (first : string * clock) (reqs : list (string * clock))
    (last : string * clock) :
  lockUntil u = Some until →
  until ≤ at_isLocked first.2 → until < at_expiry first.2 →
  length reqs = 4%nat →
  all_wrong compare u (first :: reqs ++ [last]) →
  logins compare u (first :: reqs)
  = (replicate 5 invalid, set_lock u 4 None)
  ∧ logins compare u (first :: reqs ++ [last])
    = (replicate 6 invalid, set_lock u 5 (Some (at_lock last.2 + lockDuration))).
Proof.
  intros Hu Hex1 Hex2 Hlen Hw.
  destruct first as [cand1 clk1]. destruct last as [cand6 clk6]. simpl in *.
  apply Forall_cons in Hw as [Hw1 Hw]. simpl in Hw1.
  apply Forall_app in Hw as [Hw Hw6].
  apply Forall_cons in Hw6 as [Hw6 _]. simpl in Hw6.
  assert (H1 : login_user compare u cand1 clk1 = (invalid, set_lock u 0 None)).
  { unfold login_user, isLocked, incrementLoginAttempts. rewrite Hu, Hw1. simpl.
    replace (until >? at_isLocked clk1) with false by lia.
    replace (until <? at_expiry clk1) with true by lia. reflexivity. }
  assert (H5 : logins compare (set_lock u 0 None) reqs
               = (replicate 4 invalid, set_lock u 4 None)).
  { rewrite (LockoutProps.failures_below_threshold compare reqs (set_lock u 0 None));
      [| reflexivity | simpl; lia | exact Hw].
    rewrite Hlen. reflexivity. }
  split.
  - rewrite H1, H5. reflexivity.
  - rewrite H1. rewrite LockoutProps.logins_app, H5. simpl.
    rewrite (LockoutProps.wrong_password_unlocked compare (set_lock u 4 None) cand6 clk6)
      by done.
    reflexivity.
Qed.

Lemma six_failures_after_expiry_witness :
  let u := mk "ann@example.org" "secret" true 5 (Some 1000) in
  let at_ t := mkClock t t t in
  let reqs := [("b", at_ 3000); ("c", at_ 4000); ("d", at_ 5000); ("e", at_ 6000)] in
  lockUntil u = Some 1000
  ∧ all_wrong String.eqb u (("a", at_ 2000) :: reqs ++ [("f", at_ 7000)])
  ∧ snd (logins String.eqb u (("a", at_ 2000) :: reqs))
    = mk "ann@example.org" "secret" true 4 None
  ∧ snd (logins String.eqb u (("a", at_ 2000) :: reqs ++ [("f", at_ 7000)]))
    = mk "ann@example.org" "secret" true 5 (Some 907000).
Proof.
  intros u at_ reqs.
  assert (Hw : all_wrong String.eqb u (("a", at_ 2000) :: reqs ++ [("f", at_ 7000)])).
  { repeat constructor. }
  destruct (six_failures_after_expiry String.eqb u 1000 ("a", at_ 2000) reqs ("f", at_ 7000)
              eq_refl ltac:(simpl; lia) ltac:(simpl; lia) eq_refl Hw) as [H5 H6].
  split; [reflexivity|]. split; [exact Hw|]. split.
  - exact (f_equal snd H5).
  - exact (f_equal snd H6).
Defined.

(** X21. A login request touches one account at most, the one stored
    under the address of the request as the schema casts it (in small
    letters, trimmed): the accounts under other addresses are as before,
    no account appears or disappears, and the account addressed keeps its
    address, its password and its verification mark.  Requests whose
    addresses are cast to the same address are the same request.  An
    address that, after the cast, no account has is answered like a wrong
    password on an open account, with 400 and [Invalid credentials], and
    writes nothing. *)
Theorem login_touches_one_account (compare : string → string → bool)
    (castEmail : string → string)
    (users : gmap string t) (mail candidate : string) (clk : clock) :
  let key := castEmail mail in
  let users' := snd (login compare castEmail users mail candidate clk) in
  (∀ mail', mail' ≠ key → users' !! mail' = users !! mail')
  ∧ (∀ mail', is_Some (users' !! mail') ↔ is_Some (users !! mail'))
  ∧ (∀ u, users !! key = Some u →
          ∃ u', users' !! key = Some u'
                ∧ email u' = email u ∧ password u' = password u
                ∧ emailVerified u' = emailVerified u)
  ∧ (∀ other, castEmail other = key →
       login compare castEmail users other candidate clk
       = login compare castEmail users mail candidate clk)
  ∧ (users !! key = None →
     login compare castEmail users mail candidate clk = (invalid, users))
  ∧ (∀ u, users !! key = Some u → isLocked u (at_isLocked clk) = false →
          compare candidate (password u) = false →
          fst (login compare castEmail users mail candidate clk) = invalid).
Proof.
  intros key users'. unfold users', login. fold key.
  split; [|split; [|split; [|split; [|split]]]].
  - intros mail' Hne. destruct (users !! key) as [u|] eqn:Hu; [|done].
    destruct (login_user compare u candidate clk) as [r u']. simpl.
    by rewrite lookup_insert_ne.
  - intros mail'. destruct (users !! key) as [u|] eqn:Hu; [|done].
    destruct (login_user compare u candidate clk) as [r u']. simpl.
    destruct (decide (mail' = key)) as [->|Hne].
    + rewrite lookup_insert_eq, Hu. split; eauto.
    + by rewrite lookup_insert_ne.
  - intros u Hu. rewrite Hu.
    pose proof (login_user_keeps_identity compare u candidate clk) as Hid.
    destruct (login_user compare u candidate clk) as [r u']. simpl in *.
    exists u'. by rewrite lookup_insert_eq.
  - intros other Ho. by rewrite Ho.
  - intros Hu. by rewrite Hu.
  - intros u Hu Hl Hc. rewrite Hu.
    destruct (login_user compare u candidate clk) as [r u'] eqn:E. simpl.
    unfold login_user in E. rewrite Hl, Hc in E. simpl in E. by injection E as <- _.
Qed.

(** The address of a request in capitals reaches the account stored in
    small letters. *)
Lemma login_touches_one_account_witness :
  let castEmail := λ mail : string,
    if bool_decide (mail = "ANN@EXAMPLE.ORG") then "ann@example.org" else mail in
  let ann := mk "ann@example.org" "secret" true 0 None in
  let users : gmap string t := {[ "ann@example.org" := ann ]} in
  castEmail "ANN@EXAMPLE.ORG" = castEmail "ann@example.org"
  ∧ login String.eqb castEmail users "ANN@EXAMPLE.ORG" "guess" (mkClock 1000 1000 1000)
    = login String.eqb castEmail users "ann@example.org" "guess" (mkClock 1000 1000 1000)
  ∧ snd (login String.eqb castEmail users "ANN@EXAMPLE.ORG" "guess" (mkClock 1000 1000 1000))
      !! "ann@example.org"
    = Some (mk "ann@example.org" "secret" true 1 None).
Proof.
  intros castEmail ann users.
  assert (Hk : castEmail "ANN@EXAMPLE.ORG" = castEmail "ann@example.org") by reflexivity.
  destruct (login_touches_one_account String.eqb castEmail users "ann@example.org" "guess"
              (mkClock 1000 1000 1000)) as (_ & _ & _ & Hsame & _).
  split; [exact Hk|]. split; [exact (Hsame "ANN@EXAMPLE.ORG" Hk)|].
  vm_compute. reflexivity.
Defined.

End LoginMoreProps.

(** ** The daily engagement of comics and blog posts, merged *)

Module DailyEngagementProps.

Import DailyEngagement.

Lemma merge_item_dates m r :
  map date (merge_item m r)
  = if bool_decide (row_id r ∈ map date m) then map date m else map date m ++ [row_id r].
Proof.
  unfold merge_item. rewrite map_map.
  assert (H : ∀ l : list Day,
             map (λ x, date (if bool_decide (date x = row_id r)
                             then mkDay (date x) (likes x + row_likes r) (views x + row_views r)
                             else x)) l = map date l).
  { intros l. apply map_ext. intros d. by case_bool_decide. }
  rewrite H. case_bool_decide; [done|]. by rewrite map_app.
Qed.

Lemma merge_item_NoDup m r : NoDup (map date m) → NoDup (map date (merge_item m r)).
Proof.
  intros Hm. rewrite merge_item_dates. case_bool_decide as Hin; [done|].
  apply NoDup_app. split; [done|]. split; [|apply NoDup_singleton].
  intros x Hx Hx'. apply list_elem_of_singleton in Hx'. by subst.
Qed.

Lemma mergeData_NoDup data m : NoDup (map date m) → NoDup (map date (mergeData data m)).
Proof.
  revert m. induction data as [|r data IH]; intros m Hm; [done|].
  simpl. apply IH. by apply merge_item_NoDup.
Qed.

Lemma at_day_absent (f : Day → Z) d m : d ∉ map date m → at_day f d m = 0.
Proof.
  induction m as [|e m IH]; simpl; [done|].
  intros H. apply not_elem_of_cons in H as [Hne Hm].
  rewrite bool_decide_eq_false_2 by congruence. rewrite IH by done. lia.
Qed.

Lemma at_day_app (f : Day → Z) d m1 m2 :
  at_day f d (m1 ++ m2) = at_day f d m1 + at_day f d m2.
Proof. induction m1 as [|e m1 IH]; simpl; [done|]. rewrite IH. lia. Qed.

(** One row adds its sums to its day and to no other. *)
Lemma merge_item_at_day (f : Day → Z) (g : Row → Z) m r d :
  (∀ e, f (mkDay (date e) (likes e + row_likes r) (views e + row_views r)) = f e + g r) →
  f (mkDay (row_id r) 0 0) = 0 →
  NoDup (map date m) →
  at_day f d (merge_item m r)
  = at_day f d m + (if bool_decide (row_id r = d) then g r else 0).
Proof.
  intros Hf H0 Hm. unfold merge_item.
  set (upd := λ e, if bool_decide (date e = row_id r)
                   then mkDay (date e) (likes e + row_likes r) (views e + row_views r)
                   else e).
  assert (Hfresh : ∀ l, row_id r ∉ map date l → map upd l = l).
  { induction l as [|e l IH]; simpl; [done|].
    intros H. apply not_elem_of_cons in H as [Hne Hl].
    unfold upd at 1. rewrite bool_decide_eq_false_2 by congruence.
    by rewrite IH. }
  assert (Hin : ∀ l, NoDup (map date l) → row_id r ∈ map date l →
                at_day f d (map upd l)
                = at_day f d l + (if bool_decide (row_id r = d) then g r else 0)).
  { induction l as [|e l IH]; simpl; intros Hl Hr.
    - by apply elem_of_nil in Hr.
    - apply NoDup_cons in Hl as [He Hl].
      destruct (decide (date e = row_id r)) as [Heq|Hne].
      + rewrite Hfresh by (rewrite <- Heq; exact He).
        unfold upd. rewrite (bool_decide_eq_true_2 _ Heq). simpl.
        rewrite Hf, <- Heq. destruct (bool_decide (date e = d)); lia.
      + apply elem_of_cons in Hr as [Hr|Hr]; [congruence|].
        assert (Hu : upd e = e) by (unfold upd; by rewrite (bool_decide_eq_false_2 _ Hne)).
        rewrite Hu, IH by done. lia. }
  destruct (decide (row_id r ∈ map date m)) as [Hr|Hr].
  - rewrite (bool_decide_eq_true_2 _ Hr). by apply Hin.
  - rewrite (bool_decide_eq_false_2 _ Hr).
    rewrite map_app, Hfresh by done. rewrite at_day_app. unfold at_day at 2. simpl.
    unfold upd. rewrite (bool_decide_eq_true_2 (row_id r = row_id r) eq_refl). simpl.
    pose proof (Hf (mkDay (row_id r) 0 0)) as Hnew. simpl in Hnew.
    rewrite Hnew, H0. destruct (bool_decide (row_id r = d)); lia.
Qed.

Lemma mergeData_at_day (f : Day → Z) (g : Row → Z) data m d :
  (∀ r e, f (mkDay (date e) (likes e + row_likes r) (views e + row_views r)) = f e + g r) →
  (∀ r, f (mkDay (row_id r) 0 0) = 0) →
  NoDup (map date m) →
  at_day f d (mergeData data m) = at_day f d m + on_day g d data.
Proof.
  intros Hf H0. revert m. induction data as [|r data IH]; intros m Hm; simpl.
  - lia.
  - unfold mergeData in IH. rewrite IH by (by apply merge_item_NoDup).
    rewrite (merge_item_at_day f g) by (auto || done). lia.
Qed.

Lemma at_day_unique (f : Day → Z) m e :
  NoDup (map date m) → e ∈ m → at_day f (date e) m = f e.
Proof.
  induction m as [|x m IH]; simpl; intros Hm He.
  - by apply elem_of_nil in He.
  - apply NoDup_cons in Hm as [Hx Hm].
    apply elem_of_cons in He as [->|He].
    + rewrite bool_decide_eq_true_2 by done. rewrite at_day_absent by done. lia.
    + rewrite bool_decide_eq_false_2.
      * rewrite IH by done. lia.
      * intros Heq. apply Hx. rewrite Heq. apply list_elem_of_fmap. by exists e.
Qed.

Lemma filter_agree {A : Type} (P1 P2 : A → Prop)
    `{∀ x, Decision (P1 x)} `{∀ x, Decision (P2 x)} (l : list A) :
  (∀ x, x ∈ l → P1 x ↔ P2 x) → filter P1 l = filter P2 l.
Proof.
  induction l as [|a l IH]; intros Hl; [done|].
  rewrite !filter_cons.
  assert (Ha : P1 a ↔ P2 a) by (apply Hl; apply list_elem_of_here).
  assert (Hr : filter P1 l = filter P2 l).
  { apply IH. intros x Hx. apply Hl. by apply list_elem_of_further. }
  destruct (decide (P1 a)), (decide (P2 a)); rewrite ?Hr; tauto.
Qed.

Lemma filter_all {A : Type} (P : A → Prop) `{∀ x, Decision (P x)} (l : list A) :
  (∀ x, P x) → filter P l = l.
Proof.
  intros HP. induction l as [|a l IH]; [done|].
  rewrite filter_cons, decide_True by done. by rewrite IH.
Qed.

Lemma mergeData_dates data m :
  NoDup (map row_id data) →
  map date (mergeData data m)
  = map date m ++ filter (λ d, d ∉ map date m) (map row_id data).
Proof.
  revert m. induction data as [|r data IH]; intros m Hd; simpl.
  - by rewrite app_nil_r.
  - apply NoDup_cons in Hd as [Hr Hd].
    unfold mergeData in IH. rewrite IH by done. rewrite merge_item_dates.
    rewrite filter_cons. case_bool_decide as Hin.
    + by rewrite decide_False by (intros H; by apply H).
    + rewrite decide_True by done. rewrite <- app_assoc. simpl. do 2 f_equal.
      apply filter_agree. intros x Hx.
      rewrite not_elem_of_app, list_elem_of_singleton.
      split; [tauto|]. intros H. split; [done|]. intros ->. done.
Qed.

(** X22. [getDailyEngagementTrends] lists every day once, with the likes
    and the views of the comics and of the blog posts of that day added
    up, and with 0 shares and saves: nothing is lost and nothing counted
    twice.  The days come in the order of their first appearance: the
    days of the comics first, then the days only blog posts have, so the
    list is not in the order of the calendar. *)
Theorem daily_trends_add_up (comicData blogData : list Row) :
  NoDup (map row_id comicData) → NoDup (map row_id blogData) →
  let trends := getDailyEngagementTrends comicData blogData in
  map trend_date trends
  = map row_id comicData
    ++ filter (λ d, d ∉ map row_id comicData) (map row_id blogData)
  ∧ NoDup (map trend_date trends)
  ∧ (∀ t, t ∈ trends →
       trend_likes t = on_day row_likes (trend_date t) comicData
                       + on_day row_likes (trend_date t) blogData
       ∧ trend_views t = on_day row_views (trend_date t) comicData
                         + on_day row_views (trend_date t) blogData
       ∧ shares t = 0 ∧ saves t = 0).
Proof.
  intros Hc Hb trends. unfold trends, getDailyEngagementTrends.
  set (m := mergeData blogData (mergeData comicData [])).
  assert (Hm0 : NoDup (map date (mergeData comicData []))).
  { apply mergeData_NoDup. simpl. apply NoDup_nil_2. }
  assert (Hm : NoDup (map date m)) by (by apply mergeData_NoDup).
  assert (Hdates : map trend_date (map (λ day, mkTrend (date day) (likes day) (views day) 0 0) m)
                   = map date m) by (by rewrite map_map).
  assert (Hc0 : map date (mergeData comicData []) = map row_id comicData).
  { rewrite mergeData_dates by done. simpl.
    rewrite filter_all; [done|]. intros x. apply not_elem_of_nil. }
  split; [|split].
  - rewrite Hdates. unfold m. rewrite mergeData_dates by done. by rewrite Hc0.
  - by rewrite Hdates.
  - intros t Ht. apply list_elem_of_fmap in Ht as (e & -> & He). simpl.
    split; [|split; [|done]].
    + rewrite <- (at_day_unique likes m e Hm He). unfold m.
      rewrite (mergeData_at_day likes row_likes) by done.
      rewrite (mergeData_at_day likes row_likes) by (done || apply NoDup_nil_2).
      simpl. lia.
    + rewrite <- (at_day_unique views m e Hm He). unfold m.
      rewrite (mergeData_at_day views row_views) by done.
      rewrite (mergeData_at_day views row_views) by (done || apply NoDup_nil_2).
      simpl. lia.
Qed.

Lemma daily_trends_add_up_witness :
  let comicData := [mkRow "2026-01-01" 3 40; mkRow "2026-01-03" 1 10] in
  let blogData := [mkRow "2026-01-02" 5 50; mkRow "2026-01-03" 2 20] in
  NoDup (map row_id comicData) ∧ NoDup (map row_id blogData)
  ∧ getDailyEngagementTrends comicData blogData
    = [mkTrend "2026-01-01" 3 40 0 0; mkTrend "2026-01-03" 3 30 0 0;
       mkTrend "2026-01-02" 5 50 0 0]
  ∧ map trend_date (getDailyEngagementTrends comicData blogData)
    = ["2026-01-01"; "2026-01-03"; "2026-01-02"].
Proof.
  intros comicData blogData.
  assert (Hc : NoDup (map row_id comicData)) by compute_done.
  assert (Hb : NoDup (map row_id blogData)) by compute_done.
  split; [exact Hc|]. split; [exact Hb|]. split; [reflexivity|].
  rewrite (proj1 (daily_trends_add_up comicData blogData Hc Hb)). reflexivity.
Defined.

End DailyEngagementProps.

(** ** Retention *)

Module RetentionProps.

Import Retention.

Local Open Scope Q_scope.

Lemma count_le (P1 P2 : user → bool) users :
  (∀ u, P1 u = true → P2 u = true) →
  (countDocuments P1 users ≤ countDocuments P2 users)%Z.
Proof.
  intros H. unfold countDocuments. apply inj_le.
  induction users as [|u users IH]; [done|].
  rewrite !filter_cons.
  destruct (decide (P1 u = true)) as [H1|H1].
  - rewrite decide_True by auto. simpl. lia.
  - destruct (decide (P2 u = true)); simpl; lia.
Qed.

Lemma count_nonneg (P : user → bool) users : (0 ≤ countDocuments P users)%Z.
Proof. unfold countDocuments. lia. Qed.

Lemma rate_in_range (x : Q) :
  0 <= x → x <= 1 →
  0 <= Number.toFixed1 (Number.mul x 100) ∧ Number.toFixed1 (Number.mul x 100) <= 100.
Proof.
  intros H0 H1.
  assert (Hm : inject_Z 0 <= Number.mul x 100 ∧ Number.mul x 100 <= inject_Z 100).
  { apply RatingProps.binary64_between; [reflexivity | reflexivity | |].
    - change (inject_Z 0) with 0. lra.
    - change (inject_Z 100) with 100. lra. }
  destruct Hm as [Hm0 Hm1].
  assert (E0 : Number.toFixed1 0 == 0) by reflexivity.
  assert (E1 : Number.toFixed1 100 == 100) by reflexivity.
  split.
  - apply Qle_trans with (Number.toFixed1 0).
    + rewrite E0. apply Qle_refl.
    + apply RoundingProps.toFixed1_mono. exact Hm0.
  - apply Qle_trans with (Number.toFixed1 100).
    + apply RoundingProps.toFixed1_mono. exact Hm1.
    + rewrite E1. apply Qle_refl.
Qed.

(** X23. The rates of [calculateUserRetention] are percentages: the
    retention rate and the churn rate lie between 0 and 100 whatever the
    users are, both are 0 when no user is older than fourteen days, and
    the returning users are among the active ones. *)
Theorem retention_rates_are_percentages (users : list user) (now1 now2 : Z) :
  let r := calculateUserRetention users now1 now2 in
  (0 <= retentionRate r ∧ retentionRate r <= 100)
  ∧ (0 <= churnRate r ∧ churnRate r <= 100)
  ∧ (0 ≤ returningUsers r ≤ activeUsers r)%Z
  ∧ ((∀ u, u ∈ users → (now2 - 14 * 24 * 60 * 60 * 1000 ≤ createdAt u)%Z) →
     retentionRate r == 0 ∧ churnRate r == 0).
Proof.
  intros r. unfold r, calculateUserRetention. simpl.
  set (seven := (now1 - 7 * 24 * 60 * 60 * 1000)%Z).
  set (fourteen := (now2 - 14 * 24 * 60 * 60 * 1000)%Z).
  set (returning := countDocuments
                      (λ u, (seven <=? lastActive u)%Z && (createdAt u <? fourteen)%Z) users).
  set (total := countDocuments (λ u, (createdAt u <? fourteen)%Z) users).
  assert (Hrt : (returning ≤ total)%Z).
  { apply count_le. intros u Hu. apply andb_prop in Hu as [_ Hu]. exact Hu. }
  assert (Hr0 : (0 ≤ returning)%Z) by apply count_nonneg.
  assert (Hratio : (0 < total)%Z →
                   0 <= Number.div (inject_Z returning) (inject_Z total)
                   ∧ Number.div (inject_Z returning) (inject_Z total) <= 1).
  { intros Ht.
    assert (HT : 0 < inject_Z total) by (change 0 with (inject_Z 0); rewrite <- Zlt_Qlt; lia).
    apply (RatingProps.binary64_between 0 1); [reflexivity | reflexivity | |].
    - apply Qle_shift_div_l; [exact HT|]. rewrite Qmult_0_l.
      change 0 with (inject_Z 0). rewrite <- Zle_Qle. lia.
    - apply Qle_shift_div_r; [exact HT|]. rewrite Qmult_1_l.
      rewrite <- Zle_Qle. lia. }
  split; [|split; [|split]].
  - destruct (total >? 0)%Z eqn:E; [|split; discriminate].
    destruct (Hratio ltac:(lia)) as [H0 H1]. by apply rate_in_range.
  - destruct (total >? 0)%Z eqn:E; [|split; discriminate].
    destruct (Hratio ltac:(lia)) as [H0 H1].
    set (q := Number.div (inject_Z returning) (inject_Z total)) in *. clearbody q.
    assert (Hs : inject_Z 0 <= Number.sub 1 q ∧ Number.sub 1 q <= inject_Z 1).
    { apply RatingProps.binary64_between; [reflexivity | reflexivity | |].
      - change (inject_Z 0) with 0. lra.
      - change (inject_Z 1) with 1. lra. }
    destruct Hs as [Hs0 Hs1]. by apply rate_in_range.
  - split; [exact Hr0|]. apply count_le.
    intros u Hu. apply andb_prop in Hu as [Hu _]. exact Hu.
  - intros Hall.
    assert (Ht : total = 0%Z).
    { unfold total, countDocuments.
      assert (Hf : filter (λ u, (createdAt u <? fourteen)%Z = true) users = []).
      { clear -Hall. induction users as [|u users IH]; [done|].
        rewrite filter_cons.
        assert (Hu : (fourteen ≤ createdAt u)%Z) by (apply Hall; apply list_elem_of_here).
        rewrite decide_False by lia. apply IH.
        intros v Hv. apply Hall. by apply list_elem_of_further. }
      by rewrite Hf. }
    rewrite Ht. simpl. split; reflexivity.
Qed.

End RetentionProps.

(** ** Deleting a tag *)

Module TagAdminProps.

Import TagAdmin.

Lemma countDocuments_zero id st :
  countDocuments id st ≤ 0 ↔ ∀ c, c ∈ Counters.comics st → id ∉ Comic.tags c.
Proof.
  unfold countDocuments. split.
  - intros H c Hc Hid.
    assert (Hin : c ∈ filter (λ c, id ∈ Comic.tags c) (Counters.comics st))
      by (apply list_elem_of_filter; done).
    destruct (filter (λ c, id ∈ Comic.tags c) (Counters.comics st)); simpl in H;
      [by apply elem_of_nil in Hin | lia].
  - intros H.
    assert (Hf : filter (λ c, id ∈ Comic.tags c) (Counters.comics st) = []).
    { induction (Counters.comics st) as [|c l IH]; [done|].
      rewrite filter_cons. rewrite decide_False by (apply H; apply list_elem_of_here).
      apply IH. intros c' Hc'. apply H. by apply list_elem_of_further. }
    rewrite Hf. simpl. lia.
Qed.

(** X24. [deleteTag] removes a tag only when no stored comic carries it,
    archived comics included.  The check counts the comics themselves and
    not the [comicCount] field of the tag: so when every tag that a comic
    carries exists before the call, it does after it.  The handler removes
    the tag asked for and nothing else, and when it refuses it writes
    nothing. *)
Theorem deleteTag_keeps_the_tags_in_use (id : string) (st : Counters.store) :
  tags_exist st →
  let st' := snd (deleteTag id st) in
  tags_exist st'
  ∧ Counters.comics st' = Counters.comics st
  ∧ Counters.genreCount st' = Counters.genreCount st
  ∧ (∀ id', id' ≠ id → Counters.tagCount st' !! id' = Counters.tagCount st !! id')
  ∧ (fst (deleteTag id st) = Done
     ↔ is_Some (Counters.tagCount st !! id)
       ∧ ∀ c, c ∈ Counters.comics st → id ∉ Comic.tags c)
  ∧ (fst (deleteTag id st) = Done → Counters.tagCount st' !! id = None)
  ∧ (fst (deleteTag id st) ≠ Done → st' = st).
Proof.
  intros Hex st'. unfold st', deleteTag.
  destruct (Counters.tagCount st !! id) as [n|] eqn:Hid.
  - destruct (countDocuments id st >? 0) eqn:Hc; simpl.
    + assert (Hused : ¬ ∀ c, c ∈ Counters.comics st → id ∉ Comic.tags c).
      { rewrite <- countDocuments_zero. lia. }
      split; [exact Hex|]. split; [done|]. split; [done|]. split; [done|].
      split; [|split; [discriminate | done]].
      split; [discriminate|]. intros [_ H]. by destruct Hused.
    + assert (Hfree : ∀ c, c ∈ Counters.comics st → id ∉ Comic.tags c).
      { apply countDocuments_zero. lia. }
      split.
      { intros c t Hc' Ht. simpl in *.
        assert (t ≠ id) by (intros ->; by apply (Hfree c)).
        rewrite lookup_delete_ne by done. by apply (Hex c). }
      split; [done|]. split; [done|]. split.
      { intros id' Hne. by rewrite lookup_delete_ne. }
      split; [|split].
      * split; [intros _; split; [eauto | exact Hfree] | done].
      * intros _. apply lookup_delete_eq.
      * intros H. by destruct H.
  - simpl. split; [exact Hex|]. split; [done|]. split; [done|]. split; [done|].
    split; [|split; [discriminate | done]].
    split; [discriminate|]. intros [[x Hx] _]. discriminate.
Qed.

Lemma deleteTag_keeps_the_tags_in_use_witness :
  tags_exist Counters.created
  ∧ (∃ message, fst (deleteTag "t1" Counters.created) = Error message)
  ∧ snd (deleteTag "t1" Counters.created) = Counters.created.
Proof.
  assert (Hex : tags_exist Counters.created).
  { intros c t Hc Ht. vm_compute in Hc.
    apply list_elem_of_singleton in Hc. subst c.
    apply list_elem_of_singleton in Ht. subst t. by eexists. }
  split; [exact Hex|]. split; [by eexists|].
  apply (deleteTag_keeps_the_tags_in_use "t1" Counters.created Hex). discriminate.
Defined.

End TagAdminProps.

(** ** The word count of the statistics against the reading time *)

Module WordCountProps.

Import BlogPages.

Local Open Scope Z_scope.

(** The runs of white space against the words, from a point after a
    word and from a point after white space. *)
Lemma runs_and_words s :
  space_runs false s = count_words true s + (if ends_space false s then 1 else 0)
  ∧ space_runs true s + 1 = count_words false s + (if ends_space true s then 1 else 0).
Proof.
  induction s as [|c r [IH1 IH2]]; simpl; [done|].
  destruct (JSString.is_space c); simpl; lia.
Qed.

(** X25. The word count of [getBlogStats] and the word count behind the
    stored reading time are not the same number: the statistics count the
    empty pieces that [split] leaves at a white end of the content, the
    hook drops them.  The statistics' count is the hook's count plus one
    for the empty content, plus one for white space at the start and
    plus one for white space at the end; the two agree on content that
    is not empty and has no white space at either end; and the estimated
    read time is the stored reading time or one minute more. *)
Theorem wordCount_against_words (content : JSString.t) :
  Z.of_nat (length content) < 2 ^ 52 →
  wordCount content
  = words content
    + (if bool_decide (content = []) then 1 else 0)
    + (if starts_space content then 1 else 0)
    + (if ends_space false content then 1 else 0)
  ∧ words content ≤ wordCount content ≤ words content + 2
  ∧ readingTime content ≤ estimatedReadTime content ≤ readingTime content + 1.
Proof.
  intros Hlen.
  assert (Hw : wordCount content
               = words content
                 + (if bool_decide (content = []) then 1 else 0)
                 + (if starts_space content then 1 else 0)
                 + (if ends_space false content then 1 else 0)).
  { unfold wordCount, words. destruct content as [|c r]; [reflexivity|].
    rewrite bool_decide_eq_false_2 by discriminate. simpl.
    destruct (JSString.is_space c).
    - pose proof (proj2 (runs_and_words r)). lia.
    - pose proof (proj1 (runs_and_words r)). lia. }
  assert (Hb : words content ≤ wordCount content ≤ words content + 2).
  { rewrite Hw. destruct content as [|c r]; [simpl; lia|].
    rewrite bool_decide_eq_false_2 by discriminate.
    destruct (starts_space (c :: r)), (ends_space false (c :: r)); lia. }
  split; [exact Hw|]. split; [exact Hb|].
  pose proof (BlogPagesProps.count_words_bounds false content) as Hc.
  fold (words content) in Hc.
  unfold readingTime, estimatedReadTime. change 200%Q with (inject_Z 200).
  rewrite !BlogPagesProps.ceil_div by lia.
  pose proof (Z.div_mod (words content + 200 - 1) 200 ltac:(lia)).
  pose proof (Z.mod_pos_bound (words content + 200 - 1) 200 ltac:(lia)).
  pose proof (Z.div_mod (wordCount content + 200 - 1) 200 ltac:(lia)).
  pose proof (Z.mod_pos_bound (wordCount content + 200 - 1) 200 ltac:(lia)).
  lia.
Qed.

Lemma wordCount_against_words_witness :
  let content := JSString.of_string " Once upon a time " in
  Z.of_nat (length content) < 2 ^ 52
  ∧ words content = 4
  ∧ wordCount content = 4 + 0 + 1 + 1.
Proof.
  intros content.
  assert (Hl : Z.of_nat (length content) < 2 ^ 52) by reflexivity.
  split; [exact Hl|]. split; [reflexivity|].
  exact (proj1 (wordCount_against_words content Hl)).
Defined.

End WordCountProps.

(** ** Creating comics *)

Module CreateProps.

Import Comic Counters.





End CreateProps.

(** ** The light colour of a genre *)

Module GenreProps.

Import Genre.

Lemma lighten_checked :
  forallb (λ r, lighten r =? 230 + r / 10) channels = true.
Proof. vm_compute. reflexivity. Qed.

(** X27. A channel of [colorLight] is 230 plus a tenth of the channel of
    the genre's colour, rounded down: the product with the double 0.9 and
    the sum round to that on each of the 256 values.  So the light colour
    is never darker than the colour, its channels lie between 230 and
    255, and a lighter colour has no darker light colour. *)
Theorem lighten_channel (r : Z) :
  0 ≤ r ≤ 255 →
  lighten r = 230 + r / 10
  ∧ r ≤ lighten r
  ∧ 230 ≤ lighten r ≤ 255
  ∧ (∀ r', r ≤ r' ≤ 255 → lighten r ≤ lighten r').
Proof.
  intros Hr.
  assert (Hall : ∀ x, 0 ≤ x ≤ 255 → lighten x = 230 + x / 10).
  { intros x Hx. pose proof lighten_checked as H.
    rewrite forallb_forall in H.
    apply Z.eqb_eq, H. apply list_elem_of_In.
    unfold channels. apply list_elem_of_fmap. exists (Z.to_nat x).
    split; [lia|]. apply elem_of_seq. lia. }
  rewrite (Hall r Hr).
  pose proof (Z.div_mod r 10 ltac:(lia)) as Hdm.
  pose proof (Z.mod_pos_bound r 10 ltac:(lia)) as Hm.
  split; [reflexivity|]. split; [lia|]. split; [lia|].
  intros r' Hr'. rewrite (Hall r') by lia.
  pose proof (Z.div_le_mono r r' 10 ltac:(lia) ltac:(lia)). lia.
Qed.

Lemma lighten_channel_witness :
  0 ≤ 79 ≤ 255 ∧ lighten 79 = 237 ∧ lighten 0 = 230 ∧ lighten 255 = 255.
Proof.
  assert (H79 : 0 ≤ 79 ≤ 255) by (split; discriminate).
  split; [exact H79|]. split; [|split; reflexivity].
  exact (proj1 (lighten_channel 79 H79)).
Defined.

End GenreProps.
